(** * REViewer: candidate diplotypes, path summaries and unique k-mer counts

    A shallow embedding of [app/GenotypePaths.cpp] (REViewer) and of the
    k-mer index queries exercised by the graph-tools test-suite, together
    with the properties the specification states about them.

    Conventions of the embedding
    - C++ [int] values are modelled as [Z]; the only places where a value
      changes representation (the [int] to [size_t] conversion of a vector
      length, the [ptrdiff_t] to [int] conversion of a count, the increment
      of a [NodeId]) are written out.
    - [std::vector] is [list]; [std::map] is an association list kept in
      strictly increasing key order (iteration order is observable).
    - A C++ call either returns, throws, trips an [assert], runs into
      undefined behaviour, or loops; [outcome] records which. *)

From Stdlib Require Import ZArith List String Ascii Bool Lia.
From Stdlib Require Import Sorted Permutation DecimalString.
From stdpp Require gmap strings.
Import ListNotations.

Local Open Scope string_scope.
Local Open Scope list_scope.
Local Open Scope Z_scope.

(* ================================================================== *)
(** ** Outcomes of a C++ call *)
(* ================================================================== *)

(** The exception classes thrown by the code, with their [what()] text. *)
Inductive exception : Type :=
| runtime_error (what : string)
| logic_error (what : string)
| invalid_argument (what : string)
| out_of_range (what : string)
| length_error (what : string).

Inductive outcome (A : Type) : Type :=
| Ok (a : A)            (* normal return *)
| Throw (e : exception) (* an exception leaves the function *)
| AssertFail            (* an [assert] is violated: the process aborts *)
| ContractViolation     (* an invariant of a graph-tools object is violated *)
| Undefined             (* undefined behaviour *)
| OutOfFuel.            (* the loop has not finished within the fuel *)

Arguments Ok {A} a.
Arguments Throw {A} e.
Arguments AssertFail {A}.
Arguments ContractViolation {A}.
Arguments Undefined {A}.
Arguments OutOfFuel {A}.

Definition bind {A B : Type} (m : outcome A) (k : A -> outcome B) : outcome B :=
  match m with
  | Ok a => k a
  | Throw e => Throw e
  | AssertFail => AssertFail
  | ContractViolation => ContractViolation
  | Undefined => Undefined
  | OutOfFuel => OutOfFuel
  end.

Notation "'let*' x ':=' m 'in' k" := (bind m (fun x => k))
  (at level 10, x pattern, m at level 100, k at level 200).

(** [assert(b); k] *)
Definition assert {A : Type} (b : bool) (k : outcome A) : outcome A :=
  if b then k else AssertFail.

(** Run [f] over a vector, left to right, stopping at the first element
    on which it does not return. *)
Fixpoint mapM {A B : Type} (f : A -> outcome B) (l : list A) : outcome (list B) :=
  match l with
  | [] => Ok []
  | x :: xs => let* y := f x in let* ys := mapM f xs in Ok (y :: ys)
  end.

Definition is_ok {A : Type} (m : outcome A) : bool :=
  match m with Ok _ => true | _ => false end.

(* ================================================================== *)
(** ** Machine integers *)
(* ================================================================== *)

Definition INT_MAX : Z := 2147483647.
Definition INT_MIN : Z := -2147483648.

(** Conversion of an integer value to [int] (two's complement wrap). *)
Definition to_int (z : Z) : Z := (z + 2147483648) mod 4294967296 - 2147483648.

(** Modelled from the spec: the declaration of [graphtools::NodeId] is not
    part of the sources at hand.  The spec describes a node identifier as a
    non-negative integer, and the code compares it with [-1] and asks for
    its [numeric_limits]; it is taken as an unsigned 32-bit integer. *)
Definition NodeId : Type := Z.
Definition NodeId_modulus : Z := 4294967296.
Definition NodeId_max : NodeId := 4294967295.
Definition NodeId_lowest : NodeId := 0.
(** [-1] converted to [NodeId], the marker of an absent node. *)
Definition NodeId_minus_one : NodeId := (-1) mod NodeId_modulus.
(** [++node] *)
Definition NodeId_incr (n : NodeId) : NodeId := (n + 1) mod NodeId_modulus.

Definition NodeVector : Type := list NodeId.
Definition Nodes : Type := list NodeId.
Definition NodeVectors : Type := list NodeVector.
Definition NodeRange : Type := (NodeId * NodeId)%type.

(* ================================================================== *)
(** ** capLengths *)
(* ================================================================== *)

Definition capLengths (upperBound : Z) (lengths : list Z) : list Z :=
  map (fun length => if length <=? upperBound then length else upperBound) lengths.

(** [NodeVector(count, value)]: the count is converted to [size_t], so a
    negative [int] becomes a size beyond [max_size()] and the constructor
    throws. *)
Definition NodeVector_fill (count : Z) (value : NodeId) : outcome NodeVector :=
  if count <? 0
  then Throw (length_error "cannot create std::vector larger than max_size()")
  else Ok (repeat value (Z.to_nat count)).

(** Lines 129-135 of [getGenotypeNodesByNodeRange]: the lengths are capped
    and each one becomes a vector of that many copies of the repeat node. *)
Definition genotypeNodesOf (meanFragLen : Z) (repeatNode : NodeId) (repeatLens : list Z)
  : outcome NodeVectors :=
  mapM (fun repeatLen => NodeVector_fill repeatLen repeatNode)
       (capLengths meanFragLen repeatLens).

(* ================================================================== *)
(** ** Strings: the library calls made by [extractRepeatLengths] *)
(* ================================================================== *)

Definition tab : ascii := ascii_of_nat 9.

(** [boost::find_first(line, query)] read as a truth value: [query] occurs
    in [line].  An empty [query] is never found. *)
Fixpoint occurs (query line : string) : bool :=
  if String.prefix query line then true
  else match line with
       | EmptyString => false
       | String _ rest => occurs query rest
       end.

Definition find_first (line query : string) : bool :=
  match query with
  | EmptyString => false
  | _ => occurs query line
  end.

(** [boost::split(pieces, s, boost::is_any_of(sep))] for a one-character
    separator set: adjacent separators are not merged, so [n] separators
    give [n + 1] pieces, empty ones included. *)
Fixpoint split (sep : ascii) (s : string) : list string :=
  match s with
  | EmptyString => [EmptyString]
  | String c rest =>
      if Ascii.eqb c sep then EmptyString :: split sep rest
      else match split sep rest with
           | piece :: pieces => String c piece :: pieces
           | [] => [String c EmptyString]
           end
  end.

(** [pieces[i]]: reading past the end of a vector is undefined. *)
Definition at_index {A : Type} (pieces : list A) (i : nat) : outcome A :=
  match nth_error pieces i with
  | Some p => Ok p
  | None => Undefined
  end.

Definition isspace (c : ascii) : bool :=
  let n := nat_of_ascii c in
  (Nat.eqb n 32 || (Nat.leb 9 n && Nat.leb n 13))%bool.

Definition digit_of (c : ascii) : option Z :=
  let n := Z.of_nat (nat_of_ascii c) in
  if ((48 <=? n) && (n <=? 57))%bool then Some (n - 48) else None.

Fixpoint skip_space (s : string) : string :=
  match s with
  | EmptyString => EmptyString
  | String c rest => if isspace c then skip_space rest else s
  end.

(** The digits of the longest prefix of [s] made of decimal digits. *)
Fixpoint digits_prefix (s : string) : list Z :=
  match s with
  | EmptyString => []
  | String c rest =>
      match digit_of c with
      | Some d => d :: digits_prefix rest
      | None => []
      end
  end.

Definition decimal_value (ds : list Z) : Z :=
  fold_left (fun acc d => 10 * acc + d) ds 0.

(** [std::stoi(s)]: leading white space is skipped, an optional sign and
    the longest run of decimal digits are read, the rest is ignored.
    Without a digit it throws [invalid_argument]; a value that does not fit
    an [int] throws [out_of_range]. *)
Definition stoi (s : string) : outcome Z :=
  let s1 := skip_space s in
  let '(negative, s2) :=
    match s1 with
    | String "-"%char rest => (true, rest)
    | String "+"%char rest => (false, rest)
    | _ => (false, s1)
    end in
  match digits_prefix s2 with
  | [] => Throw (invalid_argument "stoi")
  | ds =>
      let v := if negative then - decimal_value ds else decimal_value ds in
      if ((INT_MIN <=? v) && (v <=? INT_MAX))%bool then Ok v
      else Throw (out_of_range "stoi")
  end.

(** [std::to_string(int)] *)
Definition to_string (z : Z) : string := NilZero.string_of_int (Z.to_int z).

(* ================================================================== *)
(** ** extractRepeatLengths *)
(* ================================================================== *)

(** The files the program can read: a path is mapped to the lines that
    successive [getline] calls yield, or to [None] when the file cannot be
    opened. *)
Definition FileSystem : Type := string -> option (list string).

(** The three ways [extractRepeatLengths] fails, named as in the error
    taxonomy of the specification. *)
Definition IOError (vcfPath : string) : exception :=
  runtime_error ("Unable to open file " ++ vcfPath)%string.
Definition NotFound (repeatId : string) : exception :=
  runtime_error ("No VCF record for " ++ repeatId)%string.
Definition MissingGenotype (repeatId : string) : exception :=
  runtime_error
    ("Cannot create a plot because the genotype of " ++ repeatId ++ " is missing")%string.

(** The body of the [if (boost::find_first(line, query))] block. *)
Definition parseRecord (repeatId line : string) : outcome (list Z) :=
  let pieces := split tab line in
  let* sampleFields := at_index pieces (List.length pieces - 1)%nat in
  let pieces := split ":"%char sampleFields in
  let* genotypeEncoding := at_index pieces 2 in
  if String.eqb genotypeEncoding "./." then Throw (MissingGenotype repeatId)
  else mapM stoi (split "/"%char genotypeEncoding).

(** The [while (getline(vcfFile, line))] loop and what follows it. *)
Fixpoint scanLines (repeatId query : string) (lines : list string) : outcome (list Z) :=
  match lines with
  | [] => Throw (NotFound repeatId)
  | line :: rest =>
      if find_first line query then parseRecord repeatId line
      else scanLines repeatId query rest
  end.

Definition extractRepeatLengths (fs : FileSystem) (vcfPath repeatId : string)
  : outcome (list Z) :=
  match fs vcfPath with
  | Some lines =>
      let query := ("VARID=" ++ repeatId ++ ";")%string in
      scanLines repeatId query lines
  | None => Throw (IOError vcfPath)
  end.

(* ================================================================== *)
(** ** Graphs, paths and locus descriptions *)
(* ================================================================== *)

(** Modelled from the spec: [graphtools::Graph] is not part of the sources
    at hand.  The spec gives every node a sequence string and marks repeat
    nodes by a self-loop edge; the three accessors the code calls are kept
    under their names.  [numNodes] is a [size_t]. *)
Record Graph : Type := mkGraph {
  numNodes : Z;
  nodeSeq : NodeId -> string;
  hasEdge : NodeId -> NodeId -> bool
}.

(** A path keeps a pointer to its graph; every path built or printed here
    points to the region graph of the one locus at hand, so the graph is
    passed along explicitly and the record holds the three other fields. *)
Record Path : Type := mkPath {
  startPosition : Z;
  nodeIds : list NodeId;
  endPosition : Z
}.

Fixpoint connected (g : Graph) (ids : list NodeId) : bool :=
  match ids with
  | a :: (b :: _) as rest => (hasEdge g a b && connected g rest)%bool
  | _ => true
  end.

(** Modelled from the spec: the invariant of a Path (the constructor of
    [graphtools::Path] is not part of the sources at hand).  A path is a
    non-empty walk over nodes of the graph, consecutive node ids are
    connected by an edge, and the two offsets lie within the bounds of the
    sequence of the first and of the last node. *)
Definition Path_valid (g : Graph) (p : Path) : bool :=
  match nodeIds p with
  | [] => false
  | first :: _ =>
      (forallb (fun n => (0 <=? n) && (n <? numNodes g)) (nodeIds p)
       && connected g (nodeIds p)
       && (0 <=? startPosition p)
       && (startPosition p <=? Z.of_nat (String.length (nodeSeq g first)))
       && (0 <=? endPosition p)
       && (endPosition p
             <=? Z.of_nat (String.length (nodeSeq g (last (nodeIds p) first)))))%bool
  end.

(** [Path(&graph, start, nodes, end)]: a path that breaks the invariant is
    never built. *)
Definition newPath (g : Graph) (start : Z) (nodes : list NodeId) (stop : Z)
  : outcome Path :=
  let p := mkPath start nodes stop in
  if Path_valid g p then Ok p else ContractViolation.

(** [std::lexicographical_compare(a.begin(), a.end(), b.begin(), b.end())]
    with the comparison [lt]. *)
Fixpoint lexicographical_compare {A : Type} (lt : A -> A -> bool) (a b : list A) : bool :=
  match a, b with
  | _, [] => false
  | [], _ :: _ => true
  | x :: a', y :: b' =>
      if lt x y then true
      else if lt y x then false
      else lexicographical_compare lt a' b'
  end.

(** [a == b] on vectors. *)
Fixpoint vector_eqb {A : Type} (eqb : A -> A -> bool) (a b : list A) : bool :=
  match a, b with
  | [], [] => true
  | x :: a', y :: b' => (eqb x y && vector_eqb eqb a' b')%bool
  | _, _ => false
  end.

(** Modelled from the spec: [Path::operator<] (not part of the sources at
    hand) orders paths lexicographically over start offset, node-id
    sequence and end offset. *)
Definition Path_lt (p q : Path) : bool :=
  if startPosition p <? startPosition q then true
  else if startPosition q <? startPosition p then false
  else if lexicographical_compare Z.ltb (nodeIds p) (nodeIds q) then true
  else if lexicographical_compare Z.ltb (nodeIds q) (nodeIds p) then false
  else endPosition p <? endPosition q.

(** Modelled from the spec: [Path::operator==]; two paths (of one graph)
    are equal iff all their fields are equal. *)
Definition Path_eqb (p q : Path) : bool :=
  ((startPosition p =? startPosition q)
   && vector_eqb Z.eqb (nodeIds p) (nodeIds q)
   && (endPosition p =? endPosition q))%bool.

(** [using Diplotype = std::vector<graphtools::Path>] with the comparison
    operators of [std::vector]. *)
Definition Diplotype : Type := list Path.
Definition Diplotype_lt : Diplotype -> Diplotype -> bool := lexicographical_compare Path_lt.
Definition Diplotype_eqb : Diplotype -> Diplotype -> bool := vector_eqb Path_eqb.

Inductive VariantType : Type := kRepeat | kSmallVariant.

(** Modelled from the spec: the locus description (declared outside the
    sources at hand) is a sequence graph plus an ordered list of variant
    specifications, each tagged as repeat or small variant and carrying an
    identifier and its graph nodes. *)
Record VariantSpecification : Type := mkVariantSpecification {
  id : string;
  classification_type : VariantType;
  nodes : list NodeId
}.

Record LocusSpecification : Type := mkLocusSpecification {
  variantSpecs : list VariantSpecification;
  regionGraph : Graph
}.

(* ================================================================== *)
(** ** getGenotypeNodesByNodeRange *)
(* ================================================================== *)

(** [std::map<NodeRange, NodeVectors>]: entries in strictly increasing key
    order; [std::pair] compares lexicographically. *)
Definition NodeRangeMap : Type := list (NodeRange * NodeVectors).

Definition NodeRange_lt (a b : NodeRange) : bool :=
  if fst a <? fst b then true
  else if fst b <? fst a then false
  else snd a <? snd b.

(** [m.emplace(key, value)]: an entry whose key is present stays as it is. *)
Fixpoint map_emplace (key : NodeRange) (value : NodeVectors) (m : NodeRangeMap)
  : NodeRangeMap :=
  match m with
  | [] => [(key, value)]
  | (key', value') :: rest =>
      if NodeRange_lt key key' then (key, value) :: m
      else if NodeRange_lt key' key then (key', value') :: map_emplace key value rest
      else m
  end.

Definition UnsupportedVariantType : exception :=
  logic_error
    "REViewer does not accept locus definitions containing small variants (e.g. '(A|T)').".

(** The loop over [variantSpec.nodes()] that computes the node range. *)
Definition nodeRangeOf (variantNodes : list NodeId) : NodeRange :=
  fold_left
    (fun '(nodeRangeFrom, nodeRangeTo) node =>
       if node =? NodeId_minus_one then (nodeRangeFrom, nodeRangeTo)
       else (Z.min nodeRangeFrom node, Z.max nodeRangeTo node))
    variantNodes (NodeId_max, NodeId_lowest).

(** One iteration of the loop over the variant specifications. *)
Definition genotypeNodesOfVariant (fs : FileSystem) (meanFragLen : Z) (vcfPath : string)
    (variantSpec : VariantSpecification) (m : NodeRangeMap) : outcome NodeRangeMap :=
  match classification_type variantSpec with
  | kSmallVariant => Throw UnsupportedVariantType
  | kRepeat =>
      assert (Nat.eqb (List.length (nodes variantSpec)) 1)
        (let* repeatNode := at_index (nodes variantSpec) 0 in
         let* repeatLens := extractRepeatLengths fs vcfPath (id variantSpec) in
         let* genotypeNodes := genotypeNodesOf meanFragLen repeatNode repeatLens in
         let nodeRange := nodeRangeOf (nodes variantSpec) in
         assert (Nat.leb (List.length genotypeNodes) 2)
           (Ok (map_emplace nodeRange genotypeNodes m)))
  end.

Fixpoint genotypeNodesLoop (fs : FileSystem) (meanFragLen : Z) (vcfPath : string)
    (specs : list VariantSpecification) (m : NodeRangeMap) : outcome NodeRangeMap :=
  match specs with
  | [] => Ok m
  | variantSpec :: rest =>
      let* m' := genotypeNodesOfVariant fs meanFragLen vcfPath variantSpec m in
      genotypeNodesLoop fs meanFragLen vcfPath rest m'
  end.

Definition getGenotypeNodesByNodeRange (fs : FileSystem) (meanFragLen : Z)
    (vcfPath : string) (locusSpec : LocusSpecification) : outcome NodeRangeMap :=
  genotypeNodesLoop fs meanFragLen vcfPath (variantSpecs locusSpec) [].

(* ================================================================== *)
(** ** getVariantGenotypeNodes and extendDiplotype *)
(* ================================================================== *)

Fixpoint getVariantGenotypeNodes (nodeRangeToPaths : NodeRangeMap) (node : NodeId)
  : outcome (option (NodeVectors * NodeId)) :=
  match nodeRangeToPaths with
  | [] => Ok None
  | (nodeRange, paths) :: rest =>
      if ((fst nodeRange <=? node) && (node <=? snd nodeRange))%bool
      then assert (Nat.leb (List.length paths) 2) (Ok (Some (paths, snd nodeRange)))
      else getVariantGenotypeNodes rest node
  end.

(** The body of the loop of [extendDiplotype]: the children of one
    candidate.  Once the two assertions hold, [front()] and [back()] are
    the first and the last of one or two haplotypes. *)
Definition extendGenotype (genotype genotypeExtension : NodeVectors)
  : outcome (list NodeVectors) :=
  assert (Nat.eqb (List.length genotype) (List.length genotypeExtension))
    (if Nat.eqb (List.length genotype) 1
     then
       let* haplotypeExtension := at_index genotypeExtension 0 in
       let* front := at_index genotype 0 in
       let extendedHaplotype := front ++ haplotypeExtension in
       Ok [[extendedHaplotype]]
     else
       assert (Nat.eqb (List.length genotype) 2)
         (let* front := at_index genotype 0 in
          let* back := at_index genotype (List.length genotype - 1) in
          let* extFront := at_index genotypeExtension 0 in
          let* extBack := at_index genotypeExtension (List.length genotypeExtension - 1) in
          let hap1Ext1 := front ++ extFront in
          let hap2Ext2 := back ++ extBack in
          let hap1Ext2 := front ++ extBack in
          let hap2Ext1 := back ++ extFront in
          Ok [[hap1Ext1; hap2Ext2]; [hap1Ext2; hap2Ext1]])).

Fixpoint extendDiplotype (genotypes : list NodeVectors) (genotypeExtension : NodeVectors)
  : outcome (list NodeVectors) :=
  match genotypes with
  | [] => Ok []
  | genotype :: rest =>
      let* children := extendGenotype genotype genotypeExtension in
      let* extendedGenotype := extendDiplotype rest genotypeExtension in
      Ok (children ++ extendedGenotype)
  end.

(* ================================================================== *)
(** ** getCandidateDiplotypes *)
(* ================================================================== *)

(** The state of the walk: the current node and the candidates so far. *)
Definition WalkState : Type := (NodeId * list NodeVectors)%type.

(** One iteration of the [while] loop, [++node] included. *)
Definition walkStep (genotypeNodesByNodeRange : NodeRangeMap) (st : WalkState)
  : outcome WalkState :=
  let '(node, nodesByDiplotype) := st in
  let* variantPathNodesAndLastNode :=
    getVariantGenotypeNodes genotypeNodesByNodeRange node in
  match variantPathNodesAndLastNode with
  | Some (variantPathNodes, lastNode) =>
      let* extended := extendDiplotype nodesByDiplotype variantPathNodes in
      Ok (NodeId_incr lastNode, extended)
  | None =>
      Ok (NodeId_incr node,
          map (map (fun haplotypeNodes => haplotypeNodes ++ [node])) nodesByDiplotype)
  end.

(** [while (node != numNodes) { ... }] *)
Fixpoint walk (fuel : nat) (nNodes : Z) (genotypeNodesByNodeRange : NodeRangeMap)
    (st : WalkState) : outcome (list NodeVectors) :=
  match fuel with
  | O => OutOfFuel
  | S fuel' =>
      if fst st =? nNodes then Ok (snd st)
      else
        let* st' := walkStep genotypeNodesByNodeRange st in
        walk fuel' nNodes genotypeNodesByNodeRange st'
  end.

(** [std::iter_swap(diplotype.begin(), diplotype.end() - 1)] *)
Definition swap_front_back {A : Type} (l : list A) : list A :=
  match l with
  | [] => []
  | front :: rest =>
      match rest with
      | [] => [front]
      | _ => last rest front :: removelast rest ++ [front]
      end
  end.

(** The body of the loop that turns the node vectors of one candidate into
    a diplotype with a consistent haplotype order. *)
Definition makeDiplotype (g : Graph) (rightFlankLength : Z) (diplotypeNodes : NodeVectors)
  : outcome Diplotype :=
  let* diplotype :=
    mapM (fun haplotypeNodes => newPath g 0 haplotypeNodes rightFlankLength)
         diplotypeNodes in
  match diplotype with
  | [] => Undefined
  | front :: _ =>
      if Path_lt front (last diplotype front)
      then Ok (swap_front_back diplotype)
      else Ok diplotype
  end.

(** [std::unique]: of every run of equal neighbours the first is kept. *)
Fixpoint unique_from {A : Type} (eqb : A -> A -> bool) (previous : A) (l : list A) : list A :=
  match l with
  | [] => []
  | x :: rest =>
      if eqb previous x then unique_from eqb previous rest
      else x :: unique_from eqb x rest
  end.

Definition unique {A : Type} (eqb : A -> A -> bool) (l : list A) : list A :=
  match l with
  | [] => []
  | x :: rest => x :: unique_from eqb x rest
  end.

(** What [std::sort] promises for the comparison [lt]: the result is a
    rearrangement of the input in which no element is less than an earlier
    one.  Which algorithm is run is left to the library. *)
Definition sorts {A : Type} (lt : A -> A -> bool) (sort : list A -> list A) : Prop :=
  forall l, Permutation l (sort l)
            /\ StronglySorted (fun a b => lt b a = false) (sort l).

Fixpoint insert_sorted {A : Type} (lt : A -> A -> bool) (x : A) (l : list A) : list A :=
  match l with
  | [] => [x]
  | y :: rest => if lt x y then x :: l else y :: insert_sorted lt x rest
  end.

(** One sorting algorithm, used when a run has to be evaluated. *)
Definition insertion_sort {A : Type} (lt : A -> A -> bool) (l : list A) : list A :=
  fold_right (insert_sorted lt) [] l.

(** Iterations the walk needs when every step advances the node by one:
    from node 1 up to [numNodes], modulo the width of a [NodeId]. *)
Definition walkFuel (nNodes : Z) : nat := S (Z.to_nat ((nNodes - 1) mod NodeId_modulus)).

Definition getCandidateDiplotypesWith (sort : list Diplotype -> list Diplotype)
    (fs : FileSystem) (meanFragLen : Z) (vcfPath : string)
    (locusSpec : LocusSpecification) : outcome (list Diplotype) :=
  let* genotypeNodesByNodeRange :=
    getGenotypeNodesByNodeRange fs meanFragLen vcfPath locusSpec in
  (* genotypeNodesByNodeRange.begin()->second.size() *)
  match genotypeNodesByNodeRange with
  | [] => Undefined
  | (_, firstAlleles) :: _ =>
      let numAlleles := List.length firstAlleles in
      let g := regionGraph locusSpec in
      let nodesByDiplotype := [repeat [0] numAlleles] in
      let* nodesByDiplotype :=
        walk (walkFuel (numNodes g)) (numNodes g) genotypeNodesByNodeRange
             (1, nodesByDiplotype) in
      let rightFlankNode := (numNodes g - 1) mod NodeId_modulus in
      let rightFlankLength := to_int (Z.of_nat (String.length (nodeSeq g rightFlankNode))) in
      let* diplotypes := mapM (makeDiplotype g rightFlankLength) nodesByDiplotype in
      Ok (unique Diplotype_eqb (sort diplotypes))
  end.

Definition getCandidateDiplotypes
  : FileSystem -> Z -> string -> LocusSpecification -> outcome (list Diplotype) :=
  getCandidateDiplotypesWith (insertion_sort Diplotype_lt).

(* ================================================================== *)
(** ** summarizePath and the printing of a diplotype *)
(* ================================================================== *)

(** The text appended for a node seen for the first time. *)
Definition summarizeNode (g : Graph) (path : Path) (nodeId : NodeId) : outcome string :=
  let isLoopNode := hasEdge g nodeId nodeId in
  if nodeId =? 0 then Ok "(LF)"
  else if NodeId_incr nodeId =? numNodes g then Ok "(RF)"
  else
    assert (negb (numNodes g =? 0))
      (let nodeSeq := nodeSeq g nodeId in
       let text := ("(" ++ nodeSeq ++ ")")%string in
       if isLoopNode
       then
         let numMotifs := to_int (Z.of_nat (count_occ Z.eq_dec (nodeIds path) nodeId)) in
         Ok (text ++ "{" ++ to_string numMotifs ++ "}")%string
       else Ok text).

(** The loop of [summarizePath] over the node ids still to be read, with
    the set of observed nodes and the summary so far. *)
Fixpoint summarizeLoop (g : Graph) (path : Path) (remaining : list NodeId)
    (observedNodes : list NodeId) (summary : string) : outcome string :=
  match remaining with
  | [] => Ok summary
  | nodeId :: rest =>
      if existsb (Z.eqb nodeId) observedNodes
      then summarizeLoop g path rest observedNodes summary
      else
        let* text := summarizeNode g path nodeId in
        summarizeLoop g path rest (nodeId :: observedNodes) (summary ++ text)%string
  end.

Definition summarizePath (g : Graph) (path : Path) : outcome string :=
  summarizeLoop g path (nodeIds path) [] "".

(** [operator<<(std::ostream&, const Diplotype&)]: the text written to the
    stream. *)
Definition printDiplotype (g : Graph) (diplotype : Diplotype) : outcome string :=
  match diplotype with
  | [] => Undefined
  | front :: _ =>
      let* first := summarizePath g front in
      if Nat.eqb (List.length diplotype) 2
      then
        let* second := summarizePath g (last diplotype front) in
        Ok (first ++ "/" ++ second)%string
      else Ok first
  end.

(* ================================================================== *)
(** ** The k-mer index: counts of k-mers overlapping an edge or a node *)
(* ================================================================== *)

Module KmerIndex.
Import stdpp.base stdpp.gmap stdpp.strings.
Local Open Scope Z_scope.

(** Modelled from the spec: the implementation of [graphtools::KmerIndex]
    is not part of the sources at hand (only its tests are).  An index maps
    each k-mer string to the list of the minimal paths that spell it; the
    tests build one from such a map ([StringToPathsMap]) as well as from a
    graph and a k-mer length.  The counting queries depend on the map
    alone. *)
Abbreviation StringToPathsMap := (gmap string (list Path)).

(** The path traverses the directed edge from [u] to [v]: the two ids are
    neighbours, in this order, in its node-id sequence. *)
Fixpoint traversesEdge (u v : NodeId) (ids : list NodeId) : bool :=
  match ids with
  | a :: (b :: _) as rest => (Z.eqb a u && Z.eqb b v) || traversesEdge u v rest
  | _ => false
  end.

(** The path visits node [n]. *)
Definition visitsNode (n : NodeId) (ids : list NodeId) : bool :=
  existsb (Z.eqb n) ids.

(** Modelled from the spec: the number of distinct k-mer strings some
    minimal occurrence path of which traverses the edge from [u] to [v]. *)
Definition uniqueKmersOverlappingEdge (index : StringToPathsMap) (u v : NodeId) : nat :=
  size (filter (fun entry => existsb (fun p => traversesEdge u v (nodeIds p)) entry.2 = true)
               index).

(** Modelled from the spec: the number of distinct k-mer strings some
    minimal occurrence path of which visits node [n]. *)
Definition uniqueKmersOverlappingNode (index : StringToPathsMap) (n : NodeId) : nat :=
  size (filter (fun entry => existsb (fun p => visitsNode n (nodeIds p)) entry.2 = true)
               index).

(** The two queries as the test [UniqueKmerCounting] calls them.  Its
    expected values come out when a k-mer is counted only if it is unique,
    that is if the index holds exactly one path for it (see
    [deletionGraphIndex] below); the counts above, taken over all k-mers,
    give other values there. *)
Definition numUniqueKmersOverlappingEdge (index : StringToPathsMap) (u v : NodeId) : nat :=
  size (filter (fun entry =>
                  (Nat.eqb (List.length entry.2) 1%nat
                   && existsb (fun p => traversesEdge u v (nodeIds p)) entry.2) = true)
               index).

Definition numUniqueKmersOverlappingNode (index : StringToPathsMap) (n : NodeId) : nat :=
  size (filter (fun entry =>
                  (Nat.eqb (List.length entry.2) 1%nat
                   && existsb (fun p => visitsNode n (nodeIds p)) entry.2) = true)
               index).

(** The 3-mers of the deletion graph of the test (node 0 = AC, node 1 = GG,
    node 2 = ACG; edges from 0 to 1, from 0 to 2 and from 1 to 2), each with
    its minimal paths written as in the tests: start offset, node ids, end
    offset. *)
Definition deletionGraphIndex : StringToPathsMap :=
  list_to_map
    [ ("ACG"%string, [mkPath 0 [0; 1] 1; mkPath 0 [2] 3]);
      ("ACA"%string, [mkPath 0 [0; 2] 1]);
      ("CGG"%string, [mkPath 1 [0; 1] 2]);
      ("CAC"%string, [mkPath 1 [0; 2] 2]);
      ("GGA"%string, [mkPath 0 [1; 2] 1]);
      ("GAC"%string, [mkPath 1 [1; 2] 2]) ].

End KmerIndex.

(* ================================================================== *)
(** ** The call source, in the words of the specification *)
(* ================================================================== *)

(** The text that identifies the record of a variant. *)
Definition recordQuery (repeatId : string) : string :=
  ("VARID=" ++ repeatId ++ ";")%string.

(** The matching record of a variant: the first line that carries its
    identifier. *)
Definition matchingRecord (repeatId : string) (lines : list string) : option string :=
  find (fun line => find_first line (recordQuery repeatId)) lines.

(** The genotype field of a record: the third colon-delimited field of its
    last tab-separated column, if there is one. *)
Definition genotypeField (record : string) : option string :=
  nth_error (split ":"%char (last (split tab record) EmptyString)) 2.

Definition is_digit (c : ascii) : bool :=
  match digit_of c with Some _ => true | None => false end.

(** A non-negative integer that fits an [int], in decimal notation. *)
Definition isCount (s : string) : bool :=
  (negb (String.eqb s EmptyString)
   && forallb is_digit (list_ascii_of_string s)
   && (decimal_value (digits_prefix s) <=? INT_MAX))%bool.

(** A genotype encoding of the form [a] or [a/b]. *)
Definition isGenotype (genotype : string) : bool :=
  match split "/"%char genotype with
  | [a] => isCount a
  | [a; b] => (isCount a && isCount b)%bool
  | _ => false
  end.

(* ================================================================== *)
(** ** The path summary, in the words of the specification *)
(* ================================================================== *)

(** The distinct node ids of a path in the order of their first visit. *)
Fixpoint firstVisits (ids : list NodeId) : list NodeId :=
  match ids with
  | [] => []
  | n :: rest => n :: filter (fun m => negb (m =? n)) (firstVisits rest)
  end.

(** How one node is rendered: node 0 as the left-flank marker, the last
    node of the graph as the right-flank marker, any other node as its
    sequence in parentheses, followed for a self-loop node by the number of
    visits of that node over the whole path, in braces. *)
Definition renderNode (g : Graph) (path : Path) (n : NodeId) : string :=
  if n =? 0 then "(LF)"
  else if n =? numNodes g - 1 then "(RF)"
  else if hasEdge g n n
       then (("(" ++ nodeSeq g n ++ ")")
             ++ "{" ++ to_string (Z.of_nat (count_occ Z.eq_dec (nodeIds path) n)) ++ "}")%string
       else ("(" ++ nodeSeq g n ++ ")")%string.

Definition concatStrings (pieces : list string) : string :=
  fold_right String.append EmptyString pieces.

(* ================================================================== *)
(** ** Notions used in the statements *)
(* ================================================================== *)

(** A boolean comparison that is a strict total order. *)
Record strict_total {A : Type} (lt : A -> A -> bool) : Prop := mk_strict_total {
  st_irrefl : forall x, lt x x = false;
  st_trans : forall x y z, lt x y = true -> lt y z = true -> lt x z = true;
  st_total : forall x y, lt x y = false -> lt y x = false -> x = y
}.

(** The lexicographic product of two comparisons. *)
Definition lex_pair {A B : Type} (ltA : A -> A -> bool) (ltB : B -> B -> bool)
    (x y : A * B) : bool :=
  if ltA (fst x) (fst y) then true
  else if ltA (fst y) (fst x) then false
  else ltB (snd x) (snd y).

(** The fields a path is compared on. *)
Definition Path_key (p : Path) : Z * (list NodeId * Z) :=
  (startPosition p, (nodeIds p, endPosition p)).

(** A second sorting algorithm: the items are inserted in the opposite
    order. *)
Definition insertion_sort_backwards {A : Type} (lt : A -> A -> bool) (l : list A) : list A :=
  insertion_sort lt (rev l).

(** A candidate with two haplotypes, and one with a single haplotype, as
    the vectors the enumerator keeps. *)
Definition pairOf (haplotypes : Nodes * Nodes) : NodeVectors :=
  [fst haplotypes; snd haplotypes].
Definition singleOf (haplotype : Nodes) : NodeVectors := [haplotype].

(** The two children of a two-haplotype candidate: both phase assignments
    of the two alleles. *)
Definition bothPhases (allele1 allele2 : NodeVector) (haplotypes : Nodes * Nodes)
  : list NodeVectors :=
  [ [fst haplotypes ++ allele1; snd haplotypes ++ allele2];
    [fst haplotypes ++ allele2; snd haplotypes ++ allele1] ].

(** The states the [while] loop of [getCandidateDiplotypes] goes through
    from a given state: the loop takes a step as long as the current node
    differs from the number of nodes. *)
Inductive walkReaches (nNodes : Z) (genotypeNodesByNodeRange : NodeRangeMap)
  : WalkState -> WalkState -> Prop :=
| walkReaches_here : forall st, walkReaches nNodes genotypeNodesByNodeRange st st
| walkReaches_step : forall st st' st'',
    walkReaches nNodes genotypeNodesByNodeRange st st' ->
    fst st' <> nNodes ->
    walkStep genotypeNodesByNodeRange st' = Ok st'' ->
    walkReaches nNodes genotypeNodesByNodeRange st st''.

(** Every region of the map is a single node, or is empty (the range that
    is left when the node of a variant is the marker of an absent node). *)
Definition singleNodeRegions (m : NodeRangeMap) : Prop :=
  Forall (fun entry : NodeRange * NodeVectors =>
            fst (fst entry) = snd (fst entry) \/ snd (fst entry) < fst (fst entry))
         m.

(** The node ids of the variants are values of the type [NodeId]. *)
Definition variantNodesInRange (locusSpec : LocusSpecification) : Prop :=
  Forall (fun variantSpec =>
            Forall (fun n => 0 <= n < NodeId_modulus) (nodes variantSpec))
         (variantSpecs locusSpec).

(** The variant is tagged as a small variant. *)
Definition isSmallVariant (variantSpec : VariantSpecification) : Prop :=
  classification_type variantSpec = kSmallVariant.

(* ================================================================== *)
(** ** The worked example of the specification *)
(* ================================================================== *)

(** The graph of a locus with one repeat: node 0 is the left flank, node 1
    the repeat unit CAG with its self-loop, node 2 the right flank. *)
Definition exampleGraph : Graph :=
  mkGraph 3
    (fun n => if n =? 0 then "ATTCGA"
              else if n =? 1 then "CAG"
              else if n =? 2 then "TCGGAT"
              else "")
    (fun a b =>
       existsb (fun '(x, y) => (a =? x) && (b =? y))%bool
               [(0, 1); (0, 2); (1, 1); (1, 2)]).

Definition exampleLocus : LocusSpecification :=
  mkLocusSpecification [mkVariantSpecification "ATXN1" kRepeat [1]] exampleGraph.

Definition tabbed (columns : list string) : string :=
  String.concat (String tab EmptyString) columns.

(** A call file in which the repeat is genotyped 3/4. *)
Definition exampleRecord : string :=
  tabbed ["chr6"; "16327864"; "."; "C"; "<STR3>,<STR4>"; "."; "PASS";
          "END=16327954;REF=30;RL=90;RU=CAG;VARID=ATXN1;REPID=ATXN1";
          "GT:SO:REPCN:REPCI:ADSP:ADFL:ADIR:LC";
          "1/2:SPANNING/SPANNING:3/4:3-3/4-4:10/12:5/6:0/0:30.5"].

Definition exampleFiles : FileSystem :=
  fun path =>
    if String.eqb path "sample.vcf"
    then Some ["##fileformat=VCFv4.1"; exampleRecord]
    else None.

(** A locus whose first variant is a repeat without a record in the example
    call file and whose second variant is a small variant. *)
Definition mixedLocus : LocusSpecification :=
  mkLocusSpecification
    [mkVariantSpecification "HTT" kRepeat [1];
     mkVariantSpecification "SNV" kSmallVariant [2; 3]]
    exampleGraph.

(** A locus whose first variant is the repeat of the example call file and
    whose second variant is a small variant. *)
Definition rejectedLocus : LocusSpecification :=
  mkLocusSpecification
    [mkVariantSpecification "ATXN1" kRepeat [1];
     mkVariantSpecification "SNV" kSmallVariant [2; 3]]
    exampleGraph.

(** A record of a call file for a repeat, with the given genotype field. *)
Definition recordWith (repeatId genotype : string) : string :=
  tabbed ["chr6"; "16327864"; "."; "C"; "<STR3>"; "."; "PASS";
          ("END=16327954;REF=30;RL=90;RU=CAG;VARID=" ++ repeatId ++ ";REPID=" ++ repeatId)%string;
          "GT:SO:REPCN";
          ("1/2:SPANNING/SPANNING:" ++ genotype)%string].

(** A call file whose genotype fields are not of the form a or a/b with
    non-negative integers: three lengths, and a negative length. *)
Definition uncheckedFiles : FileSystem :=
  fun path =>
    if String.eqb path "unchecked.vcf"
    then Some [recordWith "THREE" "1/2/3"; recordWith "NEG" "-7"]
    else None.

(* ================================================================== *)
(** ** Notions used in the further properties *)
(* ================================================================== *)

(** The node lies in the inclusive range. *)
Definition inRange (nodeRange : NodeRange) (node : NodeId) : bool :=
  ((fst nodeRange <=? node) && (node <=? snd nodeRange))%bool.

(** The keys of the map come in strictly increasing order. *)
Definition keysIncreasing (m : NodeRangeMap) : Prop :=
  StronglySorted (fun a b => NodeRange_lt (fst a) (fst b) = true) m.

(** The candidate has as many haplotypes as the extension has alleles, and
    that number is one or two. *)
Definition extensible (genotypeExtension genotype : NodeVectors) : Prop :=
  List.length genotype = List.length genotypeExtension
  /\ (List.length genotype = 1%nat \/ List.length genotype = 2%nat).

(** An entry of the map and the variant it comes from. *)
Definition entryOfVariant (fs : FileSystem) (meanFragLen : Z) (vcfPath : string)
    (variantSpec : VariantSpecification) (entry : NodeRange * NodeVectors) : Prop :=
  exists repeatNode repeatLens,
    classification_type variantSpec = kRepeat
    /\ nodes variantSpec = [repeatNode]
    /\ extractRepeatLengths fs vcfPath (id variantSpec) = Ok repeatLens
    /\ genotypeNodesOf meanFragLen repeatNode repeatLens = Ok (snd entry)
    /\ (List.length (snd entry) <= 2)%nat
    /\ fst entry = nodeRangeOf [repeatNode].

(** Two records, for two variants, in one call file; and a locus that
    lists two variants on the same node. *)
Definition twoRecordFiles : FileSystem :=
  fun path =>
    if String.eqb path "two.vcf"
    then Some [tabbed ["chr1"; "VARID=A;"; "GT:SO:REPCN"; "0/1:S/S:3/4"];
               tabbed ["chr1"; "VARID=B;"; "GT:SO:REPCN"; "1/1:S/S:5/6"]]
    else None.

Definition sharedNodeLocus : LocusSpecification :=
  mkLocusSpecification
    [mkVariantSpecification "A" kRepeat [1]; mkVariantSpecification "B" kRepeat [1]]
    exampleGraph.

(** Every region of the map is empty, or is a single node all alleles of
    which are copies of that node. *)
Definition repeatRegions (m : NodeRangeMap) : Prop :=
  Forall (fun entry : NodeRange * NodeVectors =>
            snd (fst entry) < fst (fst entry)
            \/ (fst (fst entry) = snd (fst entry)
                /\ Forall (fun allele =>
                             exists count, allele = repeat (fst (fst entry)) count)
                          (snd entry)))
         m.

(** No region of the map contains the node. *)
Definition outsideRegions (m : NodeRangeMap) (node : NodeId) : Prop :=
  Forall (fun entry : NodeRange * NodeVectors => inRange (fst entry) node = false) m.

(** What the walk keeps true of a haplotype when it stands at [node]: the
    haplotype starts at node 0, its node ids never decrease and lie below
    [node], and every node below [node] that is outside the regions occurs
    exactly once. *)
Definition haplotypeUpTo (m : NodeRangeMap) (node : NodeId) (haplotype : Nodes) : Prop :=
  (exists rest, haplotype = 0 :: rest)
  /\ StronglySorted Z.le haplotype
  /\ Forall (fun n => 0 <= n < node) haplotype
  /\ (forall n, 0 <= n < node -> outsideRegions m n ->
                count_occ Z.eq_dec haplotype n = 1%nat).

(** The number of regions of the map that start at [node] or later. *)
Definition regionsFrom (m : NodeRangeMap) (node : NodeId) : nat :=
  List.length (filter (fun entry : NodeRange * NodeVectors => node <=? fst (fst entry)) m).

(** The children of one candidate, when it can be extended. *)
Definition childrenOf (genotypeExtension genotype : NodeVectors) : list NodeVectors :=
  match genotype, genotypeExtension with
  | [haplotype], [allele] => [[haplotype ++ allele]]
  | [haplotype1; haplotype2], [allele1; allele2] =>
      [ [haplotype1 ++ allele1; haplotype2 ++ allele2];
        [haplotype1 ++ allele2; haplotype2 ++ allele1] ]
  | _, _ => []
  end.

(** Two maps with the same regions, in the same order, whose alleles are
    the same up to the order in which they are listed. *)
Definition sameAllelesUpToOrder (m m' : NodeRangeMap) : Prop :=
  Forall2 (fun entry entry' : NodeRange * NodeVectors =>
             fst entry = fst entry' /\ Permutation (snd entry) (snd entry'))
          m m'.

(** The example call file with the two alleles listed in the other order. *)
Definition swappedRecord : string :=
  tabbed ["chr6"; "16327864"; "."; "C"; "<STR4>,<STR3>"; "."; "PASS";
          "END=16327954;REF=30;RL=90;RU=CAG;VARID=ATXN1;REPID=ATXN1";
          "GT:SO:REPCN:REPCI:ADSP:ADFL:ADIR:LC";
          "2/1:SPANNING/SPANNING:4/3:4-4/3-3:12/10:6/5:0/0:30.5"].

Definition swappedFiles : FileSystem :=
  fun path =>
    if String.eqb path "swapped.vcf"
    then Some ["##fileformat=VCFv4.1"; swappedRecord]
    else None.

(** A node on which the assertion of [summarizePath] fails: the graph has
    no node, and the node is neither node 0 nor the one before node 0. *)
Definition unsummarizable (g : Graph) (n : NodeId) : Prop :=
  numNodes g = 0 /\ n <> 0 /\ NodeId_incr n <> 0.

(* ================================================================== *)
(** * Properties *)
(* ================================================================== *)

(** ** Outcomes *)

Lemma bind_Ok_inv {A B : Type} (m : outcome A) (k : A -> outcome B) (b : B) :
  bind m k = Ok b -> exists a, m = Ok a /\ k a = Ok b.
Proof. destruct m; simpl; try discriminate. intros H. now exists a. Qed.

Lemma assert_Ok_inv {A : Type} (c : bool) (k : outcome A) (a : A) :
  assert c k = Ok a -> c = true /\ k = Ok a.
Proof. destruct c; simpl; [auto | discriminate]. Qed.

Lemma mapM_Ok_inv {A B : Type} (f : A -> outcome B) (l : list A) (r : list B) :
  mapM f l = Ok r -> Forall2 (fun x y => f x = Ok y) l r.
Proof.
  revert r. induction l as [|x xs IH]; simpl; intros r H.
  - injection H as <-. constructor.
  - apply bind_Ok_inv in H as (y & Hy & H).
    apply bind_Ok_inv in H as (ys & Hys & H).
    injection H as <-. constructor; auto.
Qed.

Ltac inv_ok H :=
  repeat first
    [ let a := fresh "a" in let Ha := fresh "Ha" in
      apply bind_Ok_inv in H as (a & Ha & H)
    | let Hc := fresh "Hc" in apply assert_Ok_inv in H as (Hc & H) ].

(** ** C3: capping of repeat lengths *)

Lemma NodeVector_fill_nonneg (count : Z) (value : NodeId) :
  0 <= count -> NodeVector_fill count value = Ok (repeat value (Z.to_nat count)).
Proof.
  intros H. unfold NodeVector_fill.
  destruct (count <? 0) eqn:E; [apply Z.ltb_lt in E; lia | reflexivity].
Qed.

Lemma capLengths_spec (upperBound : Z) (lengths : list Z) :
  Forall2 (fun len capped =>
             (upperBound < len -> capped = upperBound)
             /\ (len <= upperBound -> capped = len))
          lengths (capLengths upperBound lengths).
Proof.
  induction lengths as [|len rest IH]; simpl; constructor; auto.
  destruct (len <=? upperBound) eqn:E;
    [apply Z.leb_le in E | apply Z.leb_gt in E]; split; intros; lia.
Qed.

(** A negative count reaches the vector constructor as a huge size: no node
    vector is built. *)
Lemma negative_length_throws (bound : Z) (repeatNode : NodeId) (len : Z) :
  len < 0 -> len <= bound ->
  exists e, genotypeNodesOf bound repeatNode [len] = Throw e.
Proof.
  intros Hneg Hle. unfold genotypeNodesOf, capLengths. cbn [map mapM].
  destruct (len <=? bound) eqn:E; [|apply Z.leb_gt in E; lia].
  unfold NodeVector_fill.
  destruct (len <? 0) eqn:E'; [|apply Z.ltb_ge in E'; lia].
  eexists. reflexivity.
Qed.

(** C3.  A repeat length strictly greater than the fragment-length bound is
    capped to the bound and a length of at most the bound is left as it is.
    With a non-negative bound and non-negative lengths, the node vectors
    built for the alleles of a repeat variant are as follows: a length
    strictly greater than the bound gives exactly [bound] copies of the
    repeat node, and a length of at most the bound gives exactly [length]
    copies. *)
Theorem capped_allele_node_vectors
    (bound : Z) (repeatNode : NodeId) (repeatLens : list Z) :
  0 <= bound ->
  Forall (fun len => 0 <= len) repeatLens ->
  Forall2 (fun len capped =>
             (bound < len -> capped = bound) /\ (len <= bound -> capped = len))
          repeatLens (capLengths bound repeatLens)
  /\ exists genotypeNodes,
       genotypeNodesOf bound repeatNode repeatLens = Ok genotypeNodes
       /\ Forall2 (fun len nodeVector =>
                     (bound < len ->
                      nodeVector = repeat repeatNode (Z.to_nat bound))
                     /\ (len <= bound ->
                         nodeVector = repeat repeatNode (Z.to_nat len)))
                  repeatLens genotypeNodes.
Proof.
  intros Hb Hl. split; [apply capLengths_spec|]. unfold genotypeNodesOf.
  induction Hl as [|len rest Hlen _ IH]; simpl.
  - exists []. split; [reflexivity | constructor].
  - destruct IH as (vs & Hvs & Hall).
    destruct (len <=? bound) eqn:E;
      [apply Z.leb_le in E | apply Z.leb_gt in E];
      rewrite NodeVector_fill_nonneg by lia; rewrite Hvs; simpl;
      eexists; (split; [reflexivity|]); constructor; auto; split; intros; solve [lia | reflexivity].
Qed.

Lemma capped_allele_node_vectors_witness :
  Forall2 (fun len capped => (3 < len -> capped = 3) /\ (len <= 3 -> capped = len))
          [2; 7] (capLengths 3 [2; 7])
  /\ exists genotypeNodes,
       genotypeNodesOf 3 1 [2; 7] = Ok genotypeNodes
       /\ Forall2 (fun len nodeVector =>
                     (3 < len -> nodeVector = repeat 1 (Z.to_nat 3))
                     /\ (len <= 3 -> nodeVector = repeat 1 (Z.to_nat len)))
                  [2; 7] genotypeNodes.
Proof.
  apply (capped_allele_node_vectors 3 1 [2; 7]).
  - lia.
  - repeat constructor; lia.
Defined.

(** ** C1: branching at a variant region *)

Lemma extendDiplotype_two_alleles
    (candidates : list (Nodes * Nodes)) (allele1 allele2 : NodeVector) :
  extendDiplotype (map pairOf candidates) [allele1; allele2]
  = Ok (flat_map (bothPhases allele1 allele2) candidates).
Proof.
  induction candidates as [|[hap1 hap2] rest IH]; simpl; [reflexivity|].
  now rewrite IH.
Qed.

Lemma extendDiplotype_one_allele (candidates : list Nodes) (allele : NodeVector) :
  extendDiplotype (map singleOf candidates) [allele]
  = Ok (map (fun haplotype => [haplotype ++ allele]) candidates).
Proof.
  induction candidates as [|hap rest IH]; simpl; [reflexivity|].
  now rewrite IH.
Qed.

(** C1.  When the current node of the walk lies in a variant region, every
    candidate is extended as follows.  If the region has two alleles, each
    two-haplotype candidate yields exactly two children, in this order:
    allele 1 appended to haplotype 1 and allele 2 to haplotype 2, then
    allele 2 appended to haplotype 1 and allele 1 to haplotype 2.  If the
    region has a single allele, each one-haplotype candidate yields exactly
    one child, the haplotype with the allele appended.  The walk resumes
    after the last node of the region. *)
Theorem variant_region_branching
    (genotypeNodesByNodeRange : NodeRangeMap) (node lastNode : NodeId)
    (alleles : NodeVectors) :
  getVariantGenotypeNodes genotypeNodesByNodeRange node = Ok (Some (alleles, lastNode)) ->
  (forall allele1 allele2 (candidates : list (Nodes * Nodes)),
      alleles = [allele1; allele2] ->
      extendDiplotype (map pairOf candidates) alleles
      = Ok (flat_map (bothPhases allele1 allele2) candidates)
      /\ walkStep genotypeNodesByNodeRange (node, map pairOf candidates)
         = Ok (NodeId_incr lastNode, flat_map (bothPhases allele1 allele2) candidates))
  /\ (forall allele (candidates : list Nodes),
         alleles = [allele] ->
         extendDiplotype (map singleOf candidates) alleles
         = Ok (map (fun haplotype => [haplotype ++ allele]) candidates)
         /\ walkStep genotypeNodesByNodeRange (node, map singleOf candidates)
            = Ok (NodeId_incr lastNode,
                  map (fun haplotype => [haplotype ++ allele]) candidates)).
Proof.
  intros Hregion. split.
  - intros allele1 allele2 candidates ->.
    split; [apply extendDiplotype_two_alleles|].
    unfold walkStep. rewrite Hregion. simpl bind.
    now rewrite extendDiplotype_two_alleles.
  - intros allele candidates ->.
    split; [apply extendDiplotype_one_allele|].
    unfold walkStep. rewrite Hregion. simpl bind.
    now rewrite extendDiplotype_one_allele.
Qed.

Lemma variant_region_branching_witness :
  walkStep [((1, 1), [[1; 1; 1]; [1; 1; 1; 1]])] (1, map pairOf [([0], [0])])
  = Ok (NodeId_incr 1, flat_map (bothPhases [1; 1; 1] [1; 1; 1; 1]) [([0], [0])]).
Proof.
  apply (variant_region_branching
           [((1, 1), [[1; 1; 1]; [1; 1; 1; 1]])] 1 1 [[1; 1; 1]; [1; 1; 1; 1]]).
  - reflexivity.
  - reflexivity.
Defined.

(** ** Orders on paths and diplotypes *)

Lemma st_asym {A : Type} (lt : A -> A -> bool) :
  strict_total lt -> forall x y, lt x y = true -> lt y x = false.
Proof.
  intros H x y Hxy. destruct (lt y x) eqn:E; [|reflexivity].
  rewrite <- (st_irrefl lt H x). symmetry. now apply (st_trans lt H x y x).
Qed.

Lemma Zltb_strict_total : strict_total Z.ltb.
Proof.
  constructor.
  - intros x. apply Z.ltb_irrefl.
  - intros x y z H1 H2. apply Z.ltb_lt in H1, H2. apply Z.ltb_lt. lia.
  - intros x y H1 H2. apply Z.ltb_ge in H1, H2. lia.
Qed.

Section LexicographicOrders.
Context {A B : Type} (ltA : A -> A -> bool) (ltB : B -> B -> bool).
Hypothesis HA : strict_total ltA.
Hypothesis HB : strict_total ltB.

Lemma lex_pair_strict_total : strict_total (lex_pair ltA ltB).
Proof.
  constructor.
  - intros [a b]. unfold lex_pair; simpl.
    rewrite (st_irrefl ltA HA). apply (st_irrefl ltB HB).
  - intros [a1 b1] [a2 b2] [a3 b3]. unfold lex_pair; simpl.
    destruct (ltA a1 a2) eqn:E12.
    + intros _. destruct (ltA a2 a3) eqn:E23.
      * intros _. now rewrite (st_trans ltA HA _ _ _ E12 E23).
      * destruct (ltA a3 a2) eqn:E32; [discriminate|].
        rewrite <- (st_total ltA HA _ _ E23 E32). now rewrite E12.
    + destruct (ltA a2 a1) eqn:E21; [discriminate|].
      rewrite <- (st_total ltA HA _ _ E12 E21).
      intros H12. destruct (ltA a1 a3); [reflexivity|].
      destruct (ltA a3 a1); [discriminate|].
      intros H23. apply (st_trans ltB HB _ _ _ H12 H23).
  - intros [a1 b1] [a2 b2]. unfold lex_pair; simpl.
    destruct (ltA a1 a2) eqn:E12; [discriminate|].
    destruct (ltA a2 a1) eqn:E21; [discriminate|].
    intros H1 H2. f_equal.
    + apply (st_total ltA HA _ _ E12 E21).
    + apply (st_total ltB HB _ _ H1 H2).
Qed.

Lemma lexicographical_compare_strict_total :
  strict_total (lexicographical_compare ltA).
Proof.
  constructor.
  - intros x. induction x as [|a x IH]; simpl; [reflexivity|].
    now rewrite (st_irrefl ltA HA).
  - intros x. induction x as [|a x IH]; intros [|b y] [|c z]; simpl;
      try discriminate; try reflexivity.
    destruct (ltA a b) eqn:Eab.
    + intros _. destruct (ltA b c) eqn:Ebc.
      * intros _. now rewrite (st_trans ltA HA _ _ _ Eab Ebc).
      * destruct (ltA c b) eqn:Ecb; [discriminate|].
        rewrite <- (st_total ltA HA _ _ Ebc Ecb). now rewrite Eab.
    + destruct (ltA b a) eqn:Eba; [discriminate|].
      rewrite <- (st_total ltA HA _ _ Eab Eba).
      intros Hxy. destruct (ltA a c); [reflexivity|].
      destruct (ltA c a); [discriminate|].
      intros Hyz. apply (IH _ _ Hxy Hyz).
  - intros x. induction x as [|a x IH]; intros [|b y]; simpl;
      try discriminate; try reflexivity.
    destruct (ltA a b) eqn:Eab; [discriminate|].
    destruct (ltA b a) eqn:Eba; [discriminate|].
    intros H1 H2. f_equal.
    + apply (st_total ltA HA _ _ Eab Eba).
    + apply (IH _ H1 H2).
Qed.
End LexicographicOrders.

Lemma strict_total_by_key {A K : Type} (key : A -> K) (lt : K -> K -> bool) :
  (forall x y, key x = key y -> x = y) ->
  strict_total lt -> strict_total (fun x y => lt (key x) (key y)).
Proof.
  intros Hinj H. constructor.
  - intros x. apply (st_irrefl lt H).
  - intros x y z. apply (st_trans lt H).
  - intros x y H1 H2. apply Hinj, (st_total lt H); assumption.
Qed.

Lemma Path_lt_by_key (p q : Path) :
  Path_lt p q
  = lex_pair Z.ltb (lex_pair (lexicographical_compare Z.ltb) Z.ltb) (Path_key p) (Path_key q).
Proof. reflexivity. Qed.

Lemma Path_lt_strict_total : strict_total Path_lt.
Proof.
  pose proof (strict_total_by_key Path_key
                (lex_pair Z.ltb (lex_pair (lexicographical_compare Z.ltb) Z.ltb))) as H.
  apply H.
  - intros [s1 n1 e1] [s2 n2 e2]. unfold Path_key; simpl. congruence.
  - apply lex_pair_strict_total; [apply Zltb_strict_total|].
    apply lex_pair_strict_total; [|apply Zltb_strict_total].
    apply lexicographical_compare_strict_total, Zltb_strict_total.
Qed.

Lemma Diplotype_lt_strict_total : strict_total Diplotype_lt.
Proof. apply lexicographical_compare_strict_total, Path_lt_strict_total. Qed.

Lemma vector_eqb_eq {A : Type} (eqb : A -> A -> bool) :
  (forall x y, eqb x y = true <-> x = y) ->
  forall a b, vector_eqb eqb a b = true <-> a = b.
Proof.
  intros Heq a. induction a as [|x a IH]; intros [|y b]; simpl;
    try (split; [discriminate | congruence]); try tauto.
  rewrite andb_true_iff, Heq, IH. split; [intros [-> ->]; reflexivity|].
  intros H. injection H as -> ->. auto.
Qed.

Lemma Path_eqb_eq (p q : Path) : Path_eqb p q = true <-> p = q.
Proof.
  destruct p as [s1 n1 e1], q as [s2 n2 e2]. unfold Path_eqb; simpl.
  rewrite !andb_true_iff, !Z.eqb_eq, (vector_eqb_eq Z.eqb Z.eqb_eq).
  split; [intros [[-> ->] ->]; reflexivity|].
  intros H. injection H as -> -> ->. auto.
Qed.

Lemma Diplotype_eqb_eq (d e : Diplotype) : Diplotype_eqb d e = true <-> d = e.
Proof. apply vector_eqb_eq, Path_eqb_eq. Qed.

(** ** Sorting and removal of adjacent duplicates *)

Lemma unique_from_In {A : Type} (eqb : A -> A -> bool) (previous x : A) (l : list A) :
  In x (unique_from eqb previous l) -> In x l.
Proof.
  revert previous. induction l as [|y l IH]; simpl; intros previous; [tauto|].
  destruct (eqb previous y); simpl; intros H.
  - right. eapply IH; eassumption.
  - destruct H as [H|H]; [now left | right; eapply IH; eassumption].
Qed.

Lemma unique_In {A : Type} (eqb : A -> A -> bool) (x : A) (l : list A) : In x (unique eqb l) -> In x l.
Proof.
  destruct l as [|y l]; simpl; [tauto|].
  intros [H|H]; [now left | right; eapply unique_from_In; eassumption].
Qed.

Section SortingFacts.
Context {A : Type} (lt : A -> A -> bool) (eqb : A -> A -> bool).
Hypothesis Hlt : strict_total lt.
Hypothesis Heqb : forall x y, eqb x y = true <-> x = y.

Let le (a b : A) : Prop := lt b a = false.

Lemma le_trans_of_strict_total (a b c : A) : le a b -> le b c -> le a c.
Proof.
  unfold le. intros Hab Hbc. destruct (lt c a) eqn:Eca; [|reflexivity].
  destruct (lt a b) eqn:Eab.
  - rewrite (st_trans lt Hlt _ _ _ Eca Eab) in Hbc. discriminate.
  - rewrite <- (st_total lt Hlt _ _ Eab Hab) in Hbc. congruence.
Qed.

Lemma insert_sorted_perm (x : A) (l : list A) :
  Permutation (x :: l) (insert_sorted lt x l).
Proof.
  induction l as [|y l IH]; simpl; [reflexivity|].
  destruct (lt x y); [reflexivity|].
  rewrite perm_swap. now constructor.
Qed.

Lemma insert_sorted_sorted (x : A) (l : list A) :
  StronglySorted le l -> StronglySorted le (insert_sorted lt x l).
Proof.
  induction 1 as [|y l Hs IH Hall]; simpl.
  - repeat constructor.
  - destruct (lt x y) eqn:Exy.
    + assert (Hxy : le x y) by (apply (st_asym lt Hlt); assumption).
      constructor; [constructor; assumption|].
      constructor; [assumption|].
      eapply Forall_impl; [|exact Hall].
      intros z Hyz. now apply (le_trans_of_strict_total x y z).
    + constructor; [assumption|].
      rewrite <- (insert_sorted_perm x l). constructor; assumption.
Qed.

Lemma insertion_sort_sorts : sorts lt (insertion_sort lt).
Proof.
  intros l. unfold insertion_sort. induction l as [|x l [IHp IHs]]; simpl.
  - split; constructor.
  - split.
    + rewrite <- insert_sorted_perm. now constructor.
    + now apply insert_sorted_sorted.
Qed.

(** A list has at most one sorted rearrangement. *)
Lemma sorted_permutation_unique (l1 l2 : list A) :
  Permutation l1 l2 -> StronglySorted le l1 -> StronglySorted le l2 -> l1 = l2.
Proof.
  revert l2. induction l1 as [|x l1 IH]; intros l2 Hp H1 H2.
  - apply Permutation_nil in Hp. now subst.
  - destruct l2 as [|y l2].
    + apply Permutation_sym, Permutation_nil in Hp. discriminate.
    + inversion H1 as [|? ? H1s H1a]; subst. inversion H2 as [|? ? H2s H2a]; subst.
      assert (x = y) as ->.
      { assert (Hx : In x (y :: l2)) by (apply (Permutation_in _ Hp); now left).
        assert (Hy : In y (x :: l1))
          by (apply (Permutation_in _ (Permutation_sym Hp)); now left).
        destruct Hx as [Hx|Hx]; [congruence|]. destruct Hy as [Hy|Hy]; [congruence|].
        rewrite Forall_forall in H1a, H2a.
        apply (st_total lt Hlt); [apply (H2a _ Hx) | apply (H1a _ Hy)]. }
      f_equal. apply IH; [eapply Permutation_cons_inv; eassumption | assumption..].
Qed.

Lemma sort_unique (sort1 sort2 : list A -> list A) :
  sorts lt sort1 -> sorts lt sort2 -> forall l, sort1 l = sort2 l.
Proof.
  intros H1 H2 l. destruct (H1 l) as [P1 S1], (H2 l) as [P2 S2].
  apply sorted_permutation_unique; try assumption.
  now rewrite <- P1.
Qed.

Lemma unique_from_sorted (previous : A) (l : list A) :
  StronglySorted le (previous :: l) ->
  StronglySorted (fun a b => lt a b = true) (previous :: unique_from eqb previous l).
Proof.
  revert previous. induction l as [|y l IH]; simpl; intros previous Hs.
  - repeat constructor.
  - inversion Hs as [|? ? Hs' Hall]; subst.
    inversion Hall as [|? ? Hpy Hall']; subst.
    destruct (eqb previous y) eqn:E.
    + apply Heqb in E. subst y. apply IH. assumption.
    + specialize (IH y Hs').
      assert (Hlty : lt previous y = true).
      { destruct (lt previous y) eqn:E'; [reflexivity|].
        rewrite (st_total lt Hlt _ _ E' Hpy) in E.
        assert (eqb y y = true) by now apply Heqb. congruence. }
      constructor; [assumption|].
      constructor; [assumption|].
      inversion IH as [|? ? _ Hally]; subst.
      eapply Forall_impl; [|exact Hally].
      intros z Hz. eapply (st_trans lt Hlt); eassumption.
Qed.

Lemma unique_sorted (l : list A) :
  StronglySorted le l -> StronglySorted (fun a b => lt a b = true) (unique eqb l).
Proof.
  destruct l as [|x l]; simpl; [constructor | apply unique_from_sorted].
Qed.

Lemma strictly_sorted_NoDup (l : list A) :
  StronglySorted (fun a b => lt a b = true) l -> NoDup l.
Proof.
  induction 1 as [|x l _ IH Hall]; constructor; [|assumption].
  intros Hin. rewrite Forall_forall in Hall.
  specialize (Hall _ Hin). rewrite (st_irrefl lt Hlt) in Hall. discriminate.
Qed.
End SortingFacts.

(** ** The result of [getCandidateDiplotypes] *)

Lemma Forall2_In_r {A B : Type} (R : A -> B -> Prop) (l : list A) (r : list B) (y : B) :
  Forall2 R l r -> In y r -> exists x, In x l /\ R x y.
Proof.
  induction 1 as [|a b l r Hab _ IH]; simpl; [tauto|].
  intros [<-|Hin].
  - exists a. auto.
  - destruct (IH Hin) as (x & Hx & Hxy). exists x. auto.
Qed.

Lemma swap_front_back_ends {A : Type} (front : A) (rest : list A) (d : A) :
  rest <> [] ->
  exists middle,
    swap_front_back (front :: rest) = last rest front :: middle
    /\ last (swap_front_back (front :: rest)) d = front.
Proof.
  intros Hne. destruct rest as [|x rest]; [congruence|].
  exists (removelast (x :: rest) ++ [front]). split; [reflexivity|].
  unfold swap_front_back.
  change (last (last (x :: rest) front :: removelast (x :: rest) ++ [front]) d)
    with (last ((last (x :: rest) front :: removelast (x :: rest)) ++ [front]) d).
  apply last_last.
Qed.

Lemma makeDiplotype_canonical (g : Graph) (rightFlankLength : Z)
    (diplotypeNodes : NodeVectors) (d : Diplotype) :
  makeDiplotype g rightFlankLength diplotypeNodes = Ok d ->
  exists front rest, d = front :: rest /\ Path_lt front (last d front) = false.
Proof.
  unfold makeDiplotype. intros H. apply bind_Ok_inv in H as (dip & _ & H).
  destruct dip as [|front rest]; [discriminate|].
  destruct (Path_lt front (last (front :: rest) front)) eqn:E; injection H as <-.
  - assert (Hne : rest <> []).
    { intros ->. simpl in E. rewrite (st_irrefl _ Path_lt_strict_total) in E. discriminate. }
    destruct (swap_front_back_ends front rest (last rest front) Hne) as (middle & Hs & Hl).
    exists (last rest front), middle. split; [exact Hs|].
    unfold swap_front_back in Hl. rewrite Hl. apply (st_asym _ Path_lt_strict_total).
    destruct rest as [|x rest]; [congruence | exact E].
  - exists front, rest. split; [reflexivity | exact E].
Qed.

Lemma makeDiplotype_length (g : Graph) (rightFlankLength : Z)
    (diplotypeNodes : NodeVectors) (d : Diplotype) :
  makeDiplotype g rightFlankLength diplotypeNodes = Ok d ->
  List.length d = List.length diplotypeNodes.
Proof.
  unfold makeDiplotype. intros H. apply bind_Ok_inv in H as (dip & Hd & H).
  apply mapM_Ok_inv, Forall2_length in Hd.
  transitivity (List.length dip); [|symmetry; exact Hd]. clear Hd.
  destruct dip as [|front rest]; [discriminate|].
  destruct (Path_lt front (last (front :: rest) front)); injection H as <-; [|reflexivity].
  destruct rest as [|x rest]; [reflexivity|].
  assert (Hr : x :: rest = removelast (x :: rest) ++ [last (x :: rest) front])
    by (apply app_removelast_last; discriminate).
  apply (f_equal (@List.length Path)) in Hr. rewrite length_app in Hr.
  unfold swap_front_back. simpl List.length in *. rewrite length_app. simpl List.length. lia.
Qed.

(** What a successful enumeration has gone through. *)
Lemma getCandidateDiplotypesWith_Ok_inv (sort : list Diplotype -> list Diplotype)
    (fs : FileSystem) (meanFragLen : Z) (vcfPath : string)
    (locusSpec : LocusSpecification) (result : list Diplotype) :
  getCandidateDiplotypesWith sort fs meanFragLen vcfPath locusSpec = Ok result ->
  exists nodeRange firstAlleles otherRegions nodesByDiplotype rightFlankLength diplotypes,
    getGenotypeNodesByNodeRange fs meanFragLen vcfPath locusSpec
    = Ok ((nodeRange, firstAlleles) :: otherRegions)
    /\ walk (walkFuel (numNodes (regionGraph locusSpec))) (numNodes (regionGraph locusSpec))
            ((nodeRange, firstAlleles) :: otherRegions)
            (1, [repeat [0] (List.length firstAlleles)])
       = Ok nodesByDiplotype
    /\ Forall2 (fun nodes d => makeDiplotype (regionGraph locusSpec) rightFlankLength nodes = Ok d)
               nodesByDiplotype diplotypes
    /\ result = unique Diplotype_eqb (sort diplotypes).
Proof.
  unfold getCandidateDiplotypesWith. intros H.
  apply bind_Ok_inv in H as (m & Hm & H).
  destruct m as [|[nodeRange firstAlleles] otherRegions]; [discriminate|].
  apply bind_Ok_inv in H as (nbd & Hw & H).
  apply bind_Ok_inv in H as (ds & Hds & H).
  injection H as <-.
  exists nodeRange, firstAlleles, otherRegions, nbd. eexists. exists ds.
  repeat split; try eassumption.
  apply mapM_Ok_inv. exact Hds.
Qed.

Lemma enumeration_result_sorted (sort : list Diplotype -> list Diplotype)
    (diplotypes : list Diplotype) :
  sorts Diplotype_lt sort ->
  StronglySorted (fun a b => Diplotype_lt a b = true)
                 (unique Diplotype_eqb (sort diplotypes))
  /\ (forall d, In d (unique Diplotype_eqb (sort diplotypes)) -> In d diplotypes).
Proof.
  intros Hsort. destruct (Hsort diplotypes) as [Hp Hs]. split.
  - apply (unique_sorted Diplotype_lt Diplotype_eqb
             Diplotype_lt_strict_total Diplotype_eqb_eq). exact Hs.
  - intros d Hd. apply unique_In in Hd.
    apply (Permutation_in _ (Permutation_sym Hp)). exact Hd.
Qed.

Lemma unique_strictly_sorted {A : Type} (lt eqb : A -> A -> bool) (l : list A) :
  strict_total lt -> (forall x y, eqb x y = true <-> x = y) ->
  StronglySorted (fun a b => lt a b = true) l -> unique eqb l = l.
Proof.
  intros Hlt Heqb Hs. destruct l as [|x l]; [reflexivity|]. simpl. f_equal.
  revert x Hs. induction l as [|y l IH]; intros x Hs; [reflexivity|]. simpl.
  inversion Hs as [|? ? Hs' Hall]; subst. inversion Hall as [|? ? Hxy _]; subst.
  destruct (eqb x y) eqn:E.
  - apply Heqb in E. subst y. rewrite (st_irrefl lt Hlt) in Hxy. discriminate.
  - f_equal. apply IH. exact Hs'.
Qed.

Lemma strictly_sorted_weaken {A : Type} (lt : A -> A -> bool) (l : list A) :
  strict_total lt ->
  StronglySorted (fun a b => lt a b = true) l ->
  StronglySorted (fun a b => lt b a = false) l.
Proof.
  intros Hlt. induction 1 as [|x l _ IH Hall]; constructor; [assumption|].
  eapply Forall_impl; [|exact Hall]. intros y. apply (st_asym lt Hlt).
Qed.

(** C2.  Every diplotype returned by [getCandidateDiplotypes] is
    canonically ordered: its front haplotype is not less than its back
    haplotype in the order on paths.  Consequently two diplotypes that are
    haplotype-order swaps of each other are never both in the result
    (unless they are one and the same diplotype), and no diplotype is
    listed twice. *)
Theorem canonical_haplotype_order
    (fs : FileSystem) (meanFragLen : Z) (vcfPath : string)
    (locusSpec : LocusSpecification) (diplotypes : list Diplotype) :
  getCandidateDiplotypes fs meanFragLen vcfPath locusSpec = Ok diplotypes ->
  (forall d, In d diplotypes ->
             exists front rest,
               d = front :: rest /\ Path_lt front (last d front) = false)
  /\ (forall p q, In [p; q] diplotypes -> In [q; p] diplotypes -> p = q)
  /\ NoDup diplotypes.
Proof.
  intros H. unfold getCandidateDiplotypes in H.
  apply getCandidateDiplotypesWith_Ok_inv in H
    as (range & alleles & others & nbd & len & ds & _ & _ & Hmk & ->).
  pose proof (insertion_sort_sorts Diplotype_lt Diplotype_lt_strict_total) as Hsort.
  destruct (enumeration_result_sorted _ ds Hsort) as [Hsorted Hin].
  assert (Hcanon : forall d, In d (unique Diplotype_eqb (insertion_sort Diplotype_lt ds)) ->
                             exists front rest,
                               d = front :: rest /\ Path_lt front (last d front) = false).
  { intros d Hd. apply Hin in Hd.
    destruct (Forall2_In_r _ _ _ _ Hmk Hd) as (nodes & _ & Hnodes).
    eapply makeDiplotype_canonical; eassumption. }
  split; [exact Hcanon|]. split.
  - intros p q Hpq Hqp.
    destruct (Hcanon _ Hpq) as (f1 & r1 & E1 & L1).
    destruct (Hcanon _ Hqp) as (f2 & r2 & E2 & L2).
    injection E1 as <- <-. injection E2 as <- <-. simpl in L1, L2.
    apply (st_total _ Path_lt_strict_total); assumption.
  - apply (strictly_sorted_NoDup Diplotype_lt Diplotype_lt_strict_total). exact Hsorted.
Qed.

(** C4.  Enumeration is deterministic: whichever sorting algorithm stands
    behind [std::sort], as long as it returns a sorted rearrangement of its
    input, the same input (call files, fragment-length bound, locus) gives
    the same outcome.  A returned list is strictly increasing in the order
    on diplotypes, hence sorted and free of duplicates, and sorting and
    deduplicating it once more leaves it unchanged. *)
Theorem enumeration_deterministic
    (sort1 sort2 : list Diplotype -> list Diplotype)
    (fs : FileSystem) (meanFragLen : Z) (vcfPath : string)
    (locusSpec : LocusSpecification) :
  sorts Diplotype_lt sort1 ->
  sorts Diplotype_lt sort2 ->
  getCandidateDiplotypesWith sort1 fs meanFragLen vcfPath locusSpec
  = getCandidateDiplotypesWith sort2 fs meanFragLen vcfPath locusSpec
  /\ (forall diplotypes,
         getCandidateDiplotypesWith sort1 fs meanFragLen vcfPath locusSpec = Ok diplotypes ->
         StronglySorted (fun a b => Diplotype_lt a b = true) diplotypes
         /\ NoDup diplotypes
         /\ unique Diplotype_eqb (sort2 diplotypes) = diplotypes).
Proof.
  intros H1 H2.
  pose proof (sort_unique Diplotype_lt Diplotype_lt_strict_total sort1 sort2 H1 H2) as Heq.
  split.
  - unfold getCandidateDiplotypesWith.
    destruct (getGenotypeNodesByNodeRange fs meanFragLen vcfPath locusSpec)
      as [m| | | | |]; cbn [bind]; try reflexivity.
    destruct m as [|[range alleles] others]; [reflexivity|].
    match goal with
    | |- context [walk ?fuel ?n ?m ?st] =>
        destruct (walk fuel n m st) as [nbd| | | | |]; cbn [bind]; try reflexivity
    end.
    match goal with
    | |- context [mapM ?f nbd] =>
        destruct (mapM f nbd) as [ds| | | | |]; cbn [bind]; try reflexivity
    end.
    now rewrite Heq.
  - intros diplotypes H.
    apply getCandidateDiplotypesWith_Ok_inv in H
      as (range & alleles & others & nbd & len & ds & _ & _ & _ & ->).
    destruct (enumeration_result_sorted _ ds H1) as [Hsorted _].
    split; [exact Hsorted|]. split.
    + apply (strictly_sorted_NoDup Diplotype_lt Diplotype_lt_strict_total). exact Hsorted.
    + set (out := unique Diplotype_eqb (sort1 ds)) in *.
      assert (Hout : sort2 out = out).
      { destruct (H2 out) as [Hp Hs]. symmetry.
        apply (sorted_permutation_unique Diplotype_lt Diplotype_lt_strict_total);
          [exact Hp | | exact Hs].
        apply strictly_sorted_weaken; [apply Diplotype_lt_strict_total | exact Hsorted]. }
      rewrite Hout.
      apply (unique_strictly_sorted Diplotype_lt);
        [apply Diplotype_lt_strict_total | apply Diplotype_eqb_eq | exact Hsorted].
Qed.

Lemma canonical_haplotype_order_witness :
  (forall d, In d [[mkPath 0 [0; 1; 1; 1; 2] 6; mkPath 0 [0; 1; 1; 1; 1; 2] 6]] ->
             exists front rest,
               d = front :: rest /\ Path_lt front (last d front) = false)
  /\ (forall p q,
         In [p; q] [[mkPath 0 [0; 1; 1; 1; 2] 6; mkPath 0 [0; 1; 1; 1; 1; 2] 6]] ->
         In [q; p] [[mkPath 0 [0; 1; 1; 1; 2] 6; mkPath 0 [0; 1; 1; 1; 1; 2] 6]] ->
         p = q)
  /\ NoDup [[mkPath 0 [0; 1; 1; 1; 2] 6; mkPath 0 [0; 1; 1; 1; 1; 2] 6]].
Proof.
  apply (canonical_haplotype_order exampleFiles 150 "sample.vcf" exampleLocus).
  vm_compute. reflexivity.
Defined.

Lemma insertion_sort_backwards_sorts {A : Type} (lt : A -> A -> bool) :
  strict_total lt -> sorts lt (insertion_sort_backwards lt).
Proof.
  intros Hlt l. unfold insertion_sort_backwards.
  destruct (insertion_sort_sorts lt Hlt (rev l)) as [Hp Hs]. split; [|exact Hs].
  rewrite <- Hp. apply Permutation_rev.
Qed.

Lemma enumeration_deterministic_witness :
  getCandidateDiplotypesWith (insertion_sort Diplotype_lt)
    exampleFiles 150 "sample.vcf" exampleLocus
  = getCandidateDiplotypesWith (insertion_sort_backwards Diplotype_lt)
      exampleFiles 150 "sample.vcf" exampleLocus
  /\ (forall diplotypes,
         getCandidateDiplotypesWith (insertion_sort Diplotype_lt)
           exampleFiles 150 "sample.vcf" exampleLocus = Ok diplotypes ->
         StronglySorted (fun a b => Diplotype_lt a b = true) diplotypes
         /\ NoDup diplotypes
         /\ unique Diplotype_eqb (insertion_sort_backwards Diplotype_lt diplotypes)
            = diplotypes).
Proof.
  apply (enumeration_deterministic
           (insertion_sort Diplotype_lt) (insertion_sort_backwards Diplotype_lt)
           exampleFiles 150 "sample.vcf" exampleLocus).
  - apply insertion_sort_sorts, Diplotype_lt_strict_total.
  - apply insertion_sort_backwards_sorts, Diplotype_lt_strict_total.
Defined.

(** ** C5: the worked example *)

Lemma example_repeat_lengths :
  extractRepeatLengths exampleFiles "sample.vcf" "ATXN1" = Ok [3; 4].
Proof. vm_compute. reflexivity. Qed.

Lemma example_genotype_nodes (meanFragLen : Z) :
  4 <= meanFragLen ->
  getGenotypeNodesByNodeRange exampleFiles meanFragLen "sample.vcf" exampleLocus
  = Ok [((1, 1), [[1; 1; 1]; [1; 1; 1; 1]])].
Proof.
  intros H. unfold getGenotypeNodesByNodeRange.
  cbn [variantSpecs exampleLocus genotypeNodesLoop].
  unfold genotypeNodesOfVariant.
  cbn [classification_type nodes id List.length Nat.eqb assert at_index nth_error bind].
  rewrite example_repeat_lengths. cbn [bind].
  unfold genotypeNodesOf, capLengths. cbn [map].
  destruct (3 <=? meanFragLen) eqn:E3; [|apply Z.leb_gt in E3; lia].
  destruct (4 <=? meanFragLen) eqn:E4; [|apply Z.leb_gt in E4; lia].
  reflexivity.
Qed.

(** C5.  For the three-node graph (node 0 the left flank, node 1 the
    repeat unit CAG with a self-loop, node 2 the right flank), a call file
    that genotypes the repeat 3/4 and a fragment-length bound that caps
    nothing (at least 4), enumeration returns exactly one diplotype.  Its
    front haplotype traverses node 1 three times and its back haplotype
    four times, and it is printed as (LF)(CAG){3}(RF)/(LF)(CAG){4}(RF). *)
Theorem worked_example (meanFragLen : Z) :
  4 <= meanFragLen ->
  exists front back,
    getCandidateDiplotypes exampleFiles meanFragLen "sample.vcf" exampleLocus
    = Ok [[front; back]]
    /\ nodeIds front = [0; 1; 1; 1; 2]
    /\ nodeIds back = [0; 1; 1; 1; 1; 2]
    /\ count_occ Z.eq_dec (nodeIds front) 1 = 3%nat
    /\ count_occ Z.eq_dec (nodeIds back) 1 = 4%nat
    /\ printDiplotype exampleGraph [front; back]
       = Ok "(LF)(CAG){3}(RF)/(LF)(CAG){4}(RF)".
Proof.
  intros H.
  exists (mkPath 0 [0; 1; 1; 1; 2] 6), (mkPath 0 [0; 1; 1; 1; 1; 2] 6).
  split.
  - unfold getCandidateDiplotypes, getCandidateDiplotypesWith.
    rewrite (example_genotype_nodes meanFragLen H).
    vm_compute. reflexivity.
  - repeat split; vm_compute; reflexivity.
Qed.

Lemma worked_example_witness :
  exists front back,
    getCandidateDiplotypes exampleFiles 150 "sample.vcf" exampleLocus
    = Ok [[front; back]]
    /\ nodeIds front = [0; 1; 1; 1; 2]
    /\ nodeIds back = [0; 1; 1; 1; 1; 2]
    /\ count_occ Z.eq_dec (nodeIds front) 1 = 3%nat
    /\ count_occ Z.eq_dec (nodeIds back) 1 = 4%nat
    /\ printDiplotype exampleGraph [front; back]
       = Ok "(LF)(CAG){3}(RF)/(LF)(CAG){4}(RF)".
Proof.
  apply (worked_example 150). lia.
Defined.

(** ** C10: the allele count read from the first region *)

Lemma extendGenotype_length (genotype genotypeExtension : NodeVectors)
    (children : list NodeVectors) :
  extendGenotype genotype genotypeExtension = Ok children ->
  Forall (fun child => List.length child = List.length genotype) children.
Proof.
  unfold extendGenotype. intros H.
  apply assert_Ok_inv in H as [_ H].
  destruct (Nat.eqb (List.length genotype) 1) eqn:E1.
  - apply Nat.eqb_eq in E1. inv_ok H. injection H as <-.
    repeat constructor. now rewrite E1.
  - apply assert_Ok_inv in H as [E2 H]. apply Nat.eqb_eq in E2.
    inv_ok H. injection H as <-. repeat constructor; now rewrite E2.
Qed.

Lemma extendDiplotype_length (count : nat) (genotypes : list NodeVectors)
    (genotypeExtension : NodeVectors) (extended : list NodeVectors) :
  Forall (fun genotype => List.length genotype = count) genotypes ->
  extendDiplotype genotypes genotypeExtension = Ok extended ->
  Forall (fun genotype => List.length genotype = count) extended.
Proof.
  intros Hall. revert extended.
  induction Hall as [|genotype rest Hg _ IH]; simpl; intros extended H.
  - injection H as <-. constructor.
  - apply bind_Ok_inv in H as (children & Hc & H).
    apply bind_Ok_inv in H as (others & Ho & H). injection H as <-.
    apply Forall_app. split; [|now apply IH].
    apply extendGenotype_length in Hc.
    eapply Forall_impl; [|exact Hc]. intros child Hchild. simpl in Hchild. congruence.
Qed.

Lemma walkStep_length (count : nat) (m : NodeRangeMap) (st st' : WalkState) :
  Forall (fun genotype => List.length genotype = count) (snd st) ->
  walkStep m st = Ok st' ->
  Forall (fun genotype => List.length genotype = count) (snd st').
Proof.
  destruct st as [node nbd]. unfold walkStep. simpl snd. intros Hall H.
  apply bind_Ok_inv in H as (found & _ & H).
  destruct found as [[alleles lastNode]|].
  - apply bind_Ok_inv in H as (extended & Hext & H). injection H as <-.
    simpl. eapply extendDiplotype_length; eassumption.
  - injection H as <-. simpl. apply Forall_map.
    eapply Forall_impl; [|exact Hall]. intros genotype Hg. simpl in *.
    now rewrite length_map.
Qed.

Lemma walkReaches_length (count : nat) (nNodes : Z) (m : NodeRangeMap) (st st' : WalkState) :
  walkReaches nNodes m st st' ->
  Forall (fun genotype => List.length genotype = count) (snd st) ->
  Forall (fun genotype => List.length genotype = count) (snd st').
Proof.
  induction 1 as [|st st' st'' _ IH _ Hstep]; intros Hall; [assumption|].
  eapply walkStep_length; [apply IH; assumption | eassumption].
Qed.

Lemma walk_reaches (fuel : nat) (nNodes : Z) (m : NodeRangeMap) (st : WalkState)
    (nodesByDiplotype : list NodeVectors) :
  walk fuel nNodes m st = Ok nodesByDiplotype ->
  exists node, walkReaches nNodes m st (node, nodesByDiplotype).
Proof.
  revert st. induction fuel as [|fuel IH]; simpl; intros st H; [discriminate|].
  destruct (fst st =? nNodes) eqn:E.
  - injection H as <-. exists (fst st). destruct st. constructor.
  - apply bind_Ok_inv in H as (st' & Hstep & H).
    destruct (IH _ H) as (node & Hr). exists node.
    apply Z.eqb_neq in E. clear - E Hstep Hr.
    induction Hr as [|a b c Hab IHab Hb Hbc].
    + eapply walkReaches_step; [apply walkReaches_here | exact E | exact Hstep].
    + eapply walkReaches_step; [apply IHab; assumption | exact Hb | exact Hbc].
Qed.

Lemma map_emplace_not_empty (key : NodeRange) (value : NodeVectors) (m : NodeRangeMap) :
  map_emplace key value m <> [].
Proof.
  destruct m as [|[k v] rest]; simpl; [discriminate|].
  destruct (NodeRange_lt key k); [discriminate|].
  destruct (NodeRange_lt k key); discriminate.
Qed.

Lemma genotypeNodesOfVariant_not_empty (fs : FileSystem) (meanFragLen : Z)
    (vcfPath : string) (variantSpec : VariantSpecification) (m m' : NodeRangeMap) :
  genotypeNodesOfVariant fs meanFragLen vcfPath variantSpec m = Ok m' -> m' <> [].
Proof.
  unfold genotypeNodesOfVariant.
  destruct (classification_type variantSpec); [|discriminate].
  intros H. inv_ok H. injection H as <-. apply map_emplace_not_empty.
Qed.

Lemma genotypeNodesLoop_not_empty (fs : FileSystem) (meanFragLen : Z)
    (vcfPath : string) (specs : list VariantSpecification) (m m' : NodeRangeMap) :
  genotypeNodesLoop fs meanFragLen vcfPath specs m = Ok m' ->
  specs <> [] \/ m <> [] -> m' <> [].
Proof.
  revert m. induction specs as [|v rest IH]; simpl; intros m H Hne.
  - injection H as <-. destruct Hne; congruence.
  - apply bind_Ok_inv in H as (m1 & H1 & H).
    apply (IH _ H). right. eapply genotypeNodesOfVariant_not_empty; eassumption.
Qed.

(** C10.  [getCandidateDiplotypes] needs a locus with at least one variant
    specification.  With none, the map of node ranges is empty and reading
    the allele count from its first entry is undefined behaviour.  With at
    least one, a map that has been extracted has a first entry, so the read
    is well defined; in every state the walk goes through, each candidate
    has exactly that many haplotypes, and so has every diplotype that is
    returned. *)
Theorem allele_count_precondition
    (fs : FileSystem) (meanFragLen : Z) (vcfPath : string)
    (locusSpec : LocusSpecification) :
  (variantSpecs locusSpec = [] ->
   getGenotypeNodesByNodeRange fs meanFragLen vcfPath locusSpec = Ok []
   /\ getCandidateDiplotypes fs meanFragLen vcfPath locusSpec = Undefined)
  /\ (variantSpecs locusSpec <> [] ->
      forall genotypeNodesByNodeRange,
        getGenotypeNodesByNodeRange fs meanFragLen vcfPath locusSpec
        = Ok genotypeNodesByNodeRange ->
        exists nodeRange firstAlleles otherRegions,
          genotypeNodesByNodeRange = (nodeRange, firstAlleles) :: otherRegions
          /\ (forall st,
                 walkReaches (numNodes (regionGraph locusSpec)) genotypeNodesByNodeRange
                             (1, [repeat [0] (List.length firstAlleles)]) st ->
                 Forall (fun genotype => List.length genotype = List.length firstAlleles)
                        (snd st))
          /\ (forall diplotypes,
                 getCandidateDiplotypes fs meanFragLen vcfPath locusSpec = Ok diplotypes ->
                 Forall (fun diplotype => List.length diplotype = List.length firstAlleles)
                        diplotypes)).
Proof.
  split.
  - intros Hnone.
    assert (Hm : getGenotypeNodesByNodeRange fs meanFragLen vcfPath locusSpec = Ok [])
      by (unfold getGenotypeNodesByNodeRange; now rewrite Hnone).
    split; [exact Hm|].
    unfold getCandidateDiplotypes, getCandidateDiplotypesWith. now rewrite Hm.
  - intros Hsome m Hm.
    assert (Hne : m <> []).
    { unfold getGenotypeNodesByNodeRange in Hm.
      eapply genotypeNodesLoop_not_empty; [exact Hm | now left]. }
    destruct m as [|[nodeRange firstAlleles] otherRegions]; [congruence|].
    exists nodeRange, firstAlleles, otherRegions. split; [reflexivity|].
    assert (Hinit : Forall (fun genotype : NodeVectors =>
                              List.length genotype = List.length firstAlleles)
                           (snd ((1, [repeat [0] (List.length firstAlleles)]) : WalkState))).
    { simpl. constructor; [apply repeat_length | constructor]. }
    split.
    + intros st Hst. eapply walkReaches_length; eassumption.
    + intros diplotypes H. unfold getCandidateDiplotypes in H.
      apply getCandidateDiplotypesWith_Ok_inv in H
        as (range' & alleles' & others' & nbd & len & ds & Hm' & Hwalk & Hmk & ->).
      rewrite Hm in Hm'. injection Hm' as <- <- <-.
      apply walk_reaches in Hwalk as (node & Hreach).
      pose proof (walkReaches_length _ _ _ _ _ Hreach Hinit) as Hnbd. simpl in Hnbd.
      apply Forall_forall. intros d Hd.
      destruct (enumeration_result_sorted _ ds
                  (insertion_sort_sorts Diplotype_lt Diplotype_lt_strict_total)) as [_ Hin].
      apply Hin in Hd.
      destruct (Forall2_In_r _ _ _ _ Hmk Hd) as (nodes & Hnodes & Hmake).
      apply makeDiplotype_length in Hmake. rewrite Hmake.
      rewrite Forall_forall in Hnbd. now apply Hnbd.
Qed.

(** ** The string functions *)

Lemma split_not_nil (sep : ascii) (s : string) : split sep s <> [].
Proof.
  destruct s as [|c rest]; simpl; [discriminate|].
  destruct (Ascii.eqb c sep); [discriminate|].
  destruct (split sep rest); discriminate.
Qed.

Lemma append_cons (c : ascii) (s t : string) :
  (String c s ++ t = String c (s ++ t))%string.
Proof. reflexivity. Qed.

Lemma prefix_spec (p s : string) :
  String.prefix p s = true <-> exists rest, s = (p ++ rest)%string.
Proof.
  revert s. induction p as [|c p IH]; intros s.
  - split; [intros _; exists s; reflexivity | intros _; destruct s; reflexivity].
  - destruct s as [|d s]; simpl.
    + split; [discriminate | intros (rest & H); discriminate].
    + destruct (ascii_dec c d) as [<-|Hne].
      * rewrite IH. split; intros (rest & H); exists rest.
        -- rewrite append_cons. now f_equal.
        -- rewrite append_cons in H. now injection H.
      * split; [discriminate|]. intros (rest & H).
        rewrite append_cons in H. injection H as H _. congruence.
Qed.

(** [occurs query line] is the search for a substring. *)
Lemma occurs_spec (query line : string) :
  occurs query line = true
  <-> exists before after, line = (before ++ query ++ after)%string.
Proof.
  induction line as [|c line IH].
  - cbn [occurs]. destruct (String.prefix query "") eqn:E.
    + split; [intros _|reflexivity].
      apply prefix_spec in E as (rest & H). exists "", rest. exact H.
    + split; [discriminate|]. intros (before & after & H).
      destruct before as [|b before]; [|rewrite append_cons in H; discriminate].
      assert (Hp : String.prefix query "" = true)
        by (apply prefix_spec; exists after; exact H).
      congruence.
  - cbn [occurs]. destruct (String.prefix query (String c line)) eqn:E.
    + split; [intros _|reflexivity].
      apply prefix_spec in E as (rest & H). exists "", rest. exact H.
    + rewrite IH. split.
      * intros (before & after & H). exists (String c before), after.
        rewrite append_cons. now f_equal.
      * intros (before & after & H). destruct before as [|b before].
        -- assert (Hp : String.prefix query (String c line) = true)
             by (apply prefix_spec; exists after; exact H).
           congruence.
        -- rewrite append_cons in H. injection H as _ H. exists before, after. exact H.
Qed.

Lemma concat_two (sep piece piece' : string) (pieces : list string) :
  String.concat sep (piece :: piece' :: pieces)
  = (piece ++ sep ++ String.concat sep (piece' :: pieces))%string.
Proof. reflexivity. Qed.

(** Joining the pieces of [split] with the separator gives the string
    back. *)
Lemma split_concat (sep : ascii) (s : string) :
  String.concat (String sep "") (split sep s) = s.
Proof.
  induction s as [|c s IH]; [reflexivity|]. cbn [split].
  pose proof (split_not_nil sep s) as Hne.
  destruct (split sep s) as [|piece pieces]; [congruence|].
  destruct (Ascii.eqb c sep) eqn:E.
  - apply Ascii.eqb_eq in E. subst c.
    rewrite concat_two, IH. reflexivity.
  - destruct pieces as [|piece' pieces].
    + change (String c piece = String c s). f_equal. exact IH.
    + rewrite concat_two, append_cons. f_equal.
      rewrite concat_two in IH. exact IH.
Qed.

(** ** C7: results of [extractRepeatLengths] *)

Lemma nth_error_last {A : Type} (l : list A) (d : A) :
  l <> [] -> nth_error l (List.length l - 1) = Some (last l d).
Proof.
  induction l as [|x l IH]; [congruence|]. intros _.
  destruct l as [|y l]; [reflexivity|].
  change (last (x :: y :: l) d) with (last (y :: l) d).
  rewrite <- IH by discriminate. simpl. now rewrite Nat.sub_0_r.
Qed.

Lemma parseRecord_spec (repeatId record : string) :
  parseRecord repeatId record
  = match genotypeField record with
    | None => Undefined
    | Some genotype =>
        if String.eqb genotype "./." then Throw (MissingGenotype repeatId)
        else mapM stoi (split "/"%char genotype)
    end.
Proof.
  unfold parseRecord, genotypeField, at_index.
  rewrite (nth_error_last _ EmptyString (split_not_nil tab record)). cbn [bind].
  destruct (nth_error _ 2); reflexivity.
Qed.

Lemma scanLines_spec (repeatId : string) (lines : list string) :
  scanLines repeatId (recordQuery repeatId) lines
  = match matchingRecord repeatId lines with
    | Some record => parseRecord repeatId record
    | None => Throw (NotFound repeatId)
    end.
Proof.
  unfold matchingRecord. induction lines as [|line rest IH]; cbn [scanLines find]; [reflexivity|].
  destruct (find_first line (recordQuery repeatId)); [reflexivity | exact IH].
Qed.

Lemma stoi_throws (s : string) (e : exception) :
  stoi s = Throw e -> e = invalid_argument "stoi" \/ e = out_of_range "stoi".
Proof.
  unfold stoi.
  destruct (match skip_space s with
            | String "-"%char rest => (true, rest)
            | String "+"%char rest => (false, rest)
            | _ => (false, skip_space s)
            end) as [negative s2].
  destruct (digits_prefix s2); [intros H; injection H as <-; now left|].
  match goal with |- context [if ?c then _ else _] => destruct c end;
    [discriminate | intros H; injection H as <-; now right].
Qed.

Lemma mapM_stoi_throws (pieces : list string) (e : exception) :
  mapM stoi pieces = Throw e -> e = invalid_argument "stoi" \/ e = out_of_range "stoi".
Proof.
  induction pieces as [|p rest IH]; simpl; [discriminate|].
  destruct (stoi p) eqn:E; simpl; try discriminate.
  - destruct (mapM stoi rest); simpl; try discriminate.
    intros H. injection H as <-. now apply IH.
  - intros H. injection H as <-. eapply stoi_throws; eassumption.
Qed.

Lemma digit_of_char (c : ascii) (d : Z) :
  digit_of c = Some d ->
  isspace c = false /\ c <> "-"%char /\ c <> "+"%char /\ 0 <= d <= 9.
Proof.
  destruct c as [[] [] [] [] [] [] [] []]; vm_compute; intros H;
    try discriminate; injection H as <-;
    repeat split; try reflexivity; try discriminate.
Qed.

Lemma decimal_fold_nonneg (ds : list Z) (acc : Z) :
  0 <= acc -> Forall (fun d => 0 <= d) ds ->
  0 <= fold_left (fun acc d => 10 * acc + d) ds acc.
Proof.
  revert acc. induction ds as [|d ds IH]; simpl; intros acc Hacc Hall.
  - exact Hacc.
  - inversion Hall; subst. apply IH; [lia | assumption].
Qed.

Lemma decimal_value_nonneg (ds : list Z) :
  Forall (fun d => 0 <= d) ds -> 0 <= decimal_value ds.
Proof. apply decimal_fold_nonneg. lia. Qed.

Lemma digits_prefix_nonneg (s : string) : Forall (fun d => 0 <= d) (digits_prefix s).
Proof.
  induction s as [|c rest IH]; simpl; [constructor|].
  destruct (digit_of c) eqn:E; constructor; [|assumption].
  apply digit_of_char in E. lia.
Qed.

Lemma stoi_isCount (s : string) :
  isCount s = true ->
  stoi s = Ok (decimal_value (digits_prefix s)) /\ 0 <= decimal_value (digits_prefix s).
Proof.
  unfold isCount. rewrite !andb_true_iff. intros [[Hne Hdigits] Hfit].
  split; [|apply decimal_value_nonneg, digits_prefix_nonneg].
  destruct s as [|c rest]; [discriminate|].
  simpl in Hdigits. apply andb_true_iff in Hdigits as [Hc _].
  unfold is_digit in Hc. destruct (digit_of c) as [d|] eqn:E; [|discriminate].
  destruct (digit_of_char c d E) as (Hsp & Hminus & Hplus & Hd).
  unfold stoi. simpl skip_space. rewrite Hsp.
  assert (Hsign : match String c rest with
                  | String "-"%char r => (true, r)
                  | String "+"%char r => (false, r)
                  | _ => (false, String c rest)
                  end = (false, String c rest)).
  { clear - Hminus Hplus.
    destruct c as [[] [] [] [] [] [] [] []]; try reflexivity; congruence. }
  rewrite Hsign. clear Hsign.
  assert (Hnn : 0 <= decimal_value (digits_prefix (String c rest)))
    by apply decimal_value_nonneg, digits_prefix_nonneg.
  revert Hfit Hnn. simpl digits_prefix. rewrite E.
  intros Hfit Hnn. rewrite Hfit, andb_true_r.
  destruct (INT_MIN <=? _) eqn:Emin; [reflexivity|].
  apply Z.leb_gt in Emin. unfold INT_MIN in Emin. lia.
Qed.

Lemma mapM_stoi_genotype (genotype : string) :
  isGenotype genotype = true ->
  exists sizes,
    mapM stoi (split "/"%char genotype) = Ok sizes
    /\ (List.length sizes = 1%nat \/ List.length sizes = 2%nat)
    /\ Forall (fun size => 0 <= size) sizes.
Proof.
  unfold isGenotype. destruct (split "/"%char genotype) as [|a [|b [|c rest]]];
    try discriminate.
  - intros Ha. destruct (stoi_isCount a Ha) as [Ea Na].
    eexists. simpl. rewrite Ea. simpl. split; [reflexivity|].
    split; [now left | repeat constructor; assumption].
  - intros H. apply andb_true_iff in H as [Ha Hb].
    destruct (stoi_isCount a Ha) as [Ea Na]. destruct (stoi_isCount b Hb) as [Eb Nb].
    eexists. simpl. rewrite Ea, Eb. simpl. split; [reflexivity|].
    split; [now right | repeat constructor; assumption].
Qed.

Lemma stoi_in_range (s : string) (v : Z) :
  stoi s = Ok v -> INT_MIN <= v <= INT_MAX.
Proof.
  unfold stoi.
  destruct (match skip_space s with
            | String "-"%char rest => (true, rest)
            | String "+"%char rest => (false, rest)
            | _ => (false, skip_space s)
            end) as [negative s2].
  destruct (digits_prefix s2); [discriminate|].
  match goal with |- context [if ?c then _ else _] => destruct c eqn:E end;
    [|discriminate].
  intros H. injection H as <-. apply andb_true_iff in E as [E1 E2].
  apply Z.leb_le in E1, E2. lia.
Qed.

Lemma mapM_stoi_counts (genotype : string) :
  isGenotype genotype = true ->
  mapM stoi (split "/"%char genotype)
  = Ok (map (fun piece => decimal_value (digits_prefix piece)) (split "/"%char genotype))
  /\ (List.length (split "/"%char genotype) = 1%nat
      \/ List.length (split "/"%char genotype) = 2%nat)
  /\ Forall (fun piece => 0 <= decimal_value (digits_prefix piece))
            (split "/"%char genotype).
Proof.
  unfold isGenotype. destruct (split "/"%char genotype) as [|a [|b [|c rest]]];
    try discriminate.
  - intros Ha. destruct (stoi_isCount a Ha) as [Ea Na].
    cbn [mapM map]. rewrite Ea. cbn [bind mapM].
    split; [reflexivity|]. split; [now left | repeat constructor; assumption].
  - intros H. apply andb_true_iff in H as [Ha Hb].
    destruct (stoi_isCount a Ha) as [Ea Na]. destruct (stoi_isCount b Hb) as [Eb Nb].
    cbn [mapM map]. rewrite Ea. cbn [bind]. rewrite Eb. cbn [bind mapM].
    split; [reflexivity|]. split; [now right | repeat constructor; assumption].
Qed.

Lemma mapM_stoi_results (pieces : list string) (sizes : list Z) :
  mapM stoi pieces = Ok sizes ->
  Forall2 (fun piece size => stoi piece = Ok size) pieces sizes
  /\ List.length sizes = List.length pieces
  /\ Forall (fun size => INT_MIN <= size <= INT_MAX) sizes.
Proof.
  intros H. apply mapM_Ok_inv in H. split; [exact H|].
  split; [symmetry; eapply Forall2_length; exact H|].
  induction H as [|p v ps vs Hpv _ IH]; constructor; [|exact IH].
  now apply stoi_in_range in Hpv.
Qed.

(** C7, as the code has it.  [extractRepeatLengths] fails with the IOError
    exception when the call file cannot be opened, and with the NotFound
    exception when no line of the file carries the identifier of the
    variant.  It fails with the MissingGenotype exception exactly when the
    genotype field of the matching record (the third colon-delimited field
    of the last tab-separated column of the first line that carries the
    identifier) is the no-call text "./.".  When it returns, it returns one
    integer for every slash-separated piece of that field, the value [stoi]
    reads from the piece: at least one integer, each within the range of an
    [int], with neither the number of pieces nor the sign checked.  For a
    field of the form a or a/b with non-negative integers it does return,
    and what it returns is a, or a and b: one or two non-negative
    integers. *)
Theorem extractRepeatLengths_results (fs : FileSystem) (vcfPath repeatId : string) :
  (fs vcfPath = None ->
   extractRepeatLengths fs vcfPath repeatId = Throw (IOError vcfPath))
  /\ (forall lines,
         fs vcfPath = Some lines ->
         matchingRecord repeatId lines = None ->
         extractRepeatLengths fs vcfPath repeatId = Throw (NotFound repeatId))
  /\ (extractRepeatLengths fs vcfPath repeatId = Throw (MissingGenotype repeatId)
      <-> exists lines record,
            fs vcfPath = Some lines
            /\ matchingRecord repeatId lines = Some record
            /\ genotypeField record = Some "./.")
  /\ (forall sizes,
         extractRepeatLengths fs vcfPath repeatId = Ok sizes ->
         exists lines record genotype,
           fs vcfPath = Some lines
           /\ matchingRecord repeatId lines = Some record
           /\ genotypeField record = Some genotype
           /\ genotype <> "./."
           /\ mapM stoi (split "/"%char genotype) = Ok sizes
           /\ Forall2 (fun piece size => stoi piece = Ok size)
                      (split "/"%char genotype) sizes
           /\ (1 <= List.length sizes)%nat
           /\ List.length sizes = List.length (split "/"%char genotype)
           /\ Forall (fun size => INT_MIN <= size <= INT_MAX) sizes)
  /\ (forall lines record genotype,
         fs vcfPath = Some lines ->
         matchingRecord repeatId lines = Some record ->
         genotypeField record = Some genotype ->
         isGenotype genotype = true ->
         exists sizes,
           extractRepeatLengths fs vcfPath repeatId = Ok sizes
           /\ sizes = map (fun piece => decimal_value (digits_prefix piece))
                          (split "/"%char genotype)
           /\ (List.length sizes = 1%nat \/ List.length sizes = 2%nat)
           /\ Forall (fun size => 0 <= size) sizes).
Proof.
  unfold extractRepeatLengths. fold (recordQuery repeatId).
  destruct (fs vcfPath) as [lines|].
  2: { split; [reflexivity|]. split; [discriminate|]. split; [|split; discriminate].
       split.
       - unfold IOError, MissingGenotype. simpl. discriminate.
       - intros (l & r & H & _). discriminate. }
  rewrite scanLines_spec.
  split; [discriminate|].
  destruct (matchingRecord repeatId lines) as [record|] eqn:Er.
  2: { split; [reflexivity|]. split; [|split].
       - split.
         + unfold NotFound, MissingGenotype. simpl. discriminate.
         + intros (l & r & H & Hr & _). injection H as <-. congruence.
       - discriminate.
       - intros l r g H Hr. injection H as <-. congruence. }
  split; [intros l H Hn; injection H as <-; congruence|].
  rewrite parseRecord_spec.
  destruct (genotypeField record) as [genotype|] eqn:Eg.
  2: { split; [|split].
       - split; [discriminate|].
         intros (l & r & H & Hr & Hg). injection H as <-.
         rewrite Er in Hr. injection Hr as <-. congruence.
       - discriminate.
       - intros l r g H Hr Hg. injection H as <-.
         rewrite Er in Hr. injection Hr as <-. congruence. }
  destruct (String.eqb genotype "./.") eqn:En.
  - apply String.eqb_eq in En. subst genotype. split; [|split].
    + split; [|reflexivity]. intros _. exists lines, record. auto.
    + discriminate.
    + intros l r g H Hr Hg. injection H as <-.
      rewrite Er in Hr. injection Hr as <-. rewrite Eg in Hg. injection Hg as <-.
      vm_compute. discriminate.
  - apply String.eqb_neq in En. split; [|split].
    + split.
      * intros H. apply mapM_stoi_throws in H. destruct H; discriminate.
      * intros (l & r & H & Hr & Hg). injection H as <-.
        rewrite Er in Hr. injection Hr as <-. congruence.
    + intros sizes H. exists lines, record, genotype.
      destruct (mapM_stoi_results _ _ H) as (Hall & Hlen & Hrange).
      pose proof (split_not_nil "/"%char genotype) as Hne.
      repeat (split; [first [reflexivity | assumption]|]). split; [|split; assumption].
      rewrite Hlen. destruct (split "/"%char genotype); [contradiction | simpl; lia].
    + intros l r g H Hr Hg Hgen. injection H as <-.
      rewrite Er in Hr. injection Hr as <-. rewrite Eg in Hg. injection Hg as <-.
      destruct (mapM_stoi_counts _ Hgen) as (Hok & Hlen & Hpos).
      eexists. split; [exact Hok|]. split; [reflexivity|].
      rewrite length_map. split; [exact Hlen|].
      apply Forall_forall. intros size Hin. apply in_map_iff in Hin as (piece & <- & Hp).
      rewrite Forall_forall in Hpos. now apply Hpos.
Qed.

Lemma extractRepeatLengths_results_witness :
  extractRepeatLengths exampleFiles "missing.vcf" "ATXN1" = Throw (IOError "missing.vcf")
  /\ extractRepeatLengths exampleFiles "sample.vcf" "HTT" = Throw (NotFound "HTT")
  /\ exists sizes,
       extractRepeatLengths exampleFiles "sample.vcf" "ATXN1" = Ok sizes
       /\ sizes = map (fun piece => decimal_value (digits_prefix piece))
                      (split "/"%char "3/4")
       /\ (List.length sizes = 1%nat \/ List.length sizes = 2%nat)
       /\ Forall (fun size => 0 <= size) sizes.
Proof.
  split; [|split].
  - apply (extractRepeatLengths_results exampleFiles "missing.vcf" "ATXN1"). reflexivity.
  - apply (proj1 (proj2 (extractRepeatLengths_results exampleFiles "sample.vcf" "HTT"))
             ["##fileformat=VCFv4.1"; exampleRecord]); reflexivity.
  - apply (proj2 (proj2 (proj2 (proj2
             (extractRepeatLengths_results exampleFiles "sample.vcf" "ATXN1"))))
             ["##fileformat=VCFv4.1"; exampleRecord] exampleRecord "3/4"); reflexivity.
Defined.

(** The claim as the specification words it fails on this call file: the
    extraction succeeds with three integers for the first repeat, and with a
    negative integer for the second. *)
Lemma extractRepeatLengths_unchecked :
  (extractRepeatLengths uncheckedFiles "unchecked.vcf" "THREE" = Ok [1; 2; 3]
   /\ ~ (List.length [1; 2; 3] = 1%nat \/ List.length [1; 2; 3] = 2%nat))
  /\ (extractRepeatLengths uncheckedFiles "unchecked.vcf" "NEG" = Ok [-7]
      /\ ~ Forall (fun size => 0 <= size) [-7]).
Proof.
  split; split.
  - vm_compute. reflexivity.
  - simpl. intros [H|H]; discriminate.
  - vm_compute. reflexivity.
  - intros H. inversion H; subst. lia.
Qed.

(** ** C8: small variants *)

Lemma genotypeNodesLoop_app (fs : FileSystem) (meanFragLen : Z) (vcfPath : string)
    (before after : list VariantSpecification) (m : NodeRangeMap) :
  genotypeNodesLoop fs meanFragLen vcfPath (before ++ after) m
  = let* m' := genotypeNodesLoop fs meanFragLen vcfPath before m in
    genotypeNodesLoop fs meanFragLen vcfPath after m'.
Proof.
  revert m. induction before as [|v rest IH]; intros m; simpl; [reflexivity|].
  destruct (genotypeNodesOfVariant fs meanFragLen vcfPath v m); simpl; auto.
Qed.

Lemma genotypeNodesLoop_small_variant (fs : FileSystem) (meanFragLen : Z)
    (vcfPath : string) (specs : list VariantSpecification) (m : NodeRangeMap) :
  Exists isSmallVariant specs ->
  is_ok (genotypeNodesLoop fs meanFragLen vcfPath specs m) = false.
Proof.
  intros Hex. revert m. induction Hex as [v rest Hv|v rest _ IH]; intros m; simpl.
  - unfold genotypeNodesOfVariant. unfold isSmallVariant in Hv. now rewrite Hv.
  - destruct (genotypeNodesOfVariant fs meanFragLen vcfPath v m); simpl; auto.
Qed.

Lemma mapM_Throw {A B : Type} (f : A -> outcome B) (l : list A) (e : exception) :
  mapM f l = Throw e -> exists x, In x l /\ f x = Throw e.
Proof.
  induction l as [|x l IH]; simpl; [discriminate|].
  destruct (f x) eqn:E; simpl; try discriminate.
  - destruct (mapM f l); simpl; try discriminate.
    intros H. injection H as ->.
    destruct (IH eq_refl) as (y & Hy & Hf). exists y. auto.
  - intros H. injection H as ->. exists x. auto.
Qed.

Lemma extractRepeatLengths_throws (fs : FileSystem) (vcfPath repeatId : string)
    (e : exception) :
  extractRepeatLengths fs vcfPath repeatId = Throw e ->
  e = IOError vcfPath \/ e = NotFound repeatId \/ e = MissingGenotype repeatId
  \/ e = invalid_argument "stoi" \/ e = out_of_range "stoi".
Proof.
  unfold extractRepeatLengths. fold (recordQuery repeatId).
  destruct (fs vcfPath) as [lines|]; [|intros H; injection H as <-; now left].
  rewrite scanLines_spec.
  destruct (matchingRecord repeatId lines) as [record|];
    [|intros H; injection H as <-; tauto].
  rewrite parseRecord_spec.
  destruct (genotypeField record) as [genotype|]; [|discriminate].
  destruct (String.eqb genotype "./."); [intros H; injection H as <-; tauto|].
  intros H. apply mapM_stoi_throws in H. tauto.
Qed.

(** The iteration for a repeat variant never raises the rejection of small
    variants. *)
Lemma repeat_variant_failure (fs : FileSystem) (meanFragLen : Z) (vcfPath : string)
    (variantSpec : VariantSpecification) (m : NodeRangeMap) :
  classification_type variantSpec = kRepeat ->
  genotypeNodesOfVariant fs meanFragLen vcfPath variantSpec m
  <> Throw UnsupportedVariantType.
Proof.
  intros Hrepeat. unfold genotypeNodesOfVariant. rewrite Hrepeat.
  destruct (Nat.eqb (List.length (nodes variantSpec)) 1); [|discriminate].
  cbn [assert].
  destruct (at_index (nodes variantSpec) 0) as [repeatNode| | | | |] eqn:En;
    cbn [bind]; try discriminate.
  2: { unfold at_index in En. destruct (nth_error _ _); discriminate. }
  destruct (extractRepeatLengths fs vcfPath (id variantSpec)) as [lens|e| | | |] eqn:Ex;
    cbn [bind]; try discriminate.
  2: { intros H. injection H as ->.
       apply extractRepeatLengths_throws in Ex.
       destruct Ex as [H|[H|[H|[H|H]]]]; discriminate. }
  destruct (genotypeNodesOf meanFragLen repeatNode lens) as [alleles|e| | | |] eqn:Eg;
    cbn [bind]; try discriminate.
  - destruct (Nat.leb (List.length alleles) 2); discriminate.
  - intros H. injection H as ->. unfold genotypeNodesOf in Eg.
    apply mapM_Throw in Eg as (len & _ & Hf). unfold NodeVector_fill in Hf.
    destruct (len <? 0); discriminate.
Qed.

(** C8, as the code has it.  When some variant of the locus is a small
    variant, neither the extraction of the genotype regions nor the
    enumeration of diplotypes returns a result, and an exception thrown by
    the extraction leaves the enumeration unchanged.  The exception is
    UnsupportedVariantType when every variant listed before the first small
    variant has been extracted, in particular when the small variant comes
    first.  When the iteration for a repeat variant is the first to fail,
    its failure is the outcome of the extraction, it is not
    UnsupportedVariantType, and an exception it throws leaves the
    enumeration. *)
Theorem small_variant_rejected
    (fs : FileSystem) (meanFragLen : Z) (vcfPath : string)
    (locusSpec : LocusSpecification) :
  Exists isSmallVariant (variantSpecs locusSpec) ->
  is_ok (getGenotypeNodesByNodeRange fs meanFragLen vcfPath locusSpec) = false
  /\ is_ok (getCandidateDiplotypes fs meanFragLen vcfPath locusSpec) = false
  /\ (forall e,
         getGenotypeNodesByNodeRange fs meanFragLen vcfPath locusSpec = Throw e ->
         getCandidateDiplotypes fs meanFragLen vcfPath locusSpec = Throw e)
  /\ (forall before small after extracted,
         variantSpecs locusSpec = before ++ small :: after ->
         isSmallVariant small ->
         genotypeNodesLoop fs meanFragLen vcfPath before [] = Ok extracted ->
         getGenotypeNodesByNodeRange fs meanFragLen vcfPath locusSpec
         = Throw UnsupportedVariantType
         /\ getCandidateDiplotypes fs meanFragLen vcfPath locusSpec
            = Throw UnsupportedVariantType)
  /\ (forall before failing after extracted failure,
         variantSpecs locusSpec = before ++ failing :: after ->
         classification_type failing = kRepeat ->
         genotypeNodesLoop fs meanFragLen vcfPath before [] = Ok extracted ->
         genotypeNodesOfVariant fs meanFragLen vcfPath failing extracted = failure ->
         is_ok failure = false ->
         getGenotypeNodesByNodeRange fs meanFragLen vcfPath locusSpec = failure
         /\ failure <> Throw UnsupportedVariantType
         /\ (forall e,
                failure = Throw e ->
                getCandidateDiplotypes fs meanFragLen vcfPath locusSpec = Throw e)).
Proof.
  intros Hex.
  pose proof (genotypeNodesLoop_small_variant fs meanFragLen vcfPath _ [] Hex) as Hfail.
  fold (getGenotypeNodesByNodeRange fs meanFragLen vcfPath locusSpec) in Hfail.
  assert (Hprop : forall e,
             getGenotypeNodesByNodeRange fs meanFragLen vcfPath locusSpec = Throw e ->
             getCandidateDiplotypes fs meanFragLen vcfPath locusSpec = Throw e).
  { intros e He. unfold getCandidateDiplotypes, getCandidateDiplotypesWith.
    now rewrite He. }
  split; [exact Hfail|]. split; [|split; [exact Hprop|split]].
  - unfold getCandidateDiplotypes, getCandidateDiplotypesWith.
    destruct (getGenotypeNodesByNodeRange fs meanFragLen vcfPath locusSpec);
      try reflexivity. discriminate.
  - intros before small after extracted Hspecs Hsmall Hbefore.
    assert (Hthrow : getGenotypeNodesByNodeRange fs meanFragLen vcfPath locusSpec
                     = Throw UnsupportedVariantType).
    { unfold getGenotypeNodesByNodeRange. rewrite Hspecs, genotypeNodesLoop_app, Hbefore.
      cbn [bind genotypeNodesLoop]. unfold genotypeNodesOfVariant.
      unfold isSmallVariant in Hsmall. now rewrite Hsmall. }
    split; [exact Hthrow | now apply Hprop].
  - intros before failing after extracted failure Hspecs Hrepeat Hbefore Hstep Hfailure.
    assert (Hout : getGenotypeNodesByNodeRange fs meanFragLen vcfPath locusSpec = failure).
    { unfold getGenotypeNodesByNodeRange. rewrite Hspecs, genotypeNodesLoop_app, Hbefore.
      cbn [bind genotypeNodesLoop]. rewrite Hstep.
      destruct failure; try reflexivity. discriminate. }
    split; [exact Hout|]. split.
    + rewrite <- Hstep. now apply repeat_variant_failure.
    + intros e He. apply Hprop. now rewrite Hout.
Qed.

Lemma small_variant_rejected_witness :
  (getGenotypeNodesByNodeRange exampleFiles 150 "sample.vcf" rejectedLocus
   = Throw UnsupportedVariantType
   /\ getCandidateDiplotypes exampleFiles 150 "sample.vcf" rejectedLocus
      = Throw UnsupportedVariantType)
  /\ (getGenotypeNodesByNodeRange exampleFiles 150 "sample.vcf" mixedLocus
      = Throw (NotFound "HTT")
      /\ getCandidateDiplotypes exampleFiles 150 "sample.vcf" mixedLocus
         = Throw (NotFound "HTT")).
Proof.
  split.
  - destruct (small_variant_rejected exampleFiles 150 "sample.vcf" rejectedLocus)
      as (_ & _ & _ & Hsmall & _).
    + apply Exists_cons_tl, Exists_cons_hd. reflexivity.
    + apply (Hsmall [mkVariantSpecification "ATXN1" kRepeat [1]]
                    (mkVariantSpecification "SNV" kSmallVariant [2; 3]) []
                    [((1, 1), [[1; 1; 1]; [1; 1; 1; 1]])]).
      * reflexivity.
      * reflexivity.
      * vm_compute. reflexivity.
  - destruct (small_variant_rejected exampleFiles 150 "sample.vcf" mixedLocus)
      as (_ & _ & _ & _ & Hrepeat).
    + apply Exists_cons_tl, Exists_cons_hd. reflexivity.
    + destruct (Hrepeat [] (mkVariantSpecification "HTT" kRepeat [1])
                        [mkVariantSpecification "SNV" kSmallVariant [2; 3]] []
                        (Throw (NotFound "HTT")))
        as (Hout & _ & Hcaller).
      * reflexivity.
      * reflexivity.
      * reflexivity.
      * vm_compute. reflexivity.
      * reflexivity.
      * split; [exact Hout | apply Hcaller; reflexivity].
Defined.

(** The claim as the specification words it fails on this locus: a small
    variant is present, yet the extraction fails with NotFound, raised for
    the repeat listed before it, and not with UnsupportedVariantType. *)
Lemma small_variant_other_failure :
  Exists isSmallVariant (variantSpecs mixedLocus)
  /\ getGenotypeNodesByNodeRange exampleFiles 150 "sample.vcf" mixedLocus
     = Throw (NotFound "HTT")
  /\ getGenotypeNodesByNodeRange exampleFiles 150 "sample.vcf" mixedLocus
     <> Throw UnsupportedVariantType
  /\ getCandidateDiplotypes exampleFiles 150 "sample.vcf" mixedLocus
     <> Throw UnsupportedVariantType.
Proof.
  split; [apply Exists_cons_tl, Exists_cons_hd; reflexivity|].
  split; [vm_compute; reflexivity|].
  split; vm_compute; discriminate.
Qed.

(** ** C6: the summary of a path *)

Lemma append_assoc (a b c : string) : ((a ++ b) ++ c = a ++ (b ++ c))%string.
Proof.
  induction a as [|x a IH]; [reflexivity|].
  change (String x ((a ++ b) ++ c) = String x (a ++ (b ++ c)))%string.
  f_equal. exact IH.
Qed.

Lemma append_empty_r (a : string) : (a ++ "" = a)%string.
Proof.
  induction a as [|x a IH]; [reflexivity|].
  change (String x (a ++ "") = String x a)%string.
  f_equal. exact IH.
Qed.

Lemma filter_filter_implied {A : Type} (keep inner : A -> bool) (l : list A) :
  (forall x, keep x = true -> inner x = true) ->
  filter keep (filter inner l) = filter keep l.
Proof.
  intros Himp. induction l as [|x l IH]; simpl; [reflexivity|].
  destruct (inner x) eqn:Ei; simpl.
  - now rewrite IH.
  - destruct (keep x) eqn:Ek; [|exact IH].
    rewrite (Himp x Ek) in Ei. discriminate.
Qed.

Lemma filter_filter_and {A : Type} (keep inner : A -> bool) (l : list A) :
  filter keep (filter inner l) = filter (fun x => inner x && keep x)%bool l.
Proof.
  induction l as [|x l IH]; simpl; [reflexivity|].
  destruct (inner x); simpl; [|exact IH].
  destruct (keep x); now rewrite IH.
Qed.

Lemma concatStrings_cons (piece : string) (pieces : list string) :
  concatStrings (piece :: pieces) = (piece ++ concatStrings pieces)%string.
Proof. reflexivity. Qed.

(** The nodes the loop of [summarizePath] still renders: the first visits
    among the remaining ids of nodes not yet observed. *)
Lemma summarizeLoop_spec (g : Graph) (path : Path) (render : NodeId -> string)
    (remaining observed : list NodeId) (summary : string) :
  (forall n, In n remaining -> summarizeNode g path n = Ok (render n)) ->
  summarizeLoop g path remaining observed summary
  = Ok (summary
        ++ concatStrings
             (map render
                  (filter (fun m => negb (existsb (Z.eqb m) observed))
                          (firstVisits remaining))))%string.
Proof.
  revert observed summary.
  induction remaining as [|n rest IH]; intros observed summary Hrender.
  - simpl. now rewrite append_empty_r.
  - cbn [summarizeLoop firstVisits filter].
    assert (Hrest : forall m, In m rest -> summarizeNode g path m = Ok (render m))
      by (intros m Hm; apply Hrender; now right).
    destruct (existsb (Z.eqb n) observed) eqn:Eobs; cbn [negb].
    + rewrite (IH observed summary Hrest).
      rewrite filter_filter_implied; [reflexivity|].
      intros m Hm. apply negb_true_iff in Hm. apply negb_true_iff, Z.eqb_neq.
      intros ->. congruence.
    + rewrite (Hrender n (or_introl eq_refl)). cbn [bind].
      rewrite (IH (n :: observed) _ Hrest).
      rewrite map_cons, concatStrings_cons, append_assoc, filter_filter_and.
      rewrite (filter_ext (fun m => negb (existsb (Z.eqb m) (n :: observed)))
                          (fun m => (negb (m =? n) && negb (existsb (Z.eqb m) observed))%bool));
        [reflexivity|].
      intros m. simpl. now rewrite negb_orb.
Qed.

Lemma firstVisits_In (ids : list NodeId) (n : NodeId) :
  In n (firstVisits ids) <-> In n ids.
Proof.
  induction ids as [|x ids IH]; simpl; [tauto|].
  rewrite filter_In, IH, negb_true_iff, Z.eqb_neq.
  destruct (Z.eq_dec x n); [subst; tauto|]. split; [tauto|].
  intros [H|H]; [congruence | right; split; [assumption | congruence]].
Qed.

Lemma firstVisits_NoDup (ids : list NodeId) : NoDup (firstVisits ids).
Proof.
  induction ids as [|x ids IH]; simpl; constructor.
  - rewrite filter_In, negb_true_iff, Z.eqb_neq. tauto.
  - now apply NoDup_filter.
Qed.

Lemma firstVisits_snoc (visited : list NodeId) (n : NodeId) :
  firstVisits (visited ++ [n])
  = firstVisits visited ++ (if in_dec Z.eq_dec n visited then [] else [n]).
Proof.
  induction visited as [|x visited IH]; simpl; [reflexivity|].
  rewrite IH, filter_app. f_equal. f_equal.
  destruct (in_dec Z.eq_dec n visited) as [Hin|Hout].
  - destruct (Z.eq_dec x n); reflexivity.
  - destruct (Z.eq_dec x n) as [->|Hne]; simpl.
    + now rewrite Z.eqb_refl.
    + destruct (n =? x) eqn:E; [apply Z.eqb_eq in E; congruence | reflexivity].
Qed.

Lemma Path_valid_nodes (g : Graph) (p : Path) :
  Path_valid g p = true ->
  nodeIds p <> [] /\ Forall (fun n => 0 <= n < numNodes g) (nodeIds p).
Proof.
  unfold Path_valid. destruct (nodeIds p) as [|first rest] eqn:E; [discriminate|].
  rewrite !andb_true_iff. intros [[[[[Hall _] _] _] _] _].
  split; [discriminate|].
  apply Forall_forall. intros n Hn. rewrite forallb_forall in Hall.
  specialize (Hall n Hn). apply andb_true_iff in Hall as [H1 H2].
  apply Z.leb_le in H1. apply Z.ltb_lt in H2. lia.
Qed.

Lemma summarizeNode_renderNode (g : Graph) (path : Path) (n : NodeId) :
  numNodes g <= NodeId_max ->
  Z.of_nat (List.length (nodeIds path)) <= INT_MAX ->
  0 <= n < numNodes g ->
  summarizeNode g path n = Ok (renderNode g path n).
Proof.
  unfold NodeId_max, INT_MAX. intros Hmax Hlen Hn. unfold summarizeNode, renderNode.
  destruct (n =? 0); [reflexivity|].
  assert (Hincr : NodeId_incr n = n + 1).
  { unfold NodeId_incr, NodeId_modulus. apply Z.mod_small. lia. }
  rewrite Hincr.
  replace (n + 1 =? numNodes g) with (n =? numNodes g - 1)
    by (destruct (n =? numNodes g - 1) eqn:E1, (n + 1 =? numNodes g) eqn:E2;
        try reflexivity;
        repeat match goal with
               | H : (_ =? _) = true |- _ => apply Z.eqb_eq in H
               | H : (_ =? _) = false |- _ => apply Z.eqb_neq in H
               end; lia).
  destruct (n =? numNodes g - 1); [reflexivity|].
  assert (Hnz : (numNodes g =? 0) = false) by (apply Z.eqb_neq; lia).
  rewrite Hnz. cbn [negb assert].
  destruct (hasEdge g n n); [|reflexivity].
  assert (Hcount : to_int (Z.of_nat (count_occ Z.eq_dec (nodeIds path) n))
                   = Z.of_nat (count_occ Z.eq_dec (nodeIds path) n)).
  { pose proof (count_occ_bound Z.eq_dec n (nodeIds path)) as Hb.
    unfold NodeId in *. unfold to_int. rewrite Z.mod_small; lia. }
  now rewrite Hcount.
Qed.

(** C6.  For a path of the graph (with fewer than 2^31 nodes, on a graph
    whose node ids stay below the marker of an absent node), the summary
    is the concatenation of the renderings of the distinct node ids of the
    path, each one rendered exactly once, in the order of first visit.
    Node 0 is rendered as the left-flank marker, node [numNodes - 1] as the
    right-flank marker, any other self-loop node as its sequence followed
    by the number of occurrences of its id in the whole path, and any
    other node as its sequence alone (see [renderNode]). *)
Theorem summarizePath_first_visits (g : Graph) (path : Path) :
  Path_valid g path = true ->
  numNodes g <= NodeId_max ->
  Z.of_nat (List.length (nodeIds path)) <= INT_MAX ->
  summarizePath g path
  = Ok (concatStrings (map (renderNode g path) (firstVisits (nodeIds path))))
  /\ NoDup (firstVisits (nodeIds path))
  /\ (forall n, In n (firstVisits (nodeIds path)) <-> In n (nodeIds path))
  /\ (forall visited n,
         firstVisits (visited ++ [n])
         = firstVisits visited ++ (if in_dec Z.eq_dec n visited then [] else [n])).
Proof.
  intros Hvalid Hmax Hlen.
  destruct (Path_valid_nodes g path Hvalid) as [_ Hrange].
  split; [|split; [apply firstVisits_NoDup|split; [apply firstVisits_In|apply firstVisits_snoc]]].
  unfold summarizePath.
  rewrite (summarizeLoop_spec g path (renderNode g path)).
  - cbn [existsb negb].
    assert (Hall : forall l : list NodeId, filter (fun _ => true) l = l)
      by (induction l as [|x l IH]; simpl; [reflexivity | now rewrite IH]).
    now rewrite Hall.
  - intros n Hn. rewrite Forall_forall in Hrange.
    apply summarizeNode_renderNode; auto.
Qed.

Lemma summarizePath_first_visits_witness :
  summarizePath exampleGraph (mkPath 0 [0; 1; 1; 1; 2] 6)
  = Ok (concatStrings
          (map (renderNode exampleGraph (mkPath 0 [0; 1; 1; 1; 2] 6))
               (firstVisits (nodeIds (mkPath 0 [0; 1; 1; 1; 2] 6))))).
Proof.
  apply (summarizePath_first_visits exampleGraph (mkPath 0 [0; 1; 1; 1; 2] 6)).
  - reflexivity.
  - vm_compute. discriminate.
  - vm_compute. discriminate.
Defined.

Lemma allele_count_precondition_witness :
  (getGenotypeNodesByNodeRange exampleFiles 150 "sample.vcf"
     (mkLocusSpecification [] exampleGraph) = Ok []
   /\ getCandidateDiplotypes exampleFiles 150 "sample.vcf"
        (mkLocusSpecification [] exampleGraph) = Undefined)
  /\ exists nodeRange firstAlleles otherRegions,
       [((1, 1), [[1; 1; 1]; [1; 1; 1; 1]])] = (nodeRange, firstAlleles) :: otherRegions
       /\ (forall st,
              walkReaches (numNodes (regionGraph exampleLocus))
                          [((1, 1), [[1; 1; 1]; [1; 1; 1; 1]])]
                          (1, [repeat [0] (List.length firstAlleles)]) st ->
              Forall (fun genotype => List.length genotype = List.length firstAlleles)
                     (snd st))
       /\ (forall diplotypes,
              getCandidateDiplotypes exampleFiles 150 "sample.vcf" exampleLocus
              = Ok diplotypes ->
              Forall (fun diplotype => List.length diplotype = List.length firstAlleles)
                     diplotypes).
Proof.
  split.
  - apply (allele_count_precondition exampleFiles 150 "sample.vcf"
             (mkLocusSpecification [] exampleGraph)).
    reflexivity.
  - apply (proj2 (allele_count_precondition exampleFiles 150 "sample.vcf" exampleLocus)).
    + discriminate.
    + vm_compute. reflexivity.
Defined.

(** ** The walk comes to an end *)

Lemma bind_finishes {A B : Type} (m : outcome A) (k : A -> outcome B) :
  m <> OutOfFuel -> (forall a, k a <> OutOfFuel) -> bind m k <> OutOfFuel.
Proof. destruct m; simpl; auto; discriminate. Qed.

Lemma assert_finishes {A : Type} (c : bool) (k : outcome A) :
  k <> OutOfFuel -> assert c k <> OutOfFuel.
Proof. destruct c; simpl; [auto | discriminate]. Qed.

Lemma at_index_finishes {A : Type} (l : list A) (i : nat) : at_index l i <> OutOfFuel.
Proof. unfold at_index. destruct (nth_error l i); discriminate. Qed.

Lemma mapM_finishes {A B : Type} (f : A -> outcome B) (l : list A) :
  (forall x, f x <> OutOfFuel) -> mapM f l <> OutOfFuel.
Proof.
  intros Hf. induction l as [|x l IH]; simpl; [discriminate|].
  apply bind_finishes; [apply Hf|]. intros y.
  apply bind_finishes; [exact IH|]. discriminate.
Qed.

Ltac finishes :=
  repeat first
    [ apply bind_finishes; [|intros ?]
    | apply assert_finishes
    | apply at_index_finishes
    | apply mapM_finishes; intros ?
    | discriminate ].

Lemma stoi_finishes (s : string) : stoi s <> OutOfFuel.
Proof.
  unfold stoi.
  destruct (match skip_space s with
            | String "-"%char rest => (true, rest)
            | String "+"%char rest => (false, rest)
            | _ => (false, skip_space s)
            end) as [negative s2].
  destruct (digits_prefix s2); [discriminate|].
  match goal with |- context [if ?c then _ else _] => destruct c end; discriminate.
Qed.

Lemma extractRepeatLengths_finishes (fs : FileSystem) (vcfPath repeatId : string) :
  extractRepeatLengths fs vcfPath repeatId <> OutOfFuel.
Proof.
  unfold extractRepeatLengths. destruct (fs vcfPath) as [lines|]; [|discriminate].
  induction lines as [|line rest IH]; cbn [scanLines]; [discriminate|].
  destruct (find_first line _); [|exact IH].
  unfold parseRecord. finishes.
  destruct (String.eqb _ _); [discriminate|]. finishes. apply stoi_finishes.
Qed.

Lemma genotypeNodesLoop_finishes (fs : FileSystem) (meanFragLen : Z) (vcfPath : string)
    (specs : list VariantSpecification) (m : NodeRangeMap) :
  genotypeNodesLoop fs meanFragLen vcfPath specs m <> OutOfFuel.
Proof.
  revert m. induction specs as [|v rest IH]; intros m; simpl; [discriminate|].
  apply bind_finishes; [|intros m'; apply IH].
  unfold genotypeNodesOfVariant. destruct (classification_type v); [|discriminate].
  finishes.
  - apply extractRepeatLengths_finishes.
  - unfold genotypeNodesOf. finishes. unfold NodeVector_fill.
    destruct (_ <? 0); discriminate.
Qed.

Lemma getVariantGenotypeNodes_finishes (m : NodeRangeMap) (node : NodeId) :
  getVariantGenotypeNodes m node <> OutOfFuel.
Proof.
  induction m as [|[range paths] rest IH]; simpl; [discriminate|].
  destruct (_ && _)%bool; [finishes | exact IH].
Qed.

Lemma extendDiplotype_finishes (genotypes : list NodeVectors) (ext : NodeVectors) :
  extendDiplotype genotypes ext <> OutOfFuel.
Proof.
  induction genotypes as [|genotype rest IH]; simpl; [discriminate|].
  apply bind_finishes.
  - unfold extendGenotype. apply assert_finishes.
    destruct (Nat.eqb (List.length genotype) 1); finishes.
  - intros children. apply bind_finishes; [exact IH | discriminate].
Qed.

Lemma walkStep_finishes (m : NodeRangeMap) (st : WalkState) :
  walkStep m st <> OutOfFuel.
Proof.
  destruct st as [node nbd]. unfold walkStep.
  apply bind_finishes; [apply getVariantGenotypeNodes_finishes|].
  intros [[alleles lastNode]|]; [|discriminate].
  apply bind_finishes; [apply extendDiplotype_finishes | discriminate].
Qed.

Lemma map_emplace_Forall (P : NodeRange * NodeVectors -> Prop)
    (key : NodeRange) (value : NodeVectors) (m : NodeRangeMap) :
  P (key, value) -> Forall P m -> Forall P (map_emplace key value m).
Proof.
  intros Hk. induction 1 as [|[k v] rest Hkv Hrest IH]; simpl.
  - repeat constructor. exact Hk.
  - destruct (NodeRange_lt key k); [repeat constructor; assumption|].
    destruct (NodeRange_lt k key); constructor; assumption.
Qed.

Lemma nodeRangeOf_single (n : NodeId) :
  0 <= n < NodeId_modulus ->
  fst (nodeRangeOf [n]) = snd (nodeRangeOf [n])
  \/ snd (nodeRangeOf [n]) < fst (nodeRangeOf [n]).
Proof.
  unfold NodeId_modulus. intros Hn. unfold nodeRangeOf. simpl.
  destruct (n =? NodeId_minus_one); simpl.
  - right. unfold NodeId_lowest, NodeId_max. lia.
  - left. unfold NodeId_lowest, NodeId_max. lia.
Qed.

Lemma genotypeNodesLoop_single (fs : FileSystem) (meanFragLen : Z) (vcfPath : string)
    (specs : list VariantSpecification) (m m' : NodeRangeMap) :
  Forall (fun v => Forall (fun n => 0 <= n < NodeId_modulus) (nodes v)) specs ->
  singleNodeRegions m ->
  genotypeNodesLoop fs meanFragLen vcfPath specs m = Ok m' ->
  singleNodeRegions m'.
Proof.
  intros Hspecs. revert m. induction Hspecs as [|v rest Hv _ IH]; simpl; intros m Hm H.
  - now injection H as <-.
  - apply bind_Ok_inv in H as (m1 & H1 & H). apply (IH m1); [|exact H].
    unfold genotypeNodesOfVariant in H1.
    destruct (classification_type v); [|discriminate].
    inv_ok H1. injection H1 as <-.
    apply map_emplace_Forall; [|exact Hm]. simpl.
    apply Nat.eqb_eq in Hc.
    destruct (nodes v) as [|n [|n' others]]; try discriminate.
    inversion Hv; subst. now apply nodeRangeOf_single.
Qed.

Lemma getVariantGenotypeNodes_single (m : NodeRangeMap) (node lastNode : NodeId)
    (alleles : NodeVectors) :
  singleNodeRegions m ->
  getVariantGenotypeNodes m node = Ok (Some (alleles, lastNode)) ->
  lastNode = node.
Proof.
  induction 1 as [|[[from to] paths] rest Hentry _ IH]; simpl; [discriminate|].
  destruct ((from <=? node) && (node <=? to))%bool eqn:E; [|exact IH].
  intros H. apply assert_Ok_inv in H as [_ H]. injection H as _ <-.
  apply andb_true_iff in E as [E1 E2]. apply Z.leb_le in E1, E2.
  simpl in Hentry. lia.
Qed.

Lemma walkStep_advances (m : NodeRangeMap) (st st' : WalkState) :
  singleNodeRegions m ->
  walkStep m st = Ok st' -> fst st' = NodeId_incr (fst st).
Proof.
  destruct st as [node nbd]. unfold walkStep. intros Hm H.
  apply bind_Ok_inv in H as (found & Hfound & H).
  destruct found as [[alleles lastNode]|].
  - apply bind_Ok_inv in H as (extended & _ & H). injection H as <-. simpl.
    now rewrite (getVariantGenotypeNodes_single _ _ _ _ Hm Hfound).
  - now injection H as <-.
Qed.

Lemma walk_finishes (fuel : nat) (nNodes : Z) (m : NodeRangeMap) (st : WalkState) :
  singleNodeRegions m ->
  0 <= nNodes < NodeId_modulus ->
  0 <= fst st < NodeId_modulus ->
  (nNodes - fst st) mod NodeId_modulus < Z.of_nat fuel ->
  walk fuel nNodes m st <> OutOfFuel.
Proof.
  intros Hm Hn. revert st.
  induction fuel as [|fuel IH]; intros st Hst Hfuel.
  - pose proof (Z.mod_pos_bound (nNodes - fst st) NodeId_modulus) as Hb.
    unfold NodeId_modulus in *. lia.
  - cbn [walk]. destruct (fst st =? nNodes) eqn:E; [discriminate|].
    apply Z.eqb_neq in E.
    destruct (walkStep m st) as [st'| | | | |] eqn:Hstep; cbn [bind]; try discriminate.
    + pose proof (walkStep_advances m st st' Hm Hstep) as Hadv.
      assert (Hst' : 0 <= fst st' < NodeId_modulus).
      { rewrite Hadv. unfold NodeId_incr. apply Z.mod_pos_bound.
        unfold NodeId_modulus. lia. }
      apply IH; [exact Hst'|].
      rewrite Hadv. unfold NodeId_incr.
      unfold NodeId_modulus in *.
      rewrite Zminus_mod_idemp_r.
      assert (Hd : (nNodes - fst st) mod 4294967296 <> 0).
      { intros H0. apply Z.mod_divide in H0; [|lia].
        destruct H0 as [q Hq]. lia. }
      replace (nNodes - (fst st + 1)) with ((nNodes - fst st) - 1) by lia.
      pose proof (Z.mod_pos_bound (nNodes - fst st) 4294967296) as Hb.
      rewrite <- (Zminus_mod_idemp_l (nNodes - fst st) 1).
      rewrite Z.mod_small; lia.
    + exfalso. exact (walkStep_finishes m st Hstep).
Qed.

(** ** C9: k-mers overlapping a node and k-mers overlapping an edge *)

Module KmerIndexFacts.
Import stdpp.base stdpp.gmap stdpp.strings.
Local Open Scope Z_scope.
Import KmerIndex.

Lemma traversesEdge_visitsNode (u n : NodeId) (ids : list NodeId) :
  traversesEdge u n ids = true -> visitsNode n ids = true.
Proof.
  unfold visitsNode.
  induction ids as [|a [|b rest] IH]; simpl; try discriminate.
  intros H. apply orb_true_iff in H as [H|H].
  - apply andb_true_iff in H as [_ H]. apply Z.eqb_eq in H. subst b.
    rewrite Z.eqb_refl. now rewrite orb_true_r.
  - simpl in IH. rewrite (IH H). now rewrite orb_true_r.
Qed.

Lemma count_filter_mono (index : StringToPathsMap)
    (inner outer : string * list Path -> bool) :
  (forall entry, inner entry = true -> outer entry = true) ->
  (size (filter (fun entry => inner entry = true) index)
   <= size (filter (fun entry => outer entry = true) index))%nat.
Proof.
  intros Himp. apply map_subseteq_size, map_filter_subseteq_ext.
  intros kmer paths _. apply Himp.
Qed.

Lemma some_path_traverses_visits (u n : NodeId) (paths : list Path) :
  existsb (fun p => traversesEdge u n (nodeIds p)) paths = true ->
  existsb (fun p => visitsNode n (nodeIds p)) paths = true.
Proof.
  rewrite !existsb_exists. intros (p & Hin & Hp).
  exists p. split; [assumption|]. now apply (traversesEdge_visitsNode u).
Qed.

(** The expected values of the test [TypicalIndex_UniqueKmersCounted]. *)
Example TypicalIndex_UniqueKmersCounted :
  numUniqueKmersOverlappingEdge deletionGraphIndex 0 1 = 1%nat
  /\ numUniqueKmersOverlappingEdge deletionGraphIndex 1 2 = 2%nat
  /\ numUniqueKmersOverlappingNode deletionGraphIndex 0 = 3%nat
  /\ numUniqueKmersOverlappingNode deletionGraphIndex 2 = 4%nat.
Proof. repeat split; vm_compute; reflexivity. Qed.

(** Over all k-mers, unique or not, the counts of the same index differ
    from the expected values of the test. *)
Example all_kmers_counted :
  uniqueKmersOverlappingEdge deletionGraphIndex 0 1 = 2%nat
  /\ uniqueKmersOverlappingEdge deletionGraphIndex 1 2 = 2%nat
  /\ uniqueKmersOverlappingNode deletionGraphIndex 0 = 4%nat
  /\ uniqueKmersOverlappingNode deletionGraphIndex 2 = 5%nat.
Proof. repeat split; vm_compute; reflexivity. Qed.

(** C9.  Whatever graph and k-mer length an index has been built from, and
    for all nodes [u] and [n] (in particular for every edge from [u] to [n]
    of the graph), the number of k-mers overlapping node [n] is at least
    the number of k-mers overlapping the edge from [u] to [n]: a k-mer one
    of whose paths traverses the edge has that same path visiting [n].
    This holds for the counts over all k-mers, as the specification words
    them, and for the counts over unique k-mers, as the test expects
    them. *)
Theorem node_overlap_ge_edge_overlap (index : StringToPathsMap) (u n : NodeId) :
  (uniqueKmersOverlappingEdge index u n <= uniqueKmersOverlappingNode index n)%nat
  /\ (numUniqueKmersOverlappingEdge index u n
      <= numUniqueKmersOverlappingNode index n)%nat.
Proof.
  split.
  - unfold uniqueKmersOverlappingEdge, uniqueKmersOverlappingNode.
    apply (count_filter_mono index
             (fun entry => existsb (fun p => traversesEdge u n (nodeIds p)) entry.2)
             (fun entry => existsb (fun p => visitsNode n (nodeIds p)) entry.2)).
    intros [kmer paths]. apply some_path_traverses_visits.
  - unfold numUniqueKmersOverlappingEdge, numUniqueKmersOverlappingNode.
    apply (count_filter_mono index
             (fun entry => Nat.eqb (List.length entry.2) 1%nat
                           && existsb (fun p => traversesEdge u n (nodeIds p)) entry.2)
             (fun entry => Nat.eqb (List.length entry.2) 1%nat
                           && existsb (fun p => visitsNode n (nodeIds p)) entry.2)).
    intros [kmer paths]. simpl. rewrite !andb_true_iff. intros [H1 H2].
    split; [assumption|]. now apply (some_path_traverses_visits u).
Qed.

End KmerIndexFacts.

(* ================================================================== *)
(** * Further properties of the code *)
(* ================================================================== *)

(** ** capLengths *)

(** Capping as a pointwise minimum, with its length, bound and idempotence. *)
Lemma capLengths_facts (upperBound : Z) (lengths : list Z) :
  capLengths upperBound lengths = map (Z.min upperBound) lengths
  /\ List.length (capLengths upperBound lengths) = List.length lengths
  /\ Forall (fun capped => capped <= upperBound) (capLengths upperBound lengths)
  /\ capLengths upperBound (capLengths upperBound lengths)
     = capLengths upperBound lengths.
Proof.
  assert (Hmin : capLengths upperBound lengths = map (Z.min upperBound) lengths).
  { unfold capLengths. apply map_ext. intros len.
    destruct (len <=? upperBound) eqn:E;
      [apply Z.leb_le in E | apply Z.leb_gt in E]; lia. }
  split; [exact Hmin|]. split; [unfold capLengths; apply length_map|]. split.
  - rewrite Hmin. apply Forall_forall. intros capped Hin.
    apply in_map_iff in Hin as (len & <- & _). lia.
  - rewrite Hmin. unfold capLengths. rewrite map_map. apply map_ext.
    intros len. destruct (Z.min upperBound len <=? upperBound) eqn:E;
      [reflexivity | apply Z.leb_gt in E; lia].
Qed.

(** X1.  [capLengths] replaces every length by the smaller of the length
    and the bound: the number of lengths is kept, no capped length exceeds
    the bound, and capping a second time changes nothing. *)
Theorem capLengths_min (upperBound : Z) (lengths : list Z) :
  capLengths upperBound lengths = map (Z.min upperBound) lengths
  /\ List.length (capLengths upperBound lengths) = List.length lengths
  /\ Forall (fun capped => capped <= upperBound) (capLengths upperBound lengths)
  /\ capLengths upperBound (capLengths upperBound lengths)
     = capLengths upperBound lengths.
Proof. intros; eapply capLengths_facts; eassumption. Qed.

(** ** extractRepeatLengths *)

Lemma genotypeField_None (record : string) :
  genotypeField record = None
  <-> (List.length (split ":"%char (last (split tab record) EmptyString)) < 3)%nat.
Proof. unfold genotypeField. rewrite nth_error_None. lia. Qed.

(** X2.  The third colon-delimited field is read without a check of the
    number of fields: the behaviour of [extractRepeatLengths] is undefined
    exactly when the file opens and the last tab-separated column of the
    matching record has fewer than three colon-delimited fields. *)
Theorem extractRepeatLengths_undefined (fs : FileSystem) (vcfPath repeatId : string) :
  extractRepeatLengths fs vcfPath repeatId = Undefined
  <-> exists lines record,
        fs vcfPath = Some lines
        /\ matchingRecord repeatId lines = Some record
        /\ (List.length (split ":"%char (last (split tab record) EmptyString)) < 3)%nat.
Proof.
  unfold extractRepeatLengths. fold (recordQuery repeatId).
  destruct (fs vcfPath) as [lines|].
  2: { split; [discriminate | intros (l & r & H & _); discriminate]. }
  rewrite scanLines_spec.
  destruct (matchingRecord repeatId lines) as [record|] eqn:Er.
  2: { split; [discriminate|]. intros (l & r & H & Hr & _).
       injection H as <-. congruence. }
  rewrite parseRecord_spec.
  destruct (genotypeField record) as [genotype|] eqn:Eg.
  - split.
    + destruct (String.eqb genotype "./."); [discriminate|].
      intros H. exfalso. revert H. generalize (split "/"%char genotype).
      intros pieces. induction pieces as [|p rest IH]; simpl; [discriminate|].
      destruct (stoi p) eqn:Es; simpl; try discriminate.
      * destruct (mapM stoi rest); simpl; try discriminate. intros _. now apply IH.
      * intros _. unfold stoi in Es.
        destruct (match skip_space p with
                  | String "-"%char rest => (true, rest)
                  | String "+"%char rest => (false, rest)
                  | _ => (false, skip_space p)
                  end) as [negative s2].
        destruct (digits_prefix s2); [discriminate|].
        match type of Es with context [if ?c then _ else _] => destruct c end;
          discriminate.
    + intros (l & r & H & Hr & Hlen). injection H as <-.
      rewrite Er in Hr. injection Hr as <-.
      apply genotypeField_None in Hlen. congruence.
  - split; [|reflexivity]. intros _. exists lines, record.
    repeat split; try assumption. now apply genotypeField_None.
Qed.

(** The outcomes of [extractRepeatLengths], case by case. *)
Lemma extractRepeatLengths_cases (fs : FileSystem) (vcfPath repeatId : string) :
  (forall e,
      extractRepeatLengths fs vcfPath repeatId = Throw e ->
      e = IOError vcfPath \/ e = NotFound repeatId \/ e = MissingGenotype repeatId
      \/ e = invalid_argument "stoi" \/ e = out_of_range "stoi")
  /\ extractRepeatLengths fs vcfPath repeatId <> AssertFail
  /\ extractRepeatLengths fs vcfPath repeatId <> ContractViolation
  /\ (forall sizes,
         extractRepeatLengths fs vcfPath repeatId = Ok sizes ->
         sizes <> []
         /\ Forall (fun size => INT_MIN <= size <= INT_MAX) sizes
         /\ exists lines record genotype,
              fs vcfPath = Some lines
              /\ matchingRecord repeatId lines = Some record
              /\ genotypeField record = Some genotype
              /\ List.length sizes = List.length (split "/"%char genotype)).
Proof.
  assert (Hmap : forall pieces,
             (forall e, mapM stoi pieces = Throw e ->
                        e = invalid_argument "stoi" \/ e = out_of_range "stoi")
             /\ mapM stoi pieces <> AssertFail
             /\ mapM stoi pieces <> ContractViolation).
  { intros pieces. split; [intros e; apply mapM_stoi_throws|].
    induction pieces as [|p rest [IH1 IH2]]; simpl; [split; discriminate|].
    destruct (stoi p) eqn:Es; simpl; try (split; discriminate).
    - destruct (mapM stoi rest); simpl; try (split; discriminate); tauto.
    - exfalso. unfold stoi in Es.
      destruct (match skip_space p with
                | String "-"%char rest => (true, rest)
                | String "+"%char rest => (false, rest)
                | _ => (false, skip_space p)
                end) as [negative s2].
      destruct (digits_prefix s2); [discriminate|].
      match type of Es with context [if ?c then _ else _] => destruct c end;
        discriminate.
    - exfalso. unfold stoi in Es.
      destruct (match skip_space p with
                | String "-"%char rest => (true, rest)
                | String "+"%char rest => (false, rest)
                | _ => (false, skip_space p)
                end) as [negative s2].
      destruct (digits_prefix s2); [discriminate|].
      match type of Es with context [if ?c then _ else _] => destruct c end;
        discriminate. }
  unfold extractRepeatLengths. fold (recordQuery repeatId).
  destruct (fs vcfPath) as [lines|].
  2: { repeat split; try discriminate. intros e H. injection H as <-. now left. }
  rewrite scanLines_spec.
  destruct (matchingRecord repeatId lines) as [record|] eqn:Er.
  2: { repeat split; try discriminate. intros e H. injection H as <-. tauto. }
  rewrite parseRecord_spec.
  destruct (genotypeField record) as [genotype|] eqn:Eg.
  2: { repeat split; discriminate. }
  destruct (String.eqb genotype "./.").
  { repeat split; try discriminate. intros e H. injection H as <-. tauto. }
  destruct (Hmap (split "/"%char genotype)) as (Ht & Ha & Hc).
  split; [intros e He; destruct (Ht e He); tauto|].
  split; [exact Ha|]. split; [exact Hc|].
  intros sizes H. apply mapM_Ok_inv in H.
  split; [|split].
  - intros ->. inversion H as [Hs|]; subst.
    symmetry in Hs. now apply split_not_nil in Hs.
  - clear - H. induction H as [|p v ps vs Hpv _ IH]; constructor; [|exact IH].
    now apply stoi_in_range in Hpv.
  - exists lines, record, genotype. repeat split; try assumption.
    symmetry. eapply Forall2_length. exact H.
Qed.

(** X3.  The exceptions that leave [extractRepeatLengths] are the three
    runtime errors it throws itself and the two of [std::stoi]; it never
    aborts on an assertion.  What it returns is never empty: there is one
    integer per slash-separated piece of the genotype field, and every one
    fits an [int]. *)
Theorem extractRepeatLengths_outcomes (fs : FileSystem) (vcfPath repeatId : string) :
  (forall e,
      extractRepeatLengths fs vcfPath repeatId = Throw e ->
      e = IOError vcfPath \/ e = NotFound repeatId \/ e = MissingGenotype repeatId
      \/ e = invalid_argument "stoi" \/ e = out_of_range "stoi")
  /\ extractRepeatLengths fs vcfPath repeatId <> AssertFail
  /\ extractRepeatLengths fs vcfPath repeatId <> ContractViolation
  /\ (forall sizes,
         extractRepeatLengths fs vcfPath repeatId = Ok sizes ->
         sizes <> []
         /\ Forall (fun size => INT_MIN <= size <= INT_MAX) sizes
         /\ exists lines record genotype,
              fs vcfPath = Some lines
              /\ matchingRecord repeatId lines = Some record
              /\ genotypeField record = Some genotype
              /\ List.length sizes = List.length (split "/"%char genotype)).
Proof. intros; eapply extractRepeatLengths_cases; eassumption. Qed.

(** ** The node range of a variant *)

Lemma nodeRange_fold (variantNodes : list NodeId) (from to from' to' : NodeId) :
  fold_left
    (fun '(nodeRangeFrom, nodeRangeTo) node =>
       if node =? NodeId_minus_one then (nodeRangeFrom, nodeRangeTo)
       else (Z.min nodeRangeFrom node, Z.max nodeRangeTo node))
    variantNodes (from, to) = (from', to') ->
  from' <= from /\ to <= to'
  /\ (forall n, In n variantNodes -> n <> NodeId_minus_one -> from' <= n <= to')
  /\ (from' = from \/ In from' variantNodes)
  /\ (to' = to \/ In to' variantNodes)
  /\ ((forall n, In n variantNodes -> n = NodeId_minus_one) -> from' = from /\ to' = to).
Proof.
  revert from to. induction variantNodes as [|node rest IH]; intros from to; simpl.
  - intros H. injection H as <- <-. repeat split; try lia; try tauto.
  - destruct (node =? NodeId_minus_one) eqn:E; intros H.
    + apply Z.eqb_eq in E.
      destruct (IH from to H) as (H1 & H2 & H3 & H4 & H5 & H6).
      split; [exact H1|]. split; [exact H2|]. split; [|split; [|split]].
      * intros n [<-|Hn] Hne; [contradiction | apply (H3 n Hn Hne)].
      * tauto.
      * tauto.
      * intros Hall. apply H6. intros n Hn. apply Hall. now right.
    + apply Z.eqb_neq in E.
      destruct (IH _ _ H) as (H1 & H2 & H3 & H4 & H5 & H6).
      split; [lia|]. split; [lia|]. split; [|split; [|split]].
      * intros n [<-|Hn] Hne; [lia | apply (H3 n Hn Hne)].
      * destruct H4 as [H4|H4]; [|tauto].
        destruct (Z.min_spec from node) as [[_ Hm]|[_ Hm]]; rewrite Hm in H4; auto.
      * destruct H5 as [H5|H5]; [|tauto].
        destruct (Z.max_spec to node) as [[_ Hm]|[_ Hm]]; rewrite Hm in H5; auto.
      * intros Hall. exfalso. apply E, Hall. now left.
Qed.

(** X4.  The node range computed for a variant contains every node of the
    variant other than the marker of an absent node.  When all its nodes
    are that marker (or it has none), the range is the empty one, from the
    largest to the lowest node id, and contains no node at all.  When the
    nodes are values of [NodeId] and one of them is not the marker, both
    ends of the range are nodes of the variant. *)
Theorem nodeRangeOf_spec (variantNodes : list NodeId) :
  (forall n, In n variantNodes -> n <> NodeId_minus_one ->
             inRange (nodeRangeOf variantNodes) n = true)
  /\ ((forall n, In n variantNodes -> n = NodeId_minus_one) ->
      nodeRangeOf variantNodes = (NodeId_max, NodeId_lowest)
      /\ forall node, inRange (nodeRangeOf variantNodes) node = false)
  /\ (Forall (fun n => 0 <= n < NodeId_modulus) variantNodes ->
      (exists n, In n variantNodes /\ n <> NodeId_minus_one) ->
      In (fst (nodeRangeOf variantNodes)) variantNodes
      /\ In (snd (nodeRangeOf variantNodes)) variantNodes).
Proof.
  destruct (nodeRangeOf variantNodes) as [from' to'] eqn:Er.
  unfold nodeRangeOf in Er.
  destruct (nodeRange_fold _ _ _ _ _ Er) as (H1 & H2 & H3 & H4 & H5 & H6).
  cbn [fst snd].
  split; [|split].
  - intros n Hn Hne. unfold inRange. specialize (H3 n Hn Hne). cbn [fst snd].
    apply andb_true_iff. split; apply Z.leb_le; lia.
  - intros Hall. destruct (H6 Hall) as [-> ->]. split; [reflexivity|].
    intros node. unfold inRange, NodeId_max, NodeId_lowest. cbn [fst snd].
    destruct (4294967295 <=? node) eqn:E1; [|reflexivity].
    apply Z.leb_le in E1. simpl. apply Z.leb_gt. lia.
  - intros Hrange (n & Hn & Hne). specialize (H3 n Hn Hne).
    rewrite Forall_forall in Hrange. specialize (Hrange n Hn).
    unfold NodeId_minus_one in Hne.
    unfold NodeId_modulus, NodeId_max, NodeId_lowest in *.
    change ((-1) mod 4294967296) with 4294967295 in Hne.
    split.
    + destruct H4 as [H4|H4]; [exfalso; lia | exact H4].
    + destruct H5 as [H5|H5]; [|exact H5].
      assert (n = 0) by lia. subst n. now rewrite H5.
Qed.

Lemma nodeRangeOf_spec_witness :
  In (fst (nodeRangeOf [4; 4294967295; 2])) [4; 4294967295; 2]
  /\ In (snd (nodeRangeOf [4; 4294967295; 2])) [4; 4294967295; 2].
Proof.
  apply (proj2 (proj2 (nodeRangeOf_spec [4; 4294967295; 2]))).
  - repeat constructor; vm_compute; try discriminate; reflexivity.
  - exists 4. split; [now left | vm_compute; discriminate].
Defined.

(** ** getVariantGenotypeNodes *)

(** The outcomes of [getVariantGenotypeNodes], case by case. *)
Lemma getVariantGenotypeNodes_cases (m : NodeRangeMap) (node : NodeId) :
  (forall alleles lastNode,
      getVariantGenotypeNodes m node = Ok (Some (alleles, lastNode)) <->
      exists before from after,
        m = before ++ ((from, lastNode), alleles) :: after
        /\ Forall (fun entry => inRange (fst entry) node = false) before
        /\ from <= node <= lastNode
        /\ (List.length alleles <= 2)%nat)
  /\ (getVariantGenotypeNodes m node = Ok None <->
      Forall (fun entry => inRange (fst entry) node = false) m)
  /\ (getVariantGenotypeNodes m node = AssertFail <->
      exists before nodeRange alleles after,
        m = before ++ (nodeRange, alleles) :: after
        /\ Forall (fun entry => inRange (fst entry) node = false) before
        /\ inRange nodeRange node = true
        /\ (2 < List.length alleles)%nat)
  /\ (forall e, getVariantGenotypeNodes m node <> Throw e)
  /\ getVariantGenotypeNodes m node <> Undefined.
Proof.
  induction m as [|[[from to] paths] rest (IH1 & IH2 & IH3 & IH4 & IH5)].
  - simpl. split; [|split; [|split; [|split]]]; try discriminate.
    + intros alleles lastNode. split; [discriminate|].
      intros (before & f & after & H & _). destruct before; discriminate.
    + split; constructor.
    + split; [discriminate|].
      intros (before & r & a & after & H & _). destruct before; discriminate.
  - cbn [getVariantGenotypeNodes fst snd].
    change ((from <=? node) && (node <=? to))%bool with (inRange (from, to) node).
    destruct (inRange (from, to) node) eqn:E.
    + assert (Hb : from <= node <= to).
      { unfold inRange in E. apply andb_true_iff in E as [E1 E2].
        apply Z.leb_le in E1, E2. simpl in *. lia. }
      assert (Hhead : forall (before : NodeRangeMap) entry after,
                 (((from, to), paths) :: rest) = before ++ entry :: after ->
                 Forall (fun e => inRange (fst e) node = false) before ->
                 before = [] /\ entry = ((from, to), paths) /\ after = rest).
      { intros before entry after H Hall. destruct before as [|b before].
        - simpl in H. injection H as <- <-. auto.
        - simpl in H. injection H as <- _. inversion Hall; subst.
          simpl in *. congruence. }
      destruct (Nat.leb (List.length paths) 2) eqn:El; cbn [assert].
      * apply Nat.leb_le in El.
        split; [|split; [|split; [|split]]]; try discriminate.
        -- intros alleles lastNode. split.
           ++ intros H. injection H as <- <-. exists [], from, rest.
              split; [reflexivity|]. split; [constructor|]. split; [exact Hb | exact El].
           ++ intros (before & f & after & H & Hall & _).
              destruct (Hhead _ _ _ H Hall) as (_ & He & _).
              injection He as _ <- <-. reflexivity.
        -- split; [discriminate|]. intros H. inversion H; subst.
           simpl in *. congruence.
        -- split; [discriminate|].
           intros (before & r & a & after & H & Hall & _ & Hlen).
           destruct (Hhead _ _ _ H Hall) as (_ & He & _).
           injection He as _ <-. lia.
      * apply Nat.leb_gt in El.
        split; [|split; [|split; [|split]]]; try discriminate.
        -- intros alleles lastNode. split; [discriminate|].
           intros (before & f & after & H & Hall & _ & Hlen).
           destruct (Hhead _ _ _ H Hall) as (_ & He & _).
           injection He as _ _ <-. lia.
        -- split; [discriminate|]. intros H. inversion H; subst.
           simpl in *. congruence.
        -- split; [intros _|reflexivity].
           exists [], (from, to), paths, rest.
           split; [reflexivity|]. split; [constructor|]. split; [exact E | exact El].
    + split; [|split; [|split; [|split]]]; try assumption.
      * intros alleles lastNode. rewrite IH1. split.
        -- intros (before & f & after & -> & Hall & Hb & Hlen).
           exists (((from, to), paths) :: before), f, after.
           repeat split; try assumption; try lia. constructor; assumption.
        -- intros (before & f & after & H & Hall & Hb & Hlen).
           destruct before as [|b before].
           ++ simpl in H. injection H as <- <- <- <-.
              unfold inRange in E. simpl in E.
              apply andb_false_iff in E as [E|E]; apply Z.leb_gt in E; lia.
           ++ simpl in H. injection H as <- ->. inversion Hall; subst.
              exists before, f, after. repeat split; try assumption; lia.
      * rewrite IH2. split; [intros H; constructor; assumption|].
        intros H. inversion H; assumption.
      * rewrite IH3. split.
        -- intros (before & r & a & after & -> & Hall & Hin & Hlen).
           exists (((from, to), paths) :: before), r, a, after.
           repeat split; try assumption. constructor; assumption.
        -- intros (before & r & a & after & H & Hall & Hin & Hlen).
           destruct before as [|b before].
           ++ simpl in H. injection H as <- <- <-. congruence.
           ++ simpl in H. injection H as <- ->. inversion Hall; subst.
              exists before, r, a, after. repeat split; assumption.
Qed.

(** X5.  [getVariantGenotypeNodes] returns the alleles and the last node
    of the first region, in the order of the keys of the map, that contains
    the node, provided it has at most two alleles; with more alleles the
    assertion fails.  It returns nothing exactly when no region of the map
    contains the node, and it never throws. *)
Theorem getVariantGenotypeNodes_first_region (m : NodeRangeMap) (node : NodeId) :
  (forall alleles lastNode,
      getVariantGenotypeNodes m node = Ok (Some (alleles, lastNode)) <->
      exists before from after,
        m = before ++ ((from, lastNode), alleles) :: after
        /\ Forall (fun entry => inRange (fst entry) node = false) before
        /\ from <= node <= lastNode
        /\ (List.length alleles <= 2)%nat)
  /\ (getVariantGenotypeNodes m node = Ok None <->
      Forall (fun entry => inRange (fst entry) node = false) m)
  /\ (getVariantGenotypeNodes m node = AssertFail <->
      exists before nodeRange alleles after,
        m = before ++ (nodeRange, alleles) :: after
        /\ Forall (fun entry => inRange (fst entry) node = false) before
        /\ inRange nodeRange node = true
        /\ (2 < List.length alleles)%nat)
  /\ (forall e, getVariantGenotypeNodes m node <> Throw e)
  /\ getVariantGenotypeNodes m node <> Undefined.
Proof. intros; eapply getVariantGenotypeNodes_cases; eassumption. Qed.

(** ** extendDiplotype *)

Lemma extendGenotype_cases (genotype genotypeExtension : NodeVectors) :
  (extensible genotypeExtension genotype ->
   exists children,
     extendGenotype genotype genotypeExtension = Ok children
     /\ List.length children = List.length genotypeExtension
     /\ Forall (fun child => List.length child = List.length genotypeExtension) children)
  /\ (~ extensible genotypeExtension genotype ->
      extendGenotype genotype genotypeExtension = AssertFail).
Proof.
  unfold extensible, extendGenotype. split.
  - intros [Hlen Hcount]. rewrite Hlen, Nat.eqb_refl. cbn [assert].
    rewrite Hlen in Hcount.
    destruct genotype as [|h1 [|h2 [|h3 rest]]];
      destruct genotypeExtension as [|a1 [|a2 [|a3 ext]]];
      simpl in Hlen, Hcount; try discriminate; try lia.
    + eexists. split; [reflexivity|]. split; [reflexivity | repeat constructor].
    + eexists. split; [reflexivity|]. split; [reflexivity | repeat constructor].
  - intros Hnot.
    destruct (Nat.eqb (List.length genotype) (List.length genotypeExtension)) eqn:E;
      [|reflexivity].
    apply Nat.eqb_eq in E. cbn [assert].
    destruct (Nat.eqb (List.length genotype) 1) eqn:E1.
    + apply Nat.eqb_eq in E1. exfalso. apply Hnot. auto.
    + destruct (Nat.eqb (List.length genotype) 2) eqn:E2; [|reflexivity].
      apply Nat.eqb_eq in E2. exfalso. apply Hnot. auto.
Qed.

Lemma extensible_dec (genotypeExtension genotype : NodeVectors) :
  {extensible genotypeExtension genotype} + {~ extensible genotypeExtension genotype}.
Proof.
  unfold extensible.
  destruct (Nat.eq_dec (List.length genotype) (List.length genotypeExtension));
    [|right; tauto].
  destruct (Nat.eq_dec (List.length genotype) 1); [left; tauto|].
  destruct (Nat.eq_dec (List.length genotype) 2); [left; tauto|].
  right. tauto.
Qed.

(** When [extendDiplotype] returns and when its assertions fail. *)
Lemma extendDiplotype_cases
    (genotypes : list NodeVectors) (genotypeExtension : NodeVectors) :
  (Forall (extensible genotypeExtension) genotypes ->
   exists extended,
     extendDiplotype genotypes genotypeExtension = Ok extended
     /\ List.length extended
        = (List.length genotypes * List.length genotypeExtension)%nat
     /\ Forall (fun child => List.length child = List.length genotypeExtension)
               extended)
  /\ (~ Forall (extensible genotypeExtension) genotypes ->
      extendDiplotype genotypes genotypeExtension = AssertFail).
Proof.
  induction genotypes as [|genotype rest [IHok IHfail]].
  - split.
    + intros _. exists []. repeat split. constructor.
    + intros H. exfalso. apply H. constructor.
  - split.
    + intros Hall. inversion Hall as [|? ? Hg Hrest]; subst.
      destruct (proj1 (extendGenotype_cases genotype genotypeExtension) Hg)
        as (children & Hc & Hlen & Hch).
      destruct (IHok Hrest) as (extended & He & Hl & Hall').
      exists (children ++ extended). cbn [extendDiplotype]. rewrite Hc, He.
      split; [reflexivity|]. split.
      * rewrite length_app, Hlen, Hl. simpl. lia.
      * apply Forall_app. auto.
    + intros Hnot. cbn [extendDiplotype].
      destruct (extensible_dec genotypeExtension genotype) as [Hg|Hg].
      * destruct (proj1 (extendGenotype_cases genotype genotypeExtension) Hg)
          as (children & Hc & _).
        rewrite Hc. cbn [bind]. rewrite IHfail; [reflexivity|].
        intros Hrest. apply Hnot. constructor; assumption.
      * now rewrite (proj2 (extendGenotype_cases genotype genotypeExtension) Hg).
Qed.

(** X6.  [extendDiplotype] either returns or fails on an assertion.  It
    returns exactly when every candidate has as many haplotypes as the
    extension has alleles, one or two; each candidate then has as many
    children as there are alleles, in the order of the candidates, and
    every child has as many haplotypes as its parent. *)
Theorem extendDiplotype_consistency
    (genotypes : list NodeVectors) (genotypeExtension : NodeVectors) :
  (Forall (extensible genotypeExtension) genotypes ->
   exists extended,
     extendDiplotype genotypes genotypeExtension = Ok extended
     /\ List.length extended
        = (List.length genotypes * List.length genotypeExtension)%nat
     /\ Forall (fun child => List.length child = List.length genotypeExtension)
               extended)
  /\ (~ Forall (extensible genotypeExtension) genotypes ->
      extendDiplotype genotypes genotypeExtension = AssertFail).
Proof. intros; eapply extendDiplotype_cases; eassumption. Qed.

Lemma extendDiplotype_consistency_witness :
  exists extended,
    extendDiplotype [[[0]; [0]]; [[0; 1]; [0; 1; 1]]] [[2]; [2; 2]] = Ok extended
    /\ List.length extended
       = (List.length [[[0]; [0]]; [[0; 1]; [0; 1; 1]]] * List.length [[2]; [2; 2]])%nat
    /\ Forall (fun child => List.length child = List.length [[2]; [2; 2]]) extended.
Proof.
  apply (proj1 (extendDiplotype_consistency
                  [[[0]; [0]]; [[0; 1]; [0; 1; 1]]] [[2]; [2; 2]])).
  apply Forall_forall. intros genotype [<-|[<-|[]]];
    (split; [reflexivity | right; reflexivity]).
Defined.

(** ** The map of node ranges *)

Lemma NodeRange_lt_strict_total : strict_total NodeRange_lt.
Proof.
  apply (strict_total_by_key (fun r : NodeRange => r) (lex_pair Z.ltb Z.ltb)).
  - auto.
  - apply lex_pair_strict_total; apply Zltb_strict_total.
Qed.

Lemma map_emplace_In_old (key : NodeRange) (value : NodeVectors) (m : NodeRangeMap)
    (entry : NodeRange * NodeVectors) :
  In entry m -> In entry (map_emplace key value m).
Proof.
  induction m as [|[k v] rest IH]; simpl; [tauto|].
  destruct (NodeRange_lt key k); [simpl; tauto|].
  destruct (NodeRange_lt k key); simpl; tauto.
Qed.

Lemma map_emplace_In_inv (key : NodeRange) (value : NodeVectors) (m : NodeRangeMap)
    (entry : NodeRange * NodeVectors) :
  In entry (map_emplace key value m) -> In entry m \/ entry = (key, value).
Proof.
  induction m as [|[k v] rest IH]; simpl.
  - intros [<-|[]]. now right.
  - destruct (NodeRange_lt key k); [simpl; intuition congruence|].
    destruct (NodeRange_lt k key); simpl; [|tauto].
    intros [H|H]; [tauto|]. destruct (IH H); tauto.
Qed.

Lemma map_emplace_In_new (key : NodeRange) (value : NodeVectors) (m : NodeRangeMap) :
  (forall other, ~ In (key, other) m) -> In (key, value) (map_emplace key value m).
Proof.
  induction m as [|[k v] rest IH]; simpl; intros Hnew; [now left|].
  destruct (NodeRange_lt key k) eqn:E1; [now left|].
  destruct (NodeRange_lt k key) eqn:E2.
  - right. apply IH. intros other Hin. apply (Hnew other). now right.
  - exfalso. apply (Hnew v). left. f_equal.
    apply (st_total _ NodeRange_lt_strict_total); assumption.
Qed.

Lemma map_emplace_length (key : NodeRange) (value : NodeVectors) (m : NodeRangeMap) :
  (List.length (map_emplace key value m) <= S (List.length m))%nat.
Proof.
  induction m as [|[k v] rest IH]; simpl; [lia|].
  destruct (NodeRange_lt key k); [simpl; lia|].
  destruct (NodeRange_lt k key); simpl; lia.
Qed.

Lemma map_emplace_keysIncreasing (key : NodeRange) (value : NodeVectors) (m : NodeRangeMap) :
  keysIncreasing m -> keysIncreasing (map_emplace key value m).
Proof.
  unfold keysIncreasing. induction 1 as [|[k v] rest Hs IH Hall]; simpl.
  - repeat constructor.
  - destruct (NodeRange_lt key k) eqn:E1.
    + constructor; [constructor; assumption|].
      constructor; [exact E1|].
      eapply Forall_impl; [|exact Hall]. intros entry Hk. simpl in *.
      eapply (st_trans _ NodeRange_lt_strict_total); eassumption.
    + destruct (NodeRange_lt k key) eqn:E2.
      * constructor; [exact IH|].
        apply Forall_forall. intros entry Hin.
        apply map_emplace_In_inv in Hin as [Hin| ->]; [|exact E2].
        rewrite Forall_forall in Hall. now apply Hall.
      * constructor; assumption.
Qed.

Lemma keysIncreasing_functional (m : NodeRangeMap) (key : NodeRange)
    (value value' : NodeVectors) :
  keysIncreasing m -> In (key, value) m -> In (key, value') m -> value = value'.
Proof.
  unfold keysIncreasing. induction 1 as [|[k v] rest Hs IH Hall]; simpl; [tauto|].
  rewrite Forall_forall in Hall.
  intros [H1|H1] [H2|H2].
  - congruence.
  - injection H1 as -> ->. specialize (Hall _ H2). simpl in Hall.
    rewrite (st_irrefl _ NodeRange_lt_strict_total) in Hall. discriminate.
  - injection H2 as -> ->. specialize (Hall _ H1). simpl in Hall.
    rewrite (st_irrefl _ NodeRange_lt_strict_total) in Hall. discriminate.
  - now apply IH.
Qed.

Lemma genotypeNodesOf_shape (meanFragLen : Z) (repeatNode : NodeId)
    (repeatLens : list Z) (genotypeNodes : NodeVectors) :
  genotypeNodesOf meanFragLen repeatNode repeatLens = Ok genotypeNodes ->
  List.length genotypeNodes = List.length repeatLens
  /\ Forall2 (fun len allele =>
                0 <= Z.min meanFragLen len
                /\ allele = repeat repeatNode (Z.to_nat (Z.min meanFragLen len)))
             repeatLens genotypeNodes.
Proof.
  unfold genotypeNodesOf. rewrite (proj1 (capLengths_facts meanFragLen repeatLens)).
  intros H. apply mapM_Ok_inv in H.
  assert (Hshape : Forall2 (fun len allele =>
                              0 <= Z.min meanFragLen len
                              /\ allele = repeat repeatNode (Z.to_nat (Z.min meanFragLen len)))
                           repeatLens genotypeNodes).
  { revert genotypeNodes H. induction repeatLens as [|len rest IH];
      intros genotypeNodes H; inversion H as [|? allele ? alleles Hfill Hrest]; subst;
      constructor; [|now apply IH].
    unfold NodeVector_fill in Hfill.
    destruct (Z.min meanFragLen len <? 0) eqn:E; [discriminate|].
    apply Z.ltb_ge in E. injection Hfill as <-. auto. }
  split; [|exact Hshape]. symmetry. eapply Forall2_length. exact Hshape.
Qed.

Lemma genotypeNodesOfVariant_Ok_inv (fs : FileSystem) (meanFragLen : Z) (vcfPath : string)
    (variantSpec : VariantSpecification) (m m' : NodeRangeMap) :
  genotypeNodesOfVariant fs meanFragLen vcfPath variantSpec m = Ok m' ->
  exists repeatNode repeatLens genotypeNodes,
    classification_type variantSpec = kRepeat
    /\ nodes variantSpec = [repeatNode]
    /\ extractRepeatLengths fs vcfPath (id variantSpec) = Ok repeatLens
    /\ genotypeNodesOf meanFragLen repeatNode repeatLens = Ok genotypeNodes
    /\ (List.length genotypeNodes <= 2)%nat
    /\ m' = map_emplace (nodeRangeOf [repeatNode]) genotypeNodes m.
Proof.
  unfold genotypeNodesOfVariant.
  destruct (classification_type variantSpec); [|discriminate].
  intros H. apply assert_Ok_inv in H as [Hone H]. apply Nat.eqb_eq in Hone.
  destruct (nodes variantSpec) as [|repeatNode [|other rest]] eqn:En; try discriminate.
  cbn [at_index nth_error bind] in H.
  apply bind_Ok_inv in H as (repeatLens & Hlens & H).
  apply bind_Ok_inv in H as (genotypeNodes & Hnodes & H).
  apply assert_Ok_inv in H as [Htwo H]. apply Nat.leb_le in Htwo.
  injection H as <-.
  exists repeatNode, repeatLens, genotypeNodes. repeat split; assumption.
Qed.

Lemma genotypeNodesLoop_entries (fs : FileSystem) (meanFragLen : Z) (vcfPath : string)
    (specs : list VariantSpecification) (m m' : NodeRangeMap) :
  genotypeNodesLoop fs meanFragLen vcfPath specs m = Ok m' ->
  (forall entry, In entry m -> In entry m')
  /\ (forall entry, In entry m' ->
        In entry m
        \/ exists variantSpec,
             In variantSpec specs
             /\ entryOfVariant fs meanFragLen vcfPath variantSpec entry)
  /\ (keysIncreasing m -> keysIncreasing m')
  /\ (List.length m' <= List.length m + List.length specs)%nat.
Proof.
  revert m. induction specs as [|v rest IH]; intros m H.
  - injection H as <-. repeat split; auto. simpl. lia.
  - cbn [genotypeNodesLoop] in H. apply bind_Ok_inv in H as (m1 & H1 & H).
    destruct (IH m1 H) as (Hold & Hnew & Hkeys & Hlen).
    apply genotypeNodesOfVariant_Ok_inv in H1
      as (n & lens & alleles & Htype & Hn & Hlens & Halleles & Htwo & ->).
    split; [|split; [|split]].
    + intros entry Hin. apply Hold. now apply map_emplace_In_old.
    + intros entry Hin. destruct (Hnew entry Hin) as [Hin1|(u & Hu & He)].
      * apply map_emplace_In_inv in Hin1 as [Hin1| ->]; [now left|].
        right. exists v. split; [now left|].
        exists n, lens. split; [assumption|]. split; [assumption|].
        split; [assumption|]. split; [assumption|]. split; [exact Htwo | reflexivity].
      * right. exists u. split; [now right | assumption].
    + intros Hm. apply Hkeys. now apply map_emplace_keysIncreasing.
    + pose proof (map_emplace_length (nodeRangeOf [n]) alleles m). simpl. lia.
Qed.

(** The shape of the map of node ranges. *)
Lemma getGenotypeNodesByNodeRange_facts
    (fs : FileSystem) (meanFragLen : Z) (vcfPath : string)
    (locusSpec : LocusSpecification) (m : NodeRangeMap) :
  getGenotypeNodesByNodeRange fs meanFragLen vcfPath locusSpec = Ok m ->
  keysIncreasing m
  /\ (List.length m <= List.length (variantSpecs locusSpec))%nat
  /\ (forall nodeRange alleles,
         In (nodeRange, alleles) m ->
         exists variantSpec repeatNode repeatLens,
           In variantSpec (variantSpecs locusSpec)
           /\ classification_type variantSpec = kRepeat
           /\ nodes variantSpec = [repeatNode]
           /\ nodeRange = nodeRangeOf [repeatNode]
           /\ extractRepeatLengths fs vcfPath (id variantSpec) = Ok repeatLens
           /\ (1 <= List.length alleles <= 2)%nat
           /\ Forall2 (fun len allele =>
                         0 <= Z.min meanFragLen len
                         /\ allele
                            = repeat repeatNode (Z.to_nat (Z.min meanFragLen len)))
                      repeatLens alleles).
Proof.
  unfold getGenotypeNodesByNodeRange. intros H.
  destruct (genotypeNodesLoop_entries _ _ _ _ _ _ H) as (_ & Hnew & Hkeys & Hlen).
  split; [apply Hkeys; constructor|]. split; [simpl in Hlen; lia|].
  intros nodeRange alleles Hin.
  destruct (Hnew _ Hin)
    as [[]|(v & Hv & n & lens & Htype & Hn & Hlens & Halleles & Htwo & Hkey)].
  simpl in Halleles, Hkey, Htwo.
  exists v, n, lens.
  destruct (genotypeNodesOf_shape _ _ _ _ Halleles) as [Hl Hshape].
  destruct (proj2 (proj2 (proj2 (extractRepeatLengths_cases fs vcfPath (id v))))
              lens Hlens) as (Hne & _).
  split; [assumption|]. split; [assumption|]. split; [assumption|].
  split; [assumption|]. split; [assumption|]. split; [|exact Hshape].
  split; [|exact Htwo]. rewrite Hl. destruct lens; [congruence | simpl; lia].
Qed.

(** X7.  The map that [getGenotypeNodesByNodeRange] returns has its keys in
    strictly increasing order and at most one region per variant of the
    locus.  Every region comes from a repeat variant with a single node: its
    key is the node range of that node, it has one or two alleles, and every
    allele is the repeat node copied as many times as the smaller of the
    fragment-length bound and a length read from the call file, a number
    that is not negative. *)
Theorem getGenotypeNodesByNodeRange_regions
    (fs : FileSystem) (meanFragLen : Z) (vcfPath : string)
    (locusSpec : LocusSpecification) (m : NodeRangeMap) :
  getGenotypeNodesByNodeRange fs meanFragLen vcfPath locusSpec = Ok m ->
  keysIncreasing m
  /\ (List.length m <= List.length (variantSpecs locusSpec))%nat
  /\ (forall nodeRange alleles,
         In (nodeRange, alleles) m ->
         exists variantSpec repeatNode repeatLens,
           In variantSpec (variantSpecs locusSpec)
           /\ classification_type variantSpec = kRepeat
           /\ nodes variantSpec = [repeatNode]
           /\ nodeRange = nodeRangeOf [repeatNode]
           /\ extractRepeatLengths fs vcfPath (id variantSpec) = Ok repeatLens
           /\ (1 <= List.length alleles <= 2)%nat
           /\ Forall2 (fun len allele =>
                         0 <= Z.min meanFragLen len
                         /\ allele
                            = repeat repeatNode (Z.to_nat (Z.min meanFragLen len)))
                      repeatLens alleles).
Proof. intros; eapply getGenotypeNodesByNodeRange_facts; eassumption. Qed.

Lemma getGenotypeNodesByNodeRange_regions_witness :
  keysIncreasing [((1, 1), [[1; 1; 1]; [1; 1; 1; 1]])]
  /\ (List.length [((1, 1), [[1; 1; 1]; [1; 1; 1; 1]])]
      <= List.length (variantSpecs exampleLocus))%nat.
Proof.
  destruct (getGenotypeNodesByNodeRange_regions
              exampleFiles 150 "sample.vcf" exampleLocus
              [((1, 1), [[1; 1; 1]; [1; 1; 1; 1]])]) as (H1 & H2 & _).
  - vm_compute. reflexivity.
  - split; assumption.
Defined.

(** X8.  [emplace] never replaces an entry: the region of a variant holds
    the alleles of the first variant, in the order of the locus, that has
    this node range; a later variant with the same range leaves the map as
    it is. *)
Theorem first_variant_of_a_range_wins
    (fs : FileSystem) (meanFragLen : Z) (vcfPath : string)
    (locusSpec : LocusSpecification) (m : NodeRangeMap)
    (before after : list VariantSpecification) (variantSpec : VariantSpecification) :
  getGenotypeNodesByNodeRange fs meanFragLen vcfPath locusSpec = Ok m ->
  variantSpecs locusSpec = before ++ variantSpec :: after ->
  (forall earlier, In earlier before ->
                   nodeRangeOf (nodes earlier) <> nodeRangeOf (nodes variantSpec)) ->
  exists repeatNode repeatLens alleles,
    nodes variantSpec = [repeatNode]
    /\ extractRepeatLengths fs vcfPath (id variantSpec) = Ok repeatLens
    /\ genotypeNodesOf meanFragLen repeatNode repeatLens = Ok alleles
    /\ In (nodeRangeOf (nodes variantSpec), alleles) m
    /\ forall others, In (nodeRangeOf (nodes variantSpec), others) m -> others = alleles.
Proof.
  unfold getGenotypeNodesByNodeRange. intros H Hspecs Hfirst.
  pose proof (genotypeNodesLoop_entries _ _ _ _ _ _ H) as (_ & _ & Hkeys & _).
  specialize (Hkeys (SSorted_nil _)).
  rewrite Hspecs, genotypeNodesLoop_app in H.
  apply bind_Ok_inv in H as (m1 & H1 & H).
  cbn [genotypeNodesLoop] in H. apply bind_Ok_inv in H as (m2 & H2 & H).
  apply genotypeNodesOfVariant_Ok_inv in H2
    as (n & lens & alleles & Htype & Hn & Hlens & Halleles & Htwo & ->).
  exists n, lens, alleles. repeat split; try assumption.
  - destruct (genotypeNodesLoop_entries _ _ _ _ _ _ H) as (Hold & _).
    apply Hold. rewrite Hn. apply map_emplace_In_new.
    intros other Hin.
    destruct (genotypeNodesLoop_entries _ _ _ _ _ _ H1) as (_ & Hnew & _).
    destruct (Hnew _ Hin) as [[]|(u & Hu & n' & lens' & _ & Hn' & _ & _ & _ & Hkey)].
    simpl in Hkey. apply (Hfirst u Hu). rewrite Hn, Hn'. now symmetry.
  - intros others Hin. symmetry.
    apply (keysIncreasing_functional m (nodeRangeOf (nodes variantSpec))); try assumption.
    destruct (genotypeNodesLoop_entries _ _ _ _ _ _ H) as (Hold & _).
    apply Hold. rewrite Hn. apply map_emplace_In_new.
    intros other Hin'.
    destruct (genotypeNodesLoop_entries _ _ _ _ _ _ H1) as (_ & Hnew & _).
    destruct (Hnew _ Hin') as [[]|(u & Hu & n' & lens' & _ & Hn' & _ & _ & _ & Hkey)].
    simpl in Hkey. apply (Hfirst u Hu). rewrite Hn, Hn'. now symmetry.
Qed.

Lemma first_variant_of_a_range_wins_witness :
  exists repeatNode repeatLens alleles,
    nodes (mkVariantSpecification "A" kRepeat [1]) = [repeatNode]
    /\ extractRepeatLengths twoRecordFiles "two.vcf"
         (id (mkVariantSpecification "A" kRepeat [1])) = Ok repeatLens
    /\ genotypeNodesOf 150 repeatNode repeatLens = Ok alleles
    /\ In (nodeRangeOf (nodes (mkVariantSpecification "A" kRepeat [1])), alleles)
          [((1, 1), [[1; 1; 1]; [1; 1; 1; 1]])]
    /\ forall others,
         In (nodeRangeOf (nodes (mkVariantSpecification "A" kRepeat [1])), others)
            [((1, 1), [[1; 1; 1]; [1; 1; 1; 1]])] ->
         others = alleles.
Proof.
  apply (first_variant_of_a_range_wins twoRecordFiles 150 "two.vcf" sharedNodeLocus
           [((1, 1), [[1; 1; 1]; [1; 1; 1; 1]])]
           [] [mkVariantSpecification "B" kRepeat [1]]
           (mkVariantSpecification "A" kRepeat [1])).
  - vm_compute. reflexivity.
  - reflexivity.
  - intros earlier [].
Defined.

(** ** The haplotypes the walk builds *)

Lemma extendDiplotype_children (genotypes : list NodeVectors)
    (genotypeExtension : NodeVectors) (extended : list NodeVectors) :
  extendDiplotype genotypes genotypeExtension = Ok extended ->
  Forall (fun child =>
            Forall (fun haplotype' =>
                      exists genotype haplotype allele,
                        In genotype genotypes /\ In haplotype genotype
                        /\ In allele genotypeExtension
                        /\ haplotype' = haplotype ++ allele)
                   child)
         extended.
Proof.
  revert extended. induction genotypes as [|genotype rest IH]; intros extended H.
  - injection H as <-. constructor.
  - cbn [extendDiplotype] in H. apply bind_Ok_inv in H as (children & Hc & H).
    apply bind_Ok_inv in H as (others & Ho & H). injection H as <-.
    apply Forall_app. split.
    + unfold extendGenotype in Hc. apply assert_Ok_inv in Hc as [Hlen Hc].
      apply Nat.eqb_eq in Hlen.
      destruct (Nat.eqb (List.length genotype) 1) eqn:E1.
      * apply Nat.eqb_eq in E1. rewrite E1 in Hlen.
        destruct genotype as [|h1 [|h2 g]]; try discriminate.
        destruct genotypeExtension as [|a1 [|a2 e]]; try discriminate.
        simpl in Hc. injection Hc as <-.
        constructor; [|constructor]. constructor; [|constructor].
        exists [h1], h1, a1. simpl. repeat split; auto.
      * apply assert_Ok_inv in Hc as [E2 Hc]. apply Nat.eqb_eq in E2.
        rewrite E2 in Hlen.
        destruct genotype as [|h1 [|h2 [|h3 g]]]; try discriminate.
        destruct genotypeExtension as [|a1 [|a2 [|a3 e]]]; try discriminate.
        simpl in Hc. injection Hc as <-.
        constructor; [|constructor; [|constructor]];
          (constructor; [|constructor; [|constructor]]).
        -- exists [h1; h2], h1, a1. simpl. repeat split; auto.
        -- exists [h1; h2], h2, a2. simpl. repeat split; auto.
        -- exists [h1; h2], h1, a2. simpl. repeat split; auto.
        -- exists [h1; h2], h2, a1. simpl. repeat split; auto.
    + specialize (IH _ Ho). eapply Forall_impl; [|exact IH].
      intros child Hchild. eapply Forall_impl; [|exact Hchild].
      intros h' (g & h & a & Hg & Hh & Ha & ->). exists g, h, a. simpl. auto.
Qed.

Lemma StronglySorted_app_le (l1 l2 : list Z) :
  StronglySorted Z.le l1 -> StronglySorted Z.le l2 ->
  (forall x y, In x l1 -> In y l2 -> x <= y) ->
  StronglySorted Z.le (l1 ++ l2).
Proof.
  induction 1 as [|x l1 Hs IH Hall]; intros H2 Hle; simpl; [assumption|].
  constructor.
  - apply IH; [assumption|]. intros a b Ha Hb. apply Hle; [now right | assumption].
  - apply Forall_app. split; [exact Hall|].
    apply Forall_forall. intros y Hy. apply Hle; [now left | assumption].
Qed.

Lemma StronglySorted_repeat (n : Z) (count : nat) : StronglySorted Z.le (repeat n count).
Proof.
  induction count as [|count IH]; simpl; constructor; [assumption|].
  apply Forall_forall. intros y Hy. apply repeat_spec in Hy. lia.
Qed.

Lemma count_occ_repeat_other (n x : Z) (count : nat) :
  x <> n -> count_occ Z.eq_dec (repeat n count) x = 0%nat.
Proof.
  intros Hne. apply count_occ_not_In. intros Hin. apply repeat_spec in Hin. congruence.
Qed.

(** One step of the walk: the node, or copies of it, are appended. *)
Lemma haplotypeUpTo_step (m : NodeRangeMap) (node : NodeId) (haplotype : Nodes)
    (count : nat) :
  0 <= node ->
  haplotypeUpTo m node haplotype ->
  (outsideRegions m node -> count = 1%nat) ->
  haplotypeUpTo m (node + 1) (haplotype ++ repeat node count).
Proof.
  intros Hnode ((rest & ->) & Hsorted & Hbelow & Honce) Hcount.
  split; [|split; [|split]].
  - exists (rest ++ repeat node count). reflexivity.
  - apply StronglySorted_app_le; [assumption | apply StronglySorted_repeat|].
    intros x y Hx Hy. apply repeat_spec in Hy. subst y.
    rewrite Forall_forall in Hbelow. specialize (Hbelow x Hx). lia.
  - apply Forall_app. split.
    + eapply Forall_impl; [|exact Hbelow]. intros n Hn. simpl in Hn. lia.
    + apply Forall_forall. intros y Hy. apply repeat_spec in Hy. lia.
  - intros n Hn Hout. rewrite count_occ_app. unfold NodeId in *.
    destruct (Z.eq_dec n node) as [->|Hne].
    + rewrite (Hcount Hout).
      match goal with
      | |- context [count_occ ?dec (0 :: rest) node] =>
          assert (H0 : count_occ dec (0 :: rest) node = 0%nat)
      end.
      { apply count_occ_not_In. intros Hin.
        rewrite Forall_forall in Hbelow. specialize (Hbelow _ Hin). lia. }
      rewrite H0. simpl.
      destruct (Z.eq_dec node node); [reflexivity | congruence].
    + rewrite (count_occ_repeat_other node n count Hne).
      rewrite Honce; [lia | lia | assumption].
Qed.

Lemma getVariantGenotypeNodes_outside (m : NodeRangeMap) (node : NodeId) :
  getVariantGenotypeNodes m node = Ok None <-> outsideRegions m node.
Proof. apply (getVariantGenotypeNodes_cases m node). Qed.

Lemma getVariantGenotypeNodes_repeat_region (m : NodeRangeMap) (node lastNode : NodeId)
    (alleles : NodeVectors) :
  repeatRegions m ->
  getVariantGenotypeNodes m node = Ok (Some (alleles, lastNode)) ->
  lastNode = node
  /\ Forall (fun allele => exists count, allele = repeat node count) alleles
  /\ ~ outsideRegions m node.
Proof.
  intros Hm H.
  apply (proj1 (getVariantGenotypeNodes_cases m node)) in H
    as (before & from & after & -> & _ & Hb & _).
  unfold repeatRegions in Hm. rewrite Forall_forall in Hm.
  assert (Hin : In ((from, lastNode), alleles) (before ++ ((from, lastNode), alleles) :: after))
    by (apply in_elt).
  destruct (Hm _ Hin) as [Hempty|[Heq Hrep]]; cbn [fst snd] in *; [lia|].
  assert (Hl : lastNode = node) by lia.
  assert (Hf : from = node) by lia. subst lastNode from.
  split; [reflexivity|]. split; [exact Hrep|].
  intros Hout. unfold outsideRegions in Hout. rewrite Forall_forall in Hout.
  specialize (Hout _ Hin). unfold inRange in Hout. simpl in Hout.
  apply andb_false_iff in Hout as [E|E]; apply Z.leb_gt in E; lia.
Qed.

Lemma walkStep_haplotypes (m : NodeRangeMap) (node : NodeId)
    (nodesByDiplotype : list NodeVectors) (st' : WalkState) :
  repeatRegions m ->
  0 <= node ->
  Forall (Forall (haplotypeUpTo m node)) nodesByDiplotype ->
  walkStep m (node, nodesByDiplotype) = Ok st' ->
  fst st' = NodeId_incr node
  /\ Forall (Forall (haplotypeUpTo m (node + 1))) (snd st').
Proof.
  intros Hm Hnode Hinv H. unfold walkStep in H.
  apply bind_Ok_inv in H as (found & Hfound & H).
  destruct found as [[alleles lastNode]|].
  - apply bind_Ok_inv in H as (extended & Hext & H). injection H as <-.
    destruct (getVariantGenotypeNodes_repeat_region _ _ _ _ Hm Hfound)
      as (-> & Hrep & Hinside).
    split; [reflexivity|]. simpl snd.
    apply extendDiplotype_children in Hext.
    eapply Forall_impl; [|exact Hext]. intros child Hchild.
    eapply Forall_impl; [|exact Hchild].
    intros h' (genotype & h & allele & Hg & Hh & Ha & ->).
    rewrite Forall_forall in Hrep. destruct (Hrep _ Ha) as (count & ->).
    apply haplotypeUpTo_step; [assumption| |tauto].
    rewrite Forall_forall in Hinv. specialize (Hinv _ Hg).
    rewrite Forall_forall in Hinv. now apply Hinv.
  - injection H as <-. split; [reflexivity|]. simpl snd.
    apply getVariantGenotypeNodes_outside in Hfound.
    apply Forall_map. eapply Forall_impl; [|exact Hinv].
    intros genotype Hg. apply Forall_map. eapply Forall_impl; [|exact Hg].
    intros h Hh. apply (haplotypeUpTo_step m node h 1); auto.
Qed.

Lemma walk_haplotypes (fuel : nat) (nNodes : Z) (m : NodeRangeMap) (st : WalkState)
    (nodesByDiplotype : list NodeVectors) :
  repeatRegions m ->
  nNodes < NodeId_modulus ->
  0 <= fst st <= nNodes ->
  Forall (Forall (haplotypeUpTo m (fst st))) (snd st) ->
  walk fuel nNodes m st = Ok nodesByDiplotype ->
  Forall (Forall (haplotypeUpTo m nNodes)) nodesByDiplotype.
Proof.
  intros Hm Hn. revert st.
  induction fuel as [|fuel IH]; intros [node nbd] Hst Hinv H; [discriminate|].
  cbn [walk fst snd] in *.
  destruct (node =? nNodes) eqn:E.
  - apply Z.eqb_eq in E. subst node. now injection H as <-.
  - apply Z.eqb_neq in E. apply bind_Ok_inv in H as (st' & Hstep & H).
    destruct (walkStep_haplotypes m node nbd st' Hm (proj1 Hst) Hinv Hstep)
      as [Hnode' Hinv'].
    assert (Hincr : NodeId_incr node = node + 1).
    { unfold NodeId_incr. apply Z.mod_small. unfold NodeId_modulus, NodeId in *. lia. }
    apply (IH st'); [| |exact H].
    + rewrite Hnode', Hincr. unfold NodeId in *. lia.
    + rewrite Hnode', Hincr. exact Hinv'.
Qed.

Lemma nodeRangeOf_one (n : NodeId) :
  0 <= n < NodeId_modulus ->
  nodeRangeOf [n] = (n, n) \/ nodeRangeOf [n] = (NodeId_max, NodeId_lowest).
Proof.
  unfold NodeId_modulus. intros Hn. unfold nodeRangeOf. simpl.
  destruct (n =? NodeId_minus_one); [now right|]. left.
  unfold NodeId_max, NodeId_lowest.
  rewrite Z.min_r, Z.max_r by lia. reflexivity.
Qed.

Lemma extracted_repeatRegions (fs : FileSystem) (meanFragLen : Z) (vcfPath : string)
    (locusSpec : LocusSpecification) (m : NodeRangeMap) :
  variantNodesInRange locusSpec ->
  getGenotypeNodesByNodeRange fs meanFragLen vcfPath locusSpec = Ok m ->
  repeatRegions m.
Proof.
  intros Hrange H. apply Forall_forall. intros [nodeRange alleles] Hin.
  destruct (getGenotypeNodesByNodeRange_facts _ _ _ _ _ H) as (_ & _ & Hentries).
  destruct (Hentries _ _ Hin) as (v & n & lens & Hv & _ & Hn & -> & _ & _ & Hshape).
  unfold variantNodesInRange in Hrange. rewrite Forall_forall in Hrange.
  specialize (Hrange _ Hv). rewrite Hn in Hrange. inversion Hrange as [|? ? Hnr _]; subst.
  cbn [fst snd]. destruct (nodeRangeOf_one n Hnr) as [-> | ->]; cbn [fst snd].
  - right. split; [reflexivity|].
    clear - Hshape. induction Hshape as [|len allele lens alleles [_ Ha] _ IH];
      constructor; [|exact IH]. eexists. exact Ha.
  - left. unfold NodeId_max, NodeId_lowest. lia.
Qed.

Lemma Permutation_swap_front_back {A : Type} (l : list A) :
  Permutation (swap_front_back l) l.
Proof.
  destruct l as [|front rest]; [constructor|].
  destruct rest as [|x rest]; [reflexivity|].
  unfold swap_front_back.
  assert (Hr : x :: rest = removelast (x :: rest) ++ [last (x :: rest) front])
    by (apply app_removelast_last; discriminate).
  rewrite Hr at 3.
  set (middle := removelast (x :: rest)). set (back := last (x :: rest) front).
  transitivity (back :: front :: middle).
  - constructor. symmetry. apply Permutation_cons_append.
  - rewrite perm_swap. constructor. apply Permutation_cons_append.
Qed.

(** The haplotypes of a diplotype built by [makeDiplotype]. *)
Lemma makeDiplotype_facts (g : Graph) (rightFlankLength : Z)
    (diplotypeNodes : NodeVectors) (diplotype : Diplotype) :
  makeDiplotype g rightFlankLength diplotypeNodes = Ok diplotype ->
  Permutation (map nodeIds diplotype) diplotypeNodes
  /\ diplotype <> []
  /\ Forall (fun p => Path_valid g p = true
                      /\ startPosition p = 0
                      /\ endPosition p = rightFlankLength)
            diplotype.
Proof.
  unfold makeDiplotype. intros H. apply bind_Ok_inv in H as (dip & Hdip & H).
  apply mapM_Ok_inv in Hdip.
  assert (Hpaths : map nodeIds dip = diplotypeNodes
                   /\ Forall (fun p => Path_valid g p = true
                                       /\ startPosition p = 0
                                       /\ endPosition p = rightFlankLength) dip).
  { clear H. induction Hdip as [|h p hs ps Hp _ [IH1 IH2]]; [split; constructor|].
    unfold newPath in Hp.
    destruct (Path_valid g (mkPath 0 h rightFlankLength)) eqn:Ev; [|discriminate].
    injection Hp as <-. simpl. split; [now rewrite IH1|].
    constructor; [auto | exact IH2]. }
  destruct Hpaths as [Hids Hall].
  destruct dip as [|front rest]; [discriminate|].
  destruct (Path_lt front (last (front :: rest) front)); injection H as <-.
  - split; [|split].
    + rewrite <- Hids. apply Permutation_map.
      exact (Permutation_swap_front_back (front :: rest)).
    + intros Hnil.
      pose proof (Permutation_swap_front_back (front :: rest)) as Hp.
      unfold swap_front_back in Hp. rewrite Hnil in Hp. apply Permutation_nil in Hp. discriminate.
    + apply Forall_forall. intros p Hp. rewrite Forall_forall in Hall. apply Hall.
      apply (Permutation_in _ (Permutation_swap_front_back (front :: rest))). exact Hp.
  - split; [rewrite Hids; reflexivity|]. split; [discriminate | exact Hall].
Qed.

(** X9.  Canonicalization only reorders: the diplotype built from the node
    vectors of a candidate has exactly the haplotypes of the candidate, each
    as a path of the graph that satisfies the path invariant, starts at
    offset 0 and ends at the right-flank offset.  No diplotype is built from
    a candidate without haplotypes. *)
Theorem makeDiplotype_haplotypes (g : Graph) (rightFlankLength : Z)
    (diplotypeNodes : NodeVectors) (diplotype : Diplotype) :
  makeDiplotype g rightFlankLength diplotypeNodes = Ok diplotype ->
  Permutation (map nodeIds diplotype) diplotypeNodes
  /\ diplotype <> []
  /\ Forall (fun p => Path_valid g p = true
                      /\ startPosition p = 0
                      /\ endPosition p = rightFlankLength)
            diplotype.
Proof. intros; eapply makeDiplotype_facts; eassumption. Qed.

Lemma makeDiplotype_haplotypes_witness :
  Permutation
    (map nodeIds [mkPath 0 [0; 1; 1; 1; 2] 6; mkPath 0 [0; 1; 1; 1; 1; 2] 6])
    [[0; 1; 1; 1; 1; 2]; [0; 1; 1; 1; 2]].
Proof.
  apply (makeDiplotype_haplotypes exampleGraph 6
           [[0; 1; 1; 1; 1; 2]; [0; 1; 1; 1; 2]]
           [mkPath 0 [0; 1; 1; 1; 2] 6; mkPath 0 [0; 1; 1; 1; 1; 2] 6]).
  vm_compute. reflexivity.
Defined.

(** The steps of a successful enumeration, with the right-flank offset. *)
Lemma getCandidateDiplotypesWith_steps (sort : list Diplotype -> list Diplotype)
    (fs : FileSystem) (meanFragLen : Z) (vcfPath : string)
    (locusSpec : LocusSpecification) (m : NodeRangeMap) (result : list Diplotype) :
  getGenotypeNodesByNodeRange fs meanFragLen vcfPath locusSpec = Ok m ->
  getCandidateDiplotypesWith sort fs meanFragLen vcfPath locusSpec = Ok result ->
  exists nodeRange firstAlleles otherRegions nodesByDiplotype diplotypes,
    m = (nodeRange, firstAlleles) :: otherRegions
    /\ walk (walkFuel (numNodes (regionGraph locusSpec))) (numNodes (regionGraph locusSpec))
            m (1, [repeat [0] (List.length firstAlleles)])
       = Ok nodesByDiplotype
    /\ Forall2 (fun nodes d =>
                  makeDiplotype (regionGraph locusSpec)
                    (to_int (Z.of_nat (String.length
                       (nodeSeq (regionGraph locusSpec)
                          ((numNodes (regionGraph locusSpec) - 1) mod NodeId_modulus)))))
                    nodes = Ok d)
               nodesByDiplotype diplotypes
    /\ result = unique Diplotype_eqb (sort diplotypes).
Proof.
  intros Hm H. unfold getCandidateDiplotypesWith in H. rewrite Hm in H. cbn [bind] in H.
  destruct m as [|[nodeRange firstAlleles] otherRegions]; [discriminate|].
  apply bind_Ok_inv in H as (nbd & Hw & H).
  apply bind_Ok_inv in H as (ds & Hds & H). injection H as <-.
  exists nodeRange, firstAlleles, otherRegions, nbd, ds.
  repeat split; try assumption. apply mapM_Ok_inv. exact Hds.
Qed.

Lemma haplotypeUpTo_start (m : NodeRangeMap) : haplotypeUpTo m 1 [0].
Proof.
  split; [exists []; reflexivity|]. split; [repeat constructor|].
  split; [repeat constructor; lia|].
  intros n Hn _. assert (n = 0) by lia. subst n. reflexivity.
Qed.

(** X10.  On a graph with at least one node, every haplotype of a returned
    diplotype is a path that satisfies the path invariant of the graph,
    from offset 0 to the right-flank offset.  It starts at node 0, its node
    ids never decrease and stay below the number of nodes, and every node
    that lies in no region of the extracted map is visited exactly once. *)
Theorem enumerated_haplotypes
    (fs : FileSystem) (meanFragLen : Z) (vcfPath : string)
    (locusSpec : LocusSpecification) (m : NodeRangeMap) (diplotypes : list Diplotype) :
  1 <= numNodes (regionGraph locusSpec) < NodeId_modulus ->
  variantNodesInRange locusSpec ->
  getGenotypeNodesByNodeRange fs meanFragLen vcfPath locusSpec = Ok m ->
  getCandidateDiplotypes fs meanFragLen vcfPath locusSpec = Ok diplotypes ->
  forall diplotype path,
    In diplotype diplotypes -> In path diplotype ->
    Path_valid (regionGraph locusSpec) path = true
    /\ startPosition path = 0
    /\ endPosition path
       = to_int (Z.of_nat (String.length
                   (nodeSeq (regionGraph locusSpec)
                            (numNodes (regionGraph locusSpec) - 1))))
    /\ haplotypeUpTo m (numNodes (regionGraph locusSpec)) (nodeIds path).
Proof.
  intros Hn Hrange Hm H d p Hd Hp.
  destruct (getCandidateDiplotypesWith_steps _ _ _ _ _ _ _ Hm H)
    as (nodeRange & firstAlleles & otherRegions & nbd & ds & Em & Hwalk & Hmk & ->).
  destruct (enumeration_result_sorted _ ds
              (insertion_sort_sorts Diplotype_lt Diplotype_lt_strict_total)) as [_ Hin].
  apply Hin in Hd.
  destruct (Forall2_In_r _ _ _ _ Hmk Hd) as (nodes & Hnodes & Hmake).
  apply makeDiplotype_facts in Hmake as (Hperm & _ & Hall).
  rewrite Forall_forall in Hall. destruct (Hall p Hp) as (Hvalid & Hstart & Hend).
  split; [exact Hvalid|]. split; [exact Hstart|]. split.
  - rewrite Hend. rewrite Z.mod_small; [reflexivity|].
    unfold NodeId_modulus in *. lia.
  - assert (Hreg : repeatRegions m) by (eapply extracted_repeatRegions; eassumption).
    assert (Hinv : Forall (Forall (haplotypeUpTo m (numNodes (regionGraph locusSpec)))) nbd).
    { eapply (walk_haplotypes _ _ m (1, [repeat [0] (List.length firstAlleles)]));
        [exact Hreg | lia | simpl; lia | | exact Hwalk].
      simpl. constructor; [|constructor].
      apply Forall_forall. intros h Hh. apply repeat_spec in Hh. subst h.
      apply haplotypeUpTo_start. }
    rewrite Forall_forall in Hinv. specialize (Hinv _ Hnodes).
    rewrite Forall_forall in Hinv. apply Hinv.
    apply (Permutation_in _ Hperm). now apply in_map.
Qed.

Lemma enumerated_haplotypes_witness :
  Path_valid (regionGraph exampleLocus) (mkPath 0 [0; 1; 1; 1; 2] 6) = true
  /\ startPosition (mkPath 0 [0; 1; 1; 1; 2] 6) = 0
  /\ endPosition (mkPath 0 [0; 1; 1; 1; 2] 6)
     = to_int (Z.of_nat (String.length
                 (nodeSeq (regionGraph exampleLocus)
                          (numNodes (regionGraph exampleLocus) - 1))))
  /\ haplotypeUpTo [((1, 1), [[1; 1; 1]; [1; 1; 1; 1]])]
                   (numNodes (regionGraph exampleLocus))
                   (nodeIds (mkPath 0 [0; 1; 1; 1; 2] 6)).
Proof.
  apply (enumerated_haplotypes exampleFiles 150 "sample.vcf" exampleLocus
           [((1, 1), [[1; 1; 1]; [1; 1; 1; 1]])]
           [[mkPath 0 [0; 1; 1; 1; 2] 6; mkPath 0 [0; 1; 1; 1; 1; 2] 6]])
    with (diplotype := [mkPath 0 [0; 1; 1; 1; 2] 6; mkPath 0 [0; 1; 1; 1; 1; 2] 6]).
  - vm_compute. split; [discriminate | reflexivity].
  - repeat constructor; vm_compute; try discriminate; reflexivity.
  - vm_compute. reflexivity.
  - vm_compute. reflexivity.
  - left. reflexivity.
  - left. reflexivity.
Defined.

(** ** The number of candidates *)

Lemma filter_length_le {A : Type} (p q : A -> bool) (l : list A) :
  (forall x, p x = true -> q x = true) ->
  (List.length (filter p l) <= List.length (filter q l))%nat.
Proof.
  intros Himp. induction l as [|x l IH]; simpl; [lia|].
  destruct (p x) eqn:Ep.
  - rewrite (Himp x Ep). simpl. lia.
  - destruct (q x); simpl; lia.
Qed.

Lemma filter_length_lt {A : Type} (p q : A -> bool) (l : list A) (x : A) :
  (forall y, p y = true -> q y = true) ->
  In x l -> p x = false -> q x = true ->
  (List.length (filter p l) < List.length (filter q l))%nat.
Proof.
  intros Himp. induction l as [|y l IH]; simpl; [tauto|].
  intros [->|Hin] Hp Hq.
  - rewrite Hp, Hq. simpl. pose proof (filter_length_le p q l Himp). lia.
  - specialize (IH Hin Hp Hq). destruct (p y) eqn:Ep.
    + rewrite (Himp y Ep). simpl. lia.
    + destruct (q y); simpl; lia.
Qed.

Lemma regionsFrom_next (m : NodeRangeMap) (node : NodeId) :
  (regionsFrom m (node + 1)%Z <= regionsFrom m node)%nat.
Proof.
  unfold regionsFrom. apply filter_length_le. intros entry H.
  apply Z.leb_le in H. apply Z.leb_le. lia.
Qed.

Lemma regionsFrom_variant (m : NodeRangeMap) (node lastNode : NodeId)
    (alleles : NodeVectors) :
  repeatRegions m ->
  getVariantGenotypeNodes m node = Ok (Some (alleles, lastNode)) ->
  (regionsFrom m (node + 1)%Z < regionsFrom m node)%nat.
Proof.
  intros Hm H.
  apply (proj1 (getVariantGenotypeNodes_cases m node)) in H
    as (before & from & after & -> & _ & Hb & _).
  unfold repeatRegions in Hm. rewrite Forall_forall in Hm.
  assert (Hin : In ((from, lastNode), alleles) (before ++ ((from, lastNode), alleles) :: after))
    by (apply in_elt).
  destruct (Hm _ Hin) as [Hempty|[Heq _]]; cbn [fst snd] in *; [lia|].
  unfold regionsFrom.
  apply filter_length_lt with (x := ((from, lastNode), alleles)); [|exact Hin| |].
  - intros e He. apply Z.leb_le in He. apply Z.leb_le. lia.
  - cbn [fst]. apply Z.leb_gt. lia.
  - cbn [fst]. apply Z.leb_le. lia.
Qed.

Lemma extendDiplotype_Ok_extensible (genotypes : list NodeVectors)
    (genotypeExtension : NodeVectors) (extended : list NodeVectors) :
  extendDiplotype genotypes genotypeExtension = Ok extended ->
  Forall (extensible genotypeExtension) genotypes
  /\ List.length extended = (List.length genotypes * List.length genotypeExtension)%nat.
Proof.
  intros H.
  destruct (Forall_dec _ (extensible_dec genotypeExtension) genotypes) as [Hall|Hnot].
  - split; [exact Hall|].
    destruct (proj1 (extendDiplotype_cases genotypes genotypeExtension) Hall)
      as (extended' & He & Hlen & _).
    rewrite H in He. injection He as <-. exact Hlen.
  - rewrite (proj2 (extendDiplotype_cases genotypes genotypeExtension) Hnot) in H.
    discriminate.
Qed.

Lemma walkStep_count (numAlleles : nat) (m : NodeRangeMap) (node : NodeId)
    (nodesByDiplotype : list NodeVectors) (st' : WalkState) :
  repeatRegions m ->
  (1 <= numAlleles)%nat ->
  nodesByDiplotype <> [] ->
  Forall (fun genotype => List.length genotype = numAlleles) nodesByDiplotype ->
  walkStep m (node, nodesByDiplotype) = Ok st' ->
  snd st' <> []
  /\ (List.length (snd st') * numAlleles ^ regionsFrom m (node + 1)%Z
      <= List.length nodesByDiplotype * numAlleles ^ regionsFrom m node)%nat.
Proof.
  intros Hm HA Hne Hlen H. unfold walkStep in H.
  apply bind_Ok_inv in H as (found & Hfound & H).
  destruct found as [[alleles lastNode]|].
  - apply bind_Ok_inv in H as (extended & Hext & H). injection H as <-. simpl snd.
    pose proof (regionsFrom_variant _ _ _ _ Hm Hfound) as Hlt.
    apply extendDiplotype_Ok_extensible in Hext as [Hall Hcount].
    destruct nodesByDiplotype as [|genotype rest]; [congruence|].
    inversion Hall as [|? ? [Hg _] _]; subst. inversion Hlen as [|? ? Hg' _]; subst.
    rewrite <- Hg in Hcount.
    split.
    + intros ->. simpl in Hcount. lia.
    + rewrite Hcount.
      set (A := List.length genotype) in *. set (n := List.length (genotype :: rest)).
      destruct (regionsFrom m node) as [|r]; [lia|].
      assert (Hpow : (A ^ regionsFrom m (node + 1)%Z <= A ^ r)%nat)
        by (apply Nat.pow_le_mono_r; lia).
      rewrite Nat.pow_succ_r'. nia.
  - injection H as <-. simpl snd. split.
    + intros Hnil. apply map_eq_nil in Hnil. contradiction.
    + rewrite length_map. apply Nat.mul_le_mono_l.
      apply Nat.pow_le_mono_r; [lia | apply regionsFrom_next].
Qed.

Lemma walk_count (numAlleles : nat) (fuel : nat) (nNodes : Z) (m : NodeRangeMap)
    (st : WalkState) (nodesByDiplotype : list NodeVectors) :
  repeatRegions m ->
  (1 <= numAlleles)%nat ->
  nNodes < NodeId_modulus ->
  0 <= fst st <= nNodes ->
  snd st <> [] ->
  Forall (fun genotype => List.length genotype = numAlleles) (snd st) ->
  walk fuel nNodes m st = Ok nodesByDiplotype ->
  nodesByDiplotype <> []
  /\ (List.length nodesByDiplotype
      <= List.length (snd st) * numAlleles ^ regionsFrom m (fst st))%nat.
Proof.
  intros Hm HA Hn. revert st.
  induction fuel as [|fuel IH]; intros [node nbd] Hst Hne Hlen H; [discriminate|].
  cbn [walk fst snd] in *.
  destruct (node =? nNodes) eqn:E.
  - injection H as <-. split; [assumption|].
    assert (1 <= numAlleles ^ regionsFrom m node)%nat
      by (apply Nat.neq_0_lt_0, Nat.pow_nonzero; lia).
    nia.
  - apply Z.eqb_neq in E. apply bind_Ok_inv in H as (st' & Hstep & H).
    pose proof (walkStep_length numAlleles m (node, nbd) st' Hlen Hstep) as Hlen'.
    destruct (walkStep_count numAlleles m node nbd st' Hm HA Hne Hlen Hstep)
      as [Hne' Hcount].
    assert (Hnode' : fst st' = node + 1).
    { assert (Hs : fst st' = NodeId_incr node).
      { clear - Hstep Hm. unfold walkStep in Hstep.
        apply bind_Ok_inv in Hstep as (found & Hfound & H).
        destruct found as [[alleles lastNode]|].
        - apply bind_Ok_inv in H as (extended & _ & H). injection H as <-.
          now destruct (getVariantGenotypeNodes_repeat_region _ _ _ _ Hm Hfound)
            as (-> & _).
        - now injection H as <-. }
      rewrite Hs. unfold NodeId_incr. apply Z.mod_small.
      unfold NodeId_modulus, NodeId in *. lia. }
    destruct (IH st') as [Hout Hbound]; try assumption.
    + rewrite Hnode'. unfold NodeId in *. lia.
    + split; [exact Hout|]. rewrite Hnode' in Hbound. lia.
Qed.

Lemma unique_length {A : Type} (eqb : A -> A -> bool) (l : list A) :
  (List.length (unique eqb l) <= List.length l)%nat /\ (l <> [] -> unique eqb l <> []).
Proof.
  split.
  - destruct l as [|x l]; simpl; [lia|]. apply le_n_S.
    revert x. induction l as [|y l IH]; intros x; simpl; [lia|].
    destruct (eqb x y); simpl; [specialize (IH x) | specialize (IH y)]; lia.
  - destruct l; simpl; [congruence | discriminate].
Qed.

(** X11.  On a graph with at least one node, a successful enumeration
    returns at least one diplotype and at most 2 to the power of the number
    of variants of the locus; when the first region of the map has a single
    allele it returns exactly one. *)
Theorem enumeration_size
    (fs : FileSystem) (meanFragLen : Z) (vcfPath : string)
    (locusSpec : LocusSpecification) (m : NodeRangeMap) (diplotypes : list Diplotype) :
  1 <= numNodes (regionGraph locusSpec) < NodeId_modulus ->
  variantNodesInRange locusSpec ->
  getGenotypeNodesByNodeRange fs meanFragLen vcfPath locusSpec = Ok m ->
  getCandidateDiplotypes fs meanFragLen vcfPath locusSpec = Ok diplotypes ->
  (1 <= List.length diplotypes <= 2 ^ List.length (variantSpecs locusSpec))%nat
  /\ (forall nodeRange firstAlleles otherRegions,
         m = (nodeRange, firstAlleles) :: otherRegions ->
         List.length firstAlleles = 1%nat ->
         List.length diplotypes = 1%nat).
Proof.
  intros Hn Hrange Hm H.
  destruct (getCandidateDiplotypesWith_steps _ _ _ _ _ _ _ Hm H)
    as (nodeRange & firstAlleles & otherRegions & nbd & ds & Em & Hwalk & Hmk & ->).
  assert (Hreg : repeatRegions m) by (eapply extracted_repeatRegions; eassumption).
  destruct (getGenotypeNodesByNodeRange_facts _ _ _ _ _ Hm) as (_ & Hsize & Hentries).
  assert (HA : (1 <= List.length firstAlleles <= 2)%nat).
  { destruct (Hentries nodeRange firstAlleles) as (v & n & lens & _ & _ & _ & _ & _ & HA & _);
      [rewrite Em; now left | exact HA]. }
  destruct (walk_count (List.length firstAlleles)
              (walkFuel (numNodes (regionGraph locusSpec)))
              (numNodes (regionGraph locusSpec)) m
              (1, [repeat [0] (List.length firstAlleles)]) nbd)
    as [Hne Hbound]; try assumption; try lia.
  { simpl. lia. }
  { discriminate. }
  { simpl. constructor; [apply repeat_length | constructor]. }
  cbn [fst snd List.length] in Hbound.
  assert (Hlen : List.length ds = List.length nbd)
    by (symmetry; eapply Forall2_length; exact Hmk).
  destruct (insertion_sort_sorts Diplotype_lt Diplotype_lt_strict_total ds) as [Hperm _].
  pose proof (Permutation_length Hperm) as Hsl.
  destruct (unique_length Diplotype_eqb (insertion_sort Diplotype_lt ds)) as [Hul Hun].
  assert (Hregions : (regionsFrom m 1%Z <= List.length m)%nat).
  { unfold regionsFrom. clear. induction m as [|e m IH]; simpl; [lia|].
    destruct (1 <=? fst (fst e)); simpl; lia. }
  assert (Hnonempty : (1 <= List.length (unique Diplotype_eqb (insertion_sort Diplotype_lt ds)))%nat).
  { assert (Hds : insertion_sort Diplotype_lt ds <> []).
    { intros Hnil. rewrite Hnil in Hsl. simpl in Hsl.
      destruct nbd; [congruence | simpl in *; lia]. }
    specialize (Hun Hds).
    destruct (unique Diplotype_eqb (insertion_sort Diplotype_lt ds)); [congruence | simpl; lia]. }
  split; [split; [exact Hnonempty|]|].
  - assert (Hpow : (List.length firstAlleles ^ regionsFrom m 1%Z
                    <= 2 ^ List.length (variantSpecs locusSpec))%nat).
    { transitivity (2 ^ regionsFrom m 1%Z)%nat.
      - apply Nat.pow_le_mono_l. lia.
      - apply Nat.pow_le_mono_r; lia. }
    lia.
  - intros r a o Em' Hone. rewrite Em in Em'. injection Em' as <- <- <-.
    rewrite Hone in Hbound. rewrite Nat.pow_1_l in Hbound. lia.
Qed.

Lemma enumeration_size_witness :
  (1 <= List.length [[mkPath 0 [0; 1; 1; 1; 2] 6; mkPath 0 [0; 1; 1; 1; 1; 2] 6]]%Z
   <= 2 ^ List.length (variantSpecs exampleLocus))%nat.
Proof.
  apply (enumeration_size exampleFiles 150 "sample.vcf" exampleLocus
           [((1, 1), [[1; 1; 1]; [1; 1; 1; 1]])]).
  - vm_compute. split; [discriminate | reflexivity].
  - repeat constructor; vm_compute; try discriminate; reflexivity.
  - vm_compute. reflexivity.
  - vm_compute. reflexivity.
Defined.

(** ** The order of the alleles of a variant *)

Lemma extendGenotype_childrenOf (genotype genotypeExtension : NodeVectors) :
  extensible genotypeExtension genotype ->
  extendGenotype genotype genotypeExtension = Ok (childrenOf genotypeExtension genotype).
Proof.
  unfold extensible, extendGenotype. intros [Hlen Hcount].
  rewrite Hlen, Nat.eqb_refl. cbn [assert]. rewrite Hlen in Hcount.
  destruct genotype as [|h1 [|h2 [|h3 rest]]];
    destruct genotypeExtension as [|a1 [|a2 [|a3 ext]]];
    simpl in Hlen, Hcount; try discriminate; try lia; reflexivity.
Qed.

Lemma extendDiplotype_flat_map (genotypes : list NodeVectors)
    (genotypeExtension : NodeVectors) (extended : list NodeVectors) :
  extendDiplotype genotypes genotypeExtension = Ok extended <->
  Forall (extensible genotypeExtension) genotypes
  /\ extended = flat_map (childrenOf genotypeExtension) genotypes.
Proof.
  split.
  - intros H. pose proof (extendDiplotype_Ok_extensible _ _ _ H) as [Hall _].
    split; [exact Hall|]. revert extended H.
    induction Hall as [|genotype rest Hg _ IH]; intros extended H.
    + now injection H as <-.
    + cbn [extendDiplotype] in H. rewrite (extendGenotype_childrenOf _ _ Hg) in H.
      cbn [bind] in H. apply bind_Ok_inv in H as (others & Ho & H).
      injection H as <-. simpl. now rewrite (IH _ Ho).
  - intros [Hall ->]. induction Hall as [|genotype rest Hg _ IH]; [reflexivity|].
    cbn [extendDiplotype]. rewrite (extendGenotype_childrenOf _ _ Hg), IH. reflexivity.
Qed.

Lemma childrenOf_Permutation (ext ext' genotype : NodeVectors) :
  Permutation ext ext' ->
  Permutation (childrenOf ext genotype) (childrenOf ext' genotype).
Proof.
  intros Hp. destruct ext as [|a1 [|a2 [|a3 rest]]].
  - apply Permutation_nil in Hp. now subst.
  - apply Permutation_length_1_inv in Hp. now subst.
  - apply Permutation_length_2_inv in Hp as [-> | ->]; [reflexivity|].
    destruct genotype as [|h1 [|h2 [|h3 g]]]; simpl; try reflexivity.
    apply perm_swap.
  - pose proof (Permutation_length Hp) as Hl.
    destruct ext' as [|b1 [|b2 [|b3 rest']]]; try discriminate.
    destruct genotype as [|h1 [|h2 [|h3 g]]]; reflexivity.
Qed.

Lemma flat_map_Permutation_pointwise {A B : Type} (f f' : A -> list B) (l : list A) :
  (forall x, Permutation (f x) (f' x)) ->
  Permutation (flat_map f l) (flat_map f' l).
Proof.
  intros Hf. induction l as [|x l IH]; simpl; [constructor|].
  now apply Permutation_app.
Qed.

Lemma extendDiplotype_Permutation (genotypes genotypes' : list NodeVectors)
    (ext ext' : NodeVectors) (extended : list NodeVectors) :
  Permutation genotypes genotypes' ->
  Permutation ext ext' ->
  extendDiplotype genotypes ext = Ok extended ->
  exists extended',
    extendDiplotype genotypes' ext' = Ok extended' /\ Permutation extended extended'.
Proof.
  intros Hg He H. apply extendDiplotype_flat_map in H as [Hall ->].
  exists (flat_map (childrenOf ext') genotypes'). split.
  - apply extendDiplotype_flat_map. split; [|reflexivity].
    apply Forall_forall. intros genotype Hin.
    rewrite Forall_forall in Hall.
    specialize (Hall genotype (Permutation_in _ (Permutation_sym Hg) Hin)).
    unfold extensible in *. now rewrite <- (Permutation_length He).
  - transitivity (flat_map (childrenOf ext) genotypes').
    + now apply Permutation_flat_map.
    + apply flat_map_Permutation_pointwise. intros genotype.
      now apply childrenOf_Permutation.
Qed.

Lemma getVariantGenotypeNodes_sameAlleles (m m' : NodeRangeMap) (node : NodeId) :
  sameAllelesUpToOrder m m' ->
  (getVariantGenotypeNodes m node = Ok None ->
   getVariantGenotypeNodes m' node = Ok None)
  /\ (forall alleles lastNode,
         getVariantGenotypeNodes m node = Ok (Some (alleles, lastNode)) ->
         exists alleles',
           getVariantGenotypeNodes m' node = Ok (Some (alleles', lastNode))
           /\ Permutation alleles alleles').
Proof.
  induction 1 as [|[[from to] paths] [[from' to'] paths'] m m' [Hkey Hperm] _ [IH1 IH2]].
  - split; [auto | discriminate].
  - simpl in Hkey, Hperm. injection Hkey as <- <-.
    cbn [getVariantGenotypeNodes fst snd].
    rewrite <- (Permutation_length Hperm).
    destruct ((from <=? node) && (node <=? to))%bool; [|split; assumption].
    destruct (Nat.leb (List.length paths) 2); cbn [assert]; split; try discriminate.
    intros alleles lastNode H. injection H as <- <-. exists paths'. auto.
Qed.

Lemma walk_sameAlleles (fuel : nat) (nNodes : Z) (m m' : NodeRangeMap)
    (node : NodeId) (nodesByDiplotype nodesByDiplotype' out : list NodeVectors) :
  sameAllelesUpToOrder m m' ->
  Permutation nodesByDiplotype nodesByDiplotype' ->
  walk fuel nNodes m (node, nodesByDiplotype) = Ok out ->
  exists out',
    walk fuel nNodes m' (node, nodesByDiplotype') = Ok out' /\ Permutation out out'.
Proof.
  intros Hm. revert node nodesByDiplotype nodesByDiplotype'.
  induction fuel as [|fuel IH]; intros node nbd nbd' Hp H; [discriminate|].
  cbn [walk fst snd] in *.
  destruct (node =? nNodes).
  - injection H as <-. exists nbd'. auto.
  - apply bind_Ok_inv in H as ([node1 nbd1] & Hstep & H).
    unfold walkStep in Hstep. apply bind_Ok_inv in Hstep as (found & Hfound & Hstep).
    destruct (getVariantGenotypeNodes_sameAlleles m m' node Hm) as [Hnone Hsome].
    destruct found as [[alleles lastNode]|].
    + apply bind_Ok_inv in Hstep as (extended & Hext & Hstep).
      injection Hstep as <- <-.
      destruct (Hsome _ _ Hfound) as (alleles' & Hfound' & Hpa).
      destruct (extendDiplotype_Permutation _ _ _ _ _ Hp Hpa Hext)
        as (extended' & Hext' & Hpe).
      destruct (IH _ _ _ Hpe H) as (out' & Hout' & Hpo).
      exists out'. split; [|exact Hpo].
      unfold walkStep. rewrite Hfound'. cbn [bind]. rewrite Hext'. cbn [bind]. exact Hout'.
    + injection Hstep as <- <-.
      assert (Hpm : Permutation
                      (map (map (fun h : Nodes => h ++ [node])) nbd)
                      (map (map (fun h : Nodes => h ++ [node])) nbd'))
        by now apply Permutation_map.
      destruct (IH _ _ _ Hpm H) as (out' & Hout' & Hpo).
      exists out'. split; [|exact Hpo].
      unfold walkStep. rewrite (Hnone Hfound). cbn [bind]. exact Hout'.
Qed.

Lemma mapM_Ok_iff {A B : Type} (f : A -> outcome B) (l : list A) (r : list B) :
  mapM f l = Ok r <-> Forall2 (fun x y => f x = Ok y) l r.
Proof.
  split; [apply mapM_Ok_inv|].
  induction 1 as [|x y xs ys Hxy _ IH]; simpl; [reflexivity|].
  now rewrite Hxy, IH.
Qed.

Lemma mapM_Permutation {A B : Type} (f : A -> outcome B) (l l' : list A) (r : list B) :
  Permutation l l' ->
  mapM f l = Ok r ->
  exists r', mapM f l' = Ok r' /\ Permutation r r'.
Proof.
  intros Hp H. apply mapM_Ok_iff in H.
  destruct (Permutation_Forall2 Hp H) as (r' & Hpr & Hf).
  exists r'. split; [now apply mapM_Ok_iff | exact Hpr].
Qed.

Lemma bind_Ok_intro {A B : Type} (m : outcome A) (k : A -> outcome B)
    (a : A) (r : outcome B) :
  m = Ok a -> k a = r -> bind m k = r.
Proof. intros -> H. exact H. Qed.

Lemma enumeration_sameAlleles (sort : list Diplotype -> list Diplotype)
    (fs fs' : FileSystem) (meanFragLen : Z) (vcfPath vcfPath' : string)
    (locusSpec : LocusSpecification) (m m' : NodeRangeMap) (diplotypes : list Diplotype) :
  sorts Diplotype_lt sort ->
  getGenotypeNodesByNodeRange fs meanFragLen vcfPath locusSpec = Ok m ->
  getGenotypeNodesByNodeRange fs' meanFragLen vcfPath' locusSpec = Ok m' ->
  sameAllelesUpToOrder m m' ->
  getCandidateDiplotypesWith sort fs meanFragLen vcfPath locusSpec = Ok diplotypes ->
  getCandidateDiplotypesWith sort fs' meanFragLen vcfPath' locusSpec = Ok diplotypes.
Proof.
  intros Hsort Hm Hm' Hsame H.
  destruct (getCandidateDiplotypesWith_steps _ _ _ _ _ _ _ Hm H)
    as (nodeRange & firstAlleles & otherRegions & nbd & ds & Em & Hwalk & Hmk & ->).
  unfold getCandidateDiplotypesWith. rewrite Hm'. cbn [bind].
  subst m. inversion Hsame as [|? [nodeRange' firstAlleles'] ? otherRegions' [_ Hfirst] Hrest];
    subst.
  simpl in Hfirst. cbv zeta. rewrite <- (Permutation_length Hfirst).
  destruct (walk_sameAlleles _ _ _ _ _ _ _ _ Hsame
              (Permutation_refl [repeat [0] (List.length firstAlleles)]) Hwalk)
    as (nbd' & Hwalk' & Hpn).
  eapply bind_Ok_intro; [exact Hwalk'|].
  apply mapM_Ok_iff in Hmk.
  destruct (mapM_Permutation _ _ _ _ Hpn Hmk) as (ds' & Hmk' & Hpd).
  eapply bind_Ok_intro; [exact Hmk'|]. f_equal. f_equal.
  destruct (Hsort ds) as [P1 S1]. destruct (Hsort ds') as [P2 S2].
  symmetry. apply (sorted_permutation_unique Diplotype_lt Diplotype_lt_strict_total);
    try assumption.
  now rewrite <- P1, <- P2.
Qed.

Lemma genotypeNodesOf_Permutation (meanFragLen : Z) (repeatNode : NodeId)
    (lens lens' : list Z) (alleles : NodeVectors) :
  Permutation lens lens' ->
  genotypeNodesOf meanFragLen repeatNode lens = Ok alleles ->
  exists alleles',
    genotypeNodesOf meanFragLen repeatNode lens' = Ok alleles'
    /\ Permutation alleles alleles'.
Proof.
  unfold genotypeNodesOf, capLengths. intros Hp H.
  eapply mapM_Permutation; [|exact H]. now apply Permutation_map.
Qed.

Lemma map_emplace_sameAlleles (key : NodeRange) (value value' : NodeVectors)
    (m m' : NodeRangeMap) :
  sameAllelesUpToOrder m m' ->
  Permutation value value' ->
  sameAllelesUpToOrder (map_emplace key value m) (map_emplace key value' m').
Proof.
  intros Hm Hv. induction Hm as [|[k v] [k' v'] m m' [Hk Hp] Hrest IH]; simpl.
  - repeat constructor; assumption.
  - simpl in Hk, Hp. subst k'.
    destruct (NodeRange_lt key k).
    + constructor; [split; [reflexivity | exact Hv]|].
      constructor; [split; [reflexivity | exact Hp] | exact Hrest].
    + destruct (NodeRange_lt k key).
      * constructor; [split; [reflexivity | exact Hp] | exact IH].
      * constructor; [split; [reflexivity | exact Hp] | exact Hrest].
Qed.

Lemma genotypeNodesLoop_sameAlleles (fs fs' : FileSystem) (meanFragLen : Z)
    (vcfPath vcfPath' : string) (specs : list VariantSpecification)
    (m0 m0' m : NodeRangeMap) :
  (forall variantSpec, In variantSpec specs ->
     forall lens, extractRepeatLengths fs vcfPath (id variantSpec) = Ok lens ->
     exists lens',
       extractRepeatLengths fs' vcfPath' (id variantSpec) = Ok lens'
       /\ Permutation lens lens') ->
  sameAllelesUpToOrder m0 m0' ->
  genotypeNodesLoop fs meanFragLen vcfPath specs m0 = Ok m ->
  exists m',
    genotypeNodesLoop fs' meanFragLen vcfPath' specs m0' = Ok m'
    /\ sameAllelesUpToOrder m m'.
Proof.
  revert m0 m0'. induction specs as [|v rest IH]; intros m0 m0' Hlens H0 H.
  - injection H as <-. exists m0'. auto.
  - cbn [genotypeNodesLoop] in H. apply bind_Ok_inv in H as (m1 & H1 & H).
    apply genotypeNodesOfVariant_Ok_inv in H1
      as (n & lens & alleles & Htype & Hn & Hl & Ha & Htwo & ->).
    destruct (Hlens v (or_introl eq_refl) lens Hl) as (lens' & Hl' & Hp).
    destruct (genotypeNodesOf_Permutation _ _ _ _ _ Hp Ha) as (alleles' & Ha' & Hpa).
    destruct (IH (map_emplace (nodeRangeOf [n]) alleles m0)
                 (map_emplace (nodeRangeOf [n]) alleles' m0')) as (m' & Hm' & Hsame).
    + intros u Hu. apply Hlens. now right.
    + now apply map_emplace_sameAlleles.
    + exact H.
    + exists m'. split; [|exact Hsame].
      cbn [genotypeNodesLoop]. eapply bind_Ok_intro; [|exact Hm'].
      unfold genotypeNodesOfVariant. rewrite Htype, Hn.
      cbn [List.length Nat.eqb assert at_index nth_error bind].
      rewrite Hl'. cbn [bind]. rewrite Ha'. cbn [bind].
      rewrite <- (Permutation_length Hpa).
      apply Nat.leb_le in Htwo. rewrite Htwo. reflexivity.
Qed.

(** X12.  The order in which the call file lists the alleles of a variant
    does not matter: when a second call file gives, for every variant of
    the locus, the repeat lengths of the first in some other order, the
    enumeration over the second file returns what the enumeration over the
    first returns. *)
Theorem allele_order_irrelevant
    (fs fs' : FileSystem) (meanFragLen : Z) (vcfPath vcfPath' : string)
    (locusSpec : LocusSpecification) (diplotypes : list Diplotype) :
  (forall variantSpec, In variantSpec (variantSpecs locusSpec) ->
     forall lens, extractRepeatLengths fs vcfPath (id variantSpec) = Ok lens ->
     exists lens',
       extractRepeatLengths fs' vcfPath' (id variantSpec) = Ok lens'
       /\ Permutation lens lens') ->
  getCandidateDiplotypes fs meanFragLen vcfPath locusSpec = Ok diplotypes ->
  getCandidateDiplotypes fs' meanFragLen vcfPath' locusSpec = Ok diplotypes.
Proof.
  intros Hlens H.
  destruct (getGenotypeNodesByNodeRange fs meanFragLen vcfPath locusSpec) as [m| | | | |] eqn:Hm;
    try (unfold getCandidateDiplotypes, getCandidateDiplotypesWith in H;
         rewrite Hm in H; discriminate).
  unfold getGenotypeNodesByNodeRange in Hm.
  destruct (genotypeNodesLoop_sameAlleles fs fs' meanFragLen vcfPath vcfPath'
              (variantSpecs locusSpec) [] [] m Hlens (Forall2_nil _) Hm)
    as (m' & Hm' & Hsame).
  apply (enumeration_sameAlleles (insertion_sort Diplotype_lt) fs fs' meanFragLen
           vcfPath vcfPath' locusSpec m m');
    [apply insertion_sort_sorts, Diplotype_lt_strict_total | exact Hm | exact Hm'
     | exact Hsame | exact H].
Qed.

Lemma allele_order_irrelevant_witness :
  getCandidateDiplotypes swappedFiles 150 "swapped.vcf" exampleLocus
  = Ok [[mkPath 0 [0; 1; 1; 1; 2] 6; mkPath 0 [0; 1; 1; 1; 1; 2] 6]].
Proof.
  apply (allele_order_irrelevant exampleFiles swappedFiles 150 "sample.vcf"
           "swapped.vcf" exampleLocus).
  - intros variantSpec [<-|[]] lens H. vm_compute in H. injection H as <-.
    exists [4; 3]. split; [vm_compute; reflexivity | apply perm_swap].
  - vm_compute. reflexivity.
Defined.

(** ** Undefined behaviour *)

Lemma mapM_Undefined {A B : Type} (f : A -> outcome B) (l : list A) :
  mapM f l = Undefined -> exists x, In x l /\ f x = Undefined.
Proof.
  induction l as [|x l IH]; simpl; [discriminate|].
  destruct (f x) eqn:E; simpl; try discriminate.
  - destruct (mapM f l); simpl; try discriminate.
    intros _. destruct (IH eq_refl) as (y & Hy & Hf). exists y. auto.
  - intros _. exists x. auto.
Qed.

Lemma genotypeNodesLoop_Undefined (fs : FileSystem) (meanFragLen : Z) (vcfPath : string)
    (specs : list VariantSpecification) (m : NodeRangeMap) :
  genotypeNodesLoop fs meanFragLen vcfPath specs m = Undefined ->
  exists variantSpec,
    In variantSpec specs
    /\ extractRepeatLengths fs vcfPath (id variantSpec) = Undefined.
Proof.
  revert m. induction specs as [|v rest IH]; intros m; simpl; [discriminate|].
  destruct (genotypeNodesOfVariant fs meanFragLen vcfPath v m) as [m1| | | | |] eqn:E;
    simpl; try discriminate.
  - intros H. destruct (IH _ H) as (u & Hu & He). exists u. auto.
  - intros _. exists v. split; [now left|].
    unfold genotypeNodesOfVariant in E.
    destruct (classification_type v); [|discriminate].
    destruct (Nat.eqb (List.length (nodes v)) 1) eqn:E1; [|discriminate].
    cbn [assert] in E. apply Nat.eqb_eq in E1.
    destruct (nodes v) as [|n [|n' others]]; try discriminate.
    cbn [at_index nth_error bind] in E.
    destruct (extractRepeatLengths fs vcfPath (id v)) as [lens| | | | |];
      cbn [bind] in E; try discriminate; [|reflexivity].
    exfalso. destruct (genotypeNodesOf meanFragLen n lens) as [alleles| | | | |] eqn:Eg;
      cbn [bind] in E; try discriminate.
    + destruct (Nat.leb (List.length alleles) 2); discriminate.
    + unfold genotypeNodesOf in Eg. apply mapM_Undefined in Eg as (len & _ & Hf).
      unfold NodeVector_fill in Hf. destruct (len <? 0); discriminate.
Qed.

Lemma walk_not_Undefined (fuel : nat) (nNodes : Z) (m : NodeRangeMap) (st : WalkState) :
  walk fuel nNodes m st <> Undefined.
Proof.
  revert st. induction fuel as [|fuel IH]; intros [node nbd]; [discriminate|].
  cbn [walk fst snd]. destruct (node =? nNodes); [discriminate|].
  destruct (walkStep m (node, nbd)) as [st'| | | | |] eqn:E; cbn [bind];
    try discriminate; [apply IH|].
  exfalso. unfold walkStep in E.
  destruct (getVariantGenotypeNodes m node) as [found| | | | |] eqn:Ef; cbn [bind] in E;
    try discriminate.
  - destruct found as [[alleles lastNode]|]; [|discriminate].
    destruct (Forall_dec _ (extensible_dec alleles) nbd) as [Hall|Hnot].
    + destruct (proj1 (extendDiplotype_cases nbd alleles) Hall) as (ext & He & _).
      rewrite He in E. discriminate.
    + rewrite (proj2 (extendDiplotype_cases nbd alleles) Hnot) in E. discriminate.
  - now apply (getVariantGenotypeNodes_cases m node) in Ef.
Qed.

(** X13.  Beyond the read of the genotype field in [extractRepeatLengths],
    the only undefined behaviour of the enumeration is the read of the
    first region of an empty map: when [getCandidateDiplotypes] is
    undefined, either the locus has no variant or the extraction of the
    repeat lengths of one of its variants is. *)
Theorem enumeration_undefined
    (fs : FileSystem) (meanFragLen : Z) (vcfPath : string)
    (locusSpec : LocusSpecification) :
  getCandidateDiplotypes fs meanFragLen vcfPath locusSpec = Undefined ->
  variantSpecs locusSpec = []
  \/ exists variantSpec,
       In variantSpec (variantSpecs locusSpec)
       /\ extractRepeatLengths fs vcfPath (id variantSpec) = Undefined.
Proof.
  unfold getCandidateDiplotypes, getCandidateDiplotypesWith. intros H.
  destruct (getGenotypeNodesByNodeRange fs meanFragLen vcfPath locusSpec)
    as [m| | | | |] eqn:Hm; cbn [bind] in H; try discriminate.
  2: { right. now apply genotypeNodesLoop_Undefined in Hm. }
  destruct m as [|[nodeRange firstAlleles] otherRegions].
  { left. destruct (variantSpecs locusSpec) as [|v rest] eqn:Ev; [reflexivity|].
    exfalso. unfold getGenotypeNodesByNodeRange in Hm. rewrite Ev in Hm.
    eapply genotypeNodesLoop_not_empty; [exact Hm | left; discriminate | reflexivity]. }
  exfalso.
  destruct (getGenotypeNodesByNodeRange_facts _ _ _ _ _ Hm) as (_ & _ & Hentries).
  destruct (Hentries nodeRange firstAlleles (or_introl eq_refl))
    as (v & n & lens & _ & _ & _ & _ & _ & HA & _).
  match type of H with
  | bind (walk ?fuel ?n ?m ?st) _ = _ =>
      destruct (walk fuel n m st) as [nbd| | | | |] eqn:Hwalk; cbn [bind] in H;
        try discriminate
  end.
  2: { now apply walk_not_Undefined in Hwalk. }
  apply walk_reaches in Hwalk as (node & Hreach).
  assert (Hlen : Forall (fun genotype : NodeVectors =>
                           List.length genotype = List.length firstAlleles) nbd).
  { apply (walkReaches_length _ _ _ _ _ Hreach). simpl.
    constructor; [apply repeat_length | constructor]. }
  match type of H with
  | bind (mapM ?f nbd) _ = _ =>
      destruct (mapM f nbd) as [ds| | | | |] eqn:Hmk; cbn [bind] in H; try discriminate
  end.
  apply mapM_Undefined in Hmk as (nodes & Hnodes & Hmake).
  rewrite Forall_forall in Hlen. specialize (Hlen _ Hnodes).
  unfold makeDiplotype in Hmake.
  match type of Hmake with
  | bind (mapM ?f nodes) _ = _ =>
      destruct (mapM f nodes) as [dip| | | | |] eqn:Hdip; cbn [bind] in Hmake;
        try discriminate
  end.
  - destruct dip as [|front rest].
    + apply mapM_Ok_inv in Hdip. inversion Hdip; subst. simpl in Hlen. lia.
    + destruct (Path_lt front (last (front :: rest) front)); discriminate.
  - apply mapM_Undefined in Hdip as (h & _ & Hh). unfold newPath in Hh.
    destruct (Path_valid _ _); discriminate.
Qed.

Lemma enumeration_undefined_witness :
  variantSpecs (mkLocusSpecification [] exampleGraph) = []
  \/ exists variantSpec,
       In variantSpec (variantSpecs (mkLocusSpecification [] exampleGraph))
       /\ extractRepeatLengths exampleFiles "sample.vcf" (id variantSpec) = Undefined.
Proof.
  apply (enumeration_undefined exampleFiles 150 "sample.vcf"
           (mkLocusSpecification [] exampleGraph)).
  vm_compute. reflexivity.
Defined.

(** ** Printing *)

Lemma summarizeNode_cases (g : Graph) (path : Path) (n : NodeId) :
  (unsummarizable g n -> summarizeNode g path n = AssertFail)
  /\ (~ unsummarizable g n -> exists text, summarizeNode g path n = Ok text).
Proof.
  unfold unsummarizable, summarizeNode. split.
  - intros (Hz & Hn & Hi). rewrite Hz.
    destruct (n =? 0) eqn:E0; [apply Z.eqb_eq in E0; contradiction|].
    destruct (NodeId_incr n =? 0) eqn:E1; [apply Z.eqb_eq in E1; contradiction|].
    reflexivity.
  - intros Hnot.
    destruct (n =? 0) eqn:E0; [eexists; reflexivity|].
    destruct (NodeId_incr n =? numNodes g) eqn:E1; [eexists; reflexivity|].
    destruct (numNodes g =? 0) eqn:Ez.
    + exfalso. apply Hnot. apply Z.eqb_eq in Ez. apply Z.eqb_neq in E0, E1.
      rewrite Ez in E1. auto.
    + cbn [negb assert]. destruct (hasEdge g n n); eexists; reflexivity.
Qed.

Lemma unsummarizable_dec (g : Graph) (n : NodeId) :
  {unsummarizable g n} + {~ unsummarizable g n}.
Proof.
  unfold unsummarizable.
  destruct (Z.eq_dec (numNodes g) 0); [|right; tauto].
  destruct (Z.eq_dec n 0); [right; tauto|].
  destruct (Z.eq_dec (NodeId_incr n) 0); [right; tauto | left; tauto].
Qed.

Lemma summarizeLoop_cases (g : Graph) (path : Path) (remaining observed : list NodeId)
    (summary : string) :
  Forall (fun n => ~ unsummarizable g n) observed ->
  (Exists (unsummarizable g) remaining ->
   summarizeLoop g path remaining observed summary = AssertFail)
  /\ (~ Exists (unsummarizable g) remaining ->
      exists text, summarizeLoop g path remaining observed summary = Ok text).
Proof.
  revert observed summary.
  induction remaining as [|n rest IH]; intros observed summary Hobs.
  - split; [intros H; inversion H | intros _; eexists; reflexivity].
  - cbn [summarizeLoop].
    destruct (existsb (Z.eqb n) observed) eqn:Eo.
    + assert (Hn : ~ unsummarizable g n).
      { apply existsb_exists in Eo as (o & Ho & Eq). apply Z.eqb_eq in Eq. subst o.
        rewrite Forall_forall in Hobs. now apply Hobs. }
      destruct (IH observed summary Hobs) as [IHf IHo]. split.
      * intros H. apply IHf. inversion H; subst; [contradiction | assumption].
      * intros H. apply IHo. intros Hex. apply H. now right.
    + destruct (unsummarizable_dec g n) as [Hbad|Hgood].
      * split; [|intros H; exfalso; apply H; now left].
        intros _. now rewrite (proj1 (summarizeNode_cases g path n) Hbad).
      * destruct (proj2 (summarizeNode_cases g path n) Hgood) as (text & Ht).
        rewrite Ht. cbn [bind].
        destruct (IH (n :: observed) (summary ++ text)%string) as [IHf IHo];
          [constructor; assumption|].
        split.
        -- intros H. apply IHf. inversion H; subst; [contradiction | assumption].
        -- intros H. apply IHo. intros Hex. apply H. now right.
Qed.

(** X14.  The assertion of [summarizePath] cannot fail on a path over
    nodes of the graph: for such a path, and so for every [Path] that was
    built, the summary is returned. *)
Theorem summarizePath_returns (g : Graph) (path : Path) :
  Forall (fun n => 0 <= n < numNodes g) (nodeIds path) ->
  exists text, summarizePath g path = Ok text.
Proof.
  intros Hnodes. unfold summarizePath.
  apply (summarizeLoop_cases g path (nodeIds path) [] "" (Forall_nil _)).
  intros Hex. apply Exists_exists in Hex as (n & Hn & Hz & _).
  rewrite Forall_forall in Hnodes. specialize (Hnodes n Hn). lia.
Qed.

Lemma summarizePath_returns_witness :
  exists text, summarizePath exampleGraph (mkPath 0 [0; 1; 1; 2] 6) = Ok text.
Proof.
  apply (summarizePath_returns exampleGraph (mkPath 0 [0; 1; 1; 2] 6)).
  simpl. repeat (constructor; [lia|]). constructor.
Defined.

Lemma summarizePath_valid (g : Graph) (path : Path) :
  Path_valid g path = true -> exists text, summarizePath g path = Ok text.
Proof.
  intros Hvalid. unfold summarizePath.
  apply (summarizeLoop_cases g path (nodeIds path) [] "" (Forall_nil _)).
  intros Hex. apply Exists_exists in Hex as (n & Hn & Hz & _).
  destruct (Path_valid_nodes g path Hvalid) as [_ Hnodes].
  rewrite Forall_forall in Hnodes. specialize (Hnodes n Hn). lia.
Qed.

(** X15.  Every diplotype that [getCandidateDiplotypes] returns can be
    printed: it has one haplotype or two, and [operator<<] writes the
    summary of the one, or the summaries of the two joined by a slash. *)
Theorem enumerated_diplotypes_print
    (fs : FileSystem) (meanFragLen : Z) (vcfPath : string)
    (locusSpec : LocusSpecification) (diplotypes : list Diplotype) :
  getCandidateDiplotypes fs meanFragLen vcfPath locusSpec = Ok diplotypes ->
  forall diplotype, In diplotype diplotypes ->
    (exists haplotype text,
        diplotype = [haplotype]
        /\ summarizePath (regionGraph locusSpec) haplotype = Ok text
        /\ printDiplotype (regionGraph locusSpec) diplotype = Ok text)
    \/ (exists first second firstText secondText,
          diplotype = [first; second]
          /\ summarizePath (regionGraph locusSpec) first = Ok firstText
          /\ summarizePath (regionGraph locusSpec) second = Ok secondText
          /\ printDiplotype (regionGraph locusSpec) diplotype
             = Ok (firstText ++ "/" ++ secondText)%string).
Proof.
  intros H diplotype Hin.
  destruct (getCandidateDiplotypesWith_Ok_inv _ _ _ _ _ _ H)
    as (nodeRange & firstAlleles & otherRegions & nbd & rightFlankLength & ds
        & Hm & Hwalk & Hmake & ->).
  apply unique_In in Hin.
  destruct (insertion_sort_sorts Diplotype_lt Diplotype_lt_strict_total ds) as [Hperm _].
  apply (Permutation_in _ (Permutation_sym Hperm)) in Hin.
  destruct (Forall2_In_r _ _ _ _ Hmake Hin) as (nodes & Hnodes & Hd).
  destruct (getGenotypeNodesByNodeRange_facts _ _ _ _ _ Hm) as (_ & _ & Hentries).
  destruct (Hentries nodeRange firstAlleles (or_introl eq_refl))
    as (v & n & lens & _ & _ & _ & _ & _ & HA & _).
  apply walk_reaches in Hwalk as (node & Hreach).
  assert (Hlen : Forall (fun genotype : NodeVectors =>
                           List.length genotype = List.length firstAlleles) nbd).
  { apply (walkReaches_length _ _ _ _ _ Hreach). simpl.
    constructor; [apply repeat_length | constructor]. }
  rewrite Forall_forall in Hlen. specialize (Hlen _ Hnodes).
  pose proof (makeDiplotype_length _ _ _ _ Hd) as Hdl.
  destruct (makeDiplotype_facts _ _ _ _ Hd) as (_ & _ & Hvalid).
  destruct diplotype as [|first [|second [|third others]]]; simpl in Hdl; try lia.
  - left. inversion Hvalid as [|? ? (Hv & _) _]; subst.
    destruct (summarizePath_valid _ _ Hv) as (text & Ht).
    exists first, text. split; [reflexivity|]. split; [exact Ht|].
    unfold printDiplotype. rewrite Ht. reflexivity.
  - right. inversion Hvalid as [|? ? (Hv1 & _) Hrest]; subst.
    inversion Hrest as [|? ? (Hv2 & _) _]; subst.
    destruct (summarizePath_valid _ _ Hv1) as (t1 & Ht1).
    destruct (summarizePath_valid _ _ Hv2) as (t2 & Ht2).
    exists first, second, t1, t2. split; [reflexivity|].
    split; [exact Ht1|]. split; [exact Ht2|].
    unfold printDiplotype. rewrite Ht1. cbn [bind List.length Nat.eqb last].
    rewrite Ht2. reflexivity.
Qed.

Lemma enumerated_diplotypes_print_witness :
  let diplotype := [mkPath 0 [0; 1; 1; 1; 2] 6; mkPath 0 [0; 1; 1; 1; 1; 2] 6] in
  (exists haplotype text,
      diplotype = [haplotype]
      /\ summarizePath (regionGraph exampleLocus) haplotype = Ok text
      /\ printDiplotype (regionGraph exampleLocus) diplotype = Ok text)
  \/ (exists first second firstText secondText,
        diplotype = [first; second]
        /\ summarizePath (regionGraph exampleLocus) first = Ok firstText
        /\ summarizePath (regionGraph exampleLocus) second = Ok secondText
        /\ printDiplotype (regionGraph exampleLocus) diplotype
           = Ok (firstText ++ "/" ++ secondText)%string).
Proof.
  apply (enumerated_diplotypes_print exampleFiles 150 "sample.vcf" exampleLocus
           [[mkPath 0 [0; 1; 1; 1; 2] 6; mkPath 0 [0; 1; 1; 1; 1; 2] 6]]).
  - vm_compute. reflexivity.
  - left. reflexivity.
Defined.

(** ** Exceptions *)

Lemma genotypeNodesLoop_Throw (fs : FileSystem) (meanFragLen : Z) (vcfPath : string)
    (specs : list VariantSpecification) (m : NodeRangeMap) (e : exception) :
  genotypeNodesLoop fs meanFragLen vcfPath specs m = Throw e ->
  exists variantSpec,
    In variantSpec specs
    /\ ((classification_type variantSpec = kSmallVariant /\ e = UnsupportedVariantType)
        \/ extractRepeatLengths fs vcfPath (id variantSpec) = Throw e
        \/ (exists repeatLens repeatLen,
              extractRepeatLengths fs vcfPath (id variantSpec) = Ok repeatLens
              /\ In repeatLen repeatLens
              /\ Z.min meanFragLen repeatLen < 0
              /\ e = length_error "cannot create std::vector larger than max_size()")).
Proof.
  revert m. induction specs as [|v rest IH]; intros m; simpl; [discriminate|].
  destruct (genotypeNodesOfVariant fs meanFragLen vcfPath v m) as [m1| | | | |] eqn:E;
    simpl; try discriminate.
  - intros H. destruct (IH _ H) as (u & Hu & He). exists u. auto.
  - intros H. injection H as ->. exists v. split; [now left|].
    unfold genotypeNodesOfVariant in E.
    destruct (classification_type v); [|injection E as <-; left; auto].
    destruct (Nat.eqb (List.length (nodes v)) 1) eqn:E1; [|discriminate].
    cbn [assert] in E. apply Nat.eqb_eq in E1.
    destruct (nodes v) as [|n [|n' others]]; try discriminate.
    cbn [at_index nth_error bind] in E.
    destruct (extractRepeatLengths fs vcfPath (id v)) as [lens| | | | |];
      cbn [bind] in E; try discriminate;
      [|injection E as ->; right; left; reflexivity].
    right. right.
    destruct (genotypeNodesOf meanFragLen n lens) as [alleles| | | | |] eqn:Eg;
      cbn [bind] in E; try discriminate.
    + destruct (Nat.leb (List.length alleles) 2); discriminate.
    + injection E as ->. unfold genotypeNodesOf in Eg.
      apply mapM_Throw in Eg as (capped & Hin & Hf).
      rewrite (proj1 (capLengths_facts meanFragLen lens)) in Hin.
      apply in_map_iff in Hin as (len & <- & Hlen).
      unfold NodeVector_fill in Hf.
      destruct (Z.min meanFragLen len <? 0) eqn:En; [|discriminate].
      apply Z.ltb_lt in En. injection Hf as <-.
      exists lens, len. auto.
Qed.

Lemma getVariantGenotypeNodes_outcomes (m : NodeRangeMap) (node : NodeId) :
  (exists found, getVariantGenotypeNodes m node = Ok found)
  \/ getVariantGenotypeNodes m node = AssertFail.
Proof.
  induction m as [|[nodeRange paths] rest IH]; cbn [getVariantGenotypeNodes].
  - left. eexists. reflexivity.
  - destruct (_ && _)%bool; [|exact IH].
    destruct (Nat.leb (List.length paths) 2); cbn [assert]; [left; eexists|right];
      reflexivity.
Qed.

Lemma extendDiplotype_outcomes (genotypes : list NodeVectors) (alleles : NodeVectors) :
  (exists extended, extendDiplotype genotypes alleles = Ok extended)
  \/ extendDiplotype genotypes alleles = AssertFail.
Proof.
  destruct (Forall_dec _ (extensible_dec alleles) genotypes) as [Hall|Hnot].
  - destruct (proj1 (extendDiplotype_cases genotypes alleles) Hall) as (ext & He & _).
    left. exists ext. exact He.
  - right. exact (proj2 (extendDiplotype_cases genotypes alleles) Hnot).
Qed.

Lemma walkStep_outcomes (m : NodeRangeMap) (st : WalkState) :
  (exists st', walkStep m st = Ok st') \/ walkStep m st = AssertFail.
Proof.
  destruct st as [node nbd]. unfold walkStep.
  destruct (getVariantGenotypeNodes_outcomes m node) as [(found & ->)| ->];
    cbn [bind]; [|right; reflexivity].
  destruct found as [[alleles lastNode]|]; [|left; eexists; reflexivity].
  destruct (extendDiplotype_outcomes nbd alleles) as [(ext & ->)| ->]; cbn [bind];
    [left; eexists|right]; reflexivity.
Qed.

Lemma walk_outcomes (fuel : nat) (nNodes : Z) (m : NodeRangeMap) (st : WalkState) :
  (exists nodesByDiplotype, walk fuel nNodes m st = Ok nodesByDiplotype)
  \/ walk fuel nNodes m st = AssertFail
  \/ walk fuel nNodes m st = OutOfFuel.
Proof.
  revert st. induction fuel as [|fuel IH]; intros st; [auto|].
  cbn [walk]. destruct (fst st =? nNodes); [left; eexists; reflexivity|].
  destruct (walkStep_outcomes m st) as [(st' & ->)| ->]; cbn [bind]; [apply IH | auto].
Qed.

(** X16.  An exception that leaves [getCandidateDiplotypes] comes from
    the first loop over the variants, and from one variant: the variant is
    a small variant and the exception is the rejection of small variants,
    or the exception is the one raised by the extraction of the repeat
    lengths of the variant, or one of its lengths is negative after capping
    and the construction of the node vector raises a length error.  The
    walk over the nodes and the construction of the paths throw none of
    these: a path that breaks the invariant of graph-tools is a contract
    violation, an outcome of its own. *)
Theorem enumeration_exceptions
    (fs : FileSystem) (meanFragLen : Z) (vcfPath : string)
    (locusSpec : LocusSpecification) (e : exception) :
  getCandidateDiplotypes fs meanFragLen vcfPath locusSpec = Throw e ->
  exists variantSpec,
    In variantSpec (variantSpecs locusSpec)
    /\ ((classification_type variantSpec = kSmallVariant /\ e = UnsupportedVariantType)
        \/ extractRepeatLengths fs vcfPath (id variantSpec) = Throw e
        \/ (exists repeatLens repeatLen,
              extractRepeatLengths fs vcfPath (id variantSpec) = Ok repeatLens
              /\ In repeatLen repeatLens
              /\ Z.min meanFragLen repeatLen < 0
              /\ e = length_error "cannot create std::vector larger than max_size()")).
Proof.
  unfold getCandidateDiplotypes, getCandidateDiplotypesWith. intros H.
  destruct (getGenotypeNodesByNodeRange fs meanFragLen vcfPath locusSpec)
    as [m| | | | |] eqn:Hm; cbn [bind] in H; try discriminate.
  2: { injection H as ->. now apply genotypeNodesLoop_Throw in Hm. }
  exfalso. destruct m as [|[nodeRange firstAlleles] otherRegions]; [discriminate|].
  match type of H with
  | bind (walk ?fuel ?n ?m ?st) _ = _ =>
      destruct (walk_outcomes fuel n m st) as [(nbd & Hw)|[Hw|Hw]];
        rewrite Hw in H; cbn [bind] in H; try discriminate
  end.
  match type of H with
  | bind (mapM ?f nbd) _ = _ =>
      destruct (mapM f nbd) as [ds| | | | |] eqn:Hmk; cbn [bind] in H; try discriminate
  end.
  injection H as ->.
  apply mapM_Throw in Hmk as (nodes & _ & Hmake).
  unfold makeDiplotype in Hmake.
  match type of Hmake with
  | bind (mapM ?f nodes) _ = _ =>
      destruct (mapM f nodes) as [dip| | | | |] eqn:Hdip; cbn [bind] in Hmake;
        try discriminate
  end.
  - destruct dip as [|front rest]; [discriminate|].
    destruct (Path_lt front (last (front :: rest) front)); discriminate.
  - apply mapM_Throw in Hdip as (h & _ & Hh). unfold newPath in Hh.
    destruct (Path_valid _ _); discriminate.
Qed.

Lemma enumeration_exceptions_witness :
  exists variantSpec,
    In variantSpec (variantSpecs exampleLocus)
    /\ ((classification_type variantSpec = kSmallVariant
         /\ IOError "other.vcf" = UnsupportedVariantType)
        \/ extractRepeatLengths exampleFiles "other.vcf" (id variantSpec)
           = Throw (IOError "other.vcf")
        \/ (exists repeatLens repeatLen,
              extractRepeatLengths exampleFiles "other.vcf" (id variantSpec) = Ok repeatLens
              /\ In repeatLen repeatLens
              /\ Z.min 150 repeatLen < 0
              /\ IOError "other.vcf"
                 = length_error "cannot create std::vector larger than max_size()")).
Proof.
  apply (enumeration_exceptions exampleFiles 150 "other.vcf" exampleLocus).
  vm_compute. reflexivity.
Defined.

(** ** Termination *)

(** The iterations granted to the walk are enough. *)
Lemma enumeration_fuel_suffices (sort : list Diplotype -> list Diplotype)
    (fs : FileSystem) (meanFragLen : Z) (vcfPath : string)
    (locusSpec : LocusSpecification) :
  0 <= numNodes (regionGraph locusSpec) < NodeId_modulus ->
  variantNodesInRange locusSpec ->
  getCandidateDiplotypesWith sort fs meanFragLen vcfPath locusSpec <> OutOfFuel.
Proof.
  intros Hn Hnodes. unfold getCandidateDiplotypesWith.
  destruct (getGenotypeNodesByNodeRange fs meanFragLen vcfPath locusSpec)
    as [m| | | | |] eqn:Hm; cbn [bind]; try discriminate.
  2: { exfalso. exact (genotypeNodesLoop_finishes _ _ _ _ _ Hm). }
  destruct m as [|[range alleles] others]; [discriminate|].
  assert (Hsingle : singleNodeRegions ((range, alleles) :: others)).
  { eapply genotypeNodesLoop_single; [exact Hnodes | constructor | exact Hm]. }
  apply bind_finishes.
  - apply walk_finishes; try assumption.
    + simpl. unfold NodeId_modulus. lia.
    + simpl fst. unfold walkFuel. rewrite Nat2Z.inj_succ, Z2Nat.id.
      * lia.
      * apply Z.mod_pos_bound. unfold NodeId_modulus. lia.
  - intros nbd. apply bind_finishes; [|discriminate].
    apply mapM_finishes. intros nodes. unfold makeDiplotype.
    apply bind_finishes.
    + apply mapM_finishes. intros h. unfold newPath.
      destruct (Path_valid _ _); discriminate.
    + intros [|front rest]; [discriminate|].
      destruct (Path_lt _ _); discriminate.
Qed.

(** X17.  For a graph whose number of nodes fits a [NodeId] and variants
    whose nodes are nodes of the graph, the [while] loop of the enumeration
    comes to an end within the iterations from node 1 to the number of
    nodes: the enumeration returns, throws, aborts or is undefined. *)
Theorem enumeration_finishes (sort : list Diplotype -> list Diplotype)
    (fs : FileSystem) (meanFragLen : Z) (vcfPath : string)
    (locusSpec : LocusSpecification) :
  0 <= numNodes (regionGraph locusSpec) < NodeId_modulus ->
  variantNodesInRange locusSpec ->
  (exists diplotypes,
      getCandidateDiplotypesWith sort fs meanFragLen vcfPath locusSpec = Ok diplotypes)
  \/ (exists e,
        getCandidateDiplotypesWith sort fs meanFragLen vcfPath locusSpec = Throw e)
  \/ getCandidateDiplotypesWith sort fs meanFragLen vcfPath locusSpec = AssertFail
  \/ getCandidateDiplotypesWith sort fs meanFragLen vcfPath locusSpec = ContractViolation
  \/ getCandidateDiplotypesWith sort fs meanFragLen vcfPath locusSpec = Undefined.
Proof.
  intros Hn Hnodes.
  pose proof (enumeration_fuel_suffices sort fs meanFragLen vcfPath locusSpec Hn Hnodes)
    as Hfuel.
  destruct (getCandidateDiplotypesWith sort fs meanFragLen vcfPath locusSpec)
    as [diplotypes|e| | | |].
  - left. exists diplotypes. reflexivity.
  - right. left. exists e. reflexivity.
  - right. right. left. reflexivity.
  - right. right. right. left. reflexivity.
  - right. right. right. right. reflexivity.
  - contradiction.
Qed.

Lemma enumeration_finishes_witness :
  let result :=
    getCandidateDiplotypesWith (insertion_sort Diplotype_lt)
      exampleFiles 150 "sample.vcf" exampleLocus in
  (exists diplotypes, result = Ok diplotypes)
  \/ (exists e, result = Throw e)
  \/ result = AssertFail
  \/ result = ContractViolation
  \/ result = Undefined.
Proof.
  apply (enumeration_finishes (insertion_sort Diplotype_lt)
           exampleFiles 150 "sample.vcf" exampleLocus).
  - vm_compute. split; [discriminate | reflexivity].
  - repeat constructor; vm_compute; try discriminate; reflexivity.
Defined.
